(** * Polytope and zonotope operations of CORA (Python translation)

    A shallow embedding of the set operations in
    [cora_python/contSet/polytope] and [cora_python/contSet/zonotope]:
    point containment, Minkowski addition, box enclosure, the empty
    zonotope and the averaging intersection of zonotopes.

    Numbers.  The source computes with numpy [float64].  Where the code
    builds, moves and adds up arrays, a finite number is an exact rational
    ([Q]) here, and the infinities the source writes as [np.inf] and
    [-np.inf] are the two extra values of [xfloat]; rounding and NaN are
    outside that part of the model.  Where the code compares computed
    numbers and the answer rests on the comparison (the tests and the
    scaling factors of the point check, the time test of [monitorSTL]),
    the numbers are binary64 numbers with their rounding, infinities and
    NaN: see [Float64].

    Arrays.  A two-dimensional numpy array is a [mat]: its shape and its
    rows.  The shape is kept apart from the rows because the source builds
    arrays with zero rows and [n] columns, and with [n] rows and zero
    columns.  Operations that numpy refuses (mismatched shapes, the maximum
    of an empty array) return [Raise].  The dimensions of an array are
    natural numbers: the size numpy can give an array (its byte count has
    to fit a signed 64-bit integer, and the memory has to be there) is
    outside the model, and the theorems about constructors that take a
    dimension from their caller bound it. *)

From Stdlib Require Import QArith Qminmax Qabs ZArith Lia String.
From Stdlib Require Import Lqa Sorted.
From Stdlib Require Floats.
From stdpp Require Import base list.

Set Default Proof Using "Type".
Set Warnings "-inexact-float".

(** ** Exceptions *)

Inductive exn :=
| ValueError
| TypeError
| AttributeError
| IndexError
| CORAerror (id : string)
| NotFinite.

(** [NotFinite] is not an exception of the source: it marks a division by
    zero, where numpy goes on with an infinity or NaN and a warning, which
    the exact numbers of this model cannot follow. *)

Inductive res (T : Type) :=
| Ok (a : T)
| Raise (e : exn).
Arguments Ok {T} a.
Arguments Raise {T} e.

#[global] Instance res_ret : MRet res := fun T a => Ok a.
#[global] Instance res_bind : MBind res :=
  fun T U f m => match m with Ok a => f a | Raise e => Raise e end.
#[global] Instance res_fmap : FMap res :=
  fun T U f m => match m with Ok a => Ok (f a) | Raise e => Raise e end.

(** [for i in idxs: s = body(i, s)], where the body may raise. *)
Fixpoint for_each {St : Type} (body : nat -> St -> res St) (idxs : list nat) (s : St)
  : res St :=
  match idxs with
  | [] => Ok s
  | i :: rest => s' ← body i s; for_each body rest s'
  end.

(** [for i, x in enumerate(l): s = body(i, x, s)], counting from [i]. *)
Fixpoint for_enumerate {T St : Type} (body : nat -> T -> St -> res St) (i : nat)
    (l : list T) (s : St) : res St :=
  match l with
  | [] => Ok s
  | x :: rest => s' ← body i x s; for_enumerate body (i + 1) rest s'
  end.

(** ** Numbers *)

(** [a < b] on finite numbers, as a boolean. *)
Definition Qltb (a b : Q) : bool := negb (Qle_bool b a).

(** [a / b] where numpy would leave the finite numbers on [b = 0]. *)
Definition qdiv (a b : Q) : res Q :=
  if Qeq_bool b 0 then Raise NotFinite else Ok (a / b)%Q.

Inductive xfloat :=
| NInf
| Fin (q : Q)
| PInf.

Definition xneg (x : xfloat) : xfloat :=
  match x with
  | NInf => PInf
  | Fin q => Fin (- q)
  | PInf => NInf
  end.

(** [x == -np.inf] *)
Definition is_ninf (x : xfloat) : bool :=
  match x with NInf => true | _ => false end.

(** [np.minimum(x, y)] *)
Definition xmin (x y : xfloat) : xfloat :=
  match x, y with
  | NInf, _ | _, NInf => NInf
  | PInf, z | z, PInf => z
  | Fin p, Fin q => Fin (Qmin p q)
  end.

(** ** Arrays *)

Record mat (T : Type) := Mat {
  nrows : nat;
  ncols : nat;
  rows : list (list T)
}.
Arguments Mat {T} _ _ _.
Arguments nrows {T} _.
Arguments ncols {T} _.
Arguments rows {T} _.

(** The shape describes the rows. *)
Definition wf_mat {T} (M : mat T) : Prop :=
  length (rows M) = nrows M /\ Forall (fun r => length r = ncols M) (rows M).

(** A numpy array handed in by a caller: one- or two-dimensional. *)
Inductive ndarray :=
| Arr1 (v : list Q)
| Arr2 (M : mat Q).

(** [np.zeros((r, c))] *)
Definition zeros (r c : nat) : mat Q := Mat r c (replicate r (replicate c 0%Q)).

(** [np.eye(n)] *)
Definition eye (n : nat) : mat Q :=
  Mat n n (map (fun i => map (fun j => if Nat.eqb i j then 1%Q else 0%Q) (seq 0 n))
               (seq 0 n)).

(** [-M] *)
Definition mneg (M : mat Q) : mat Q :=
  Mat (nrows M) (ncols M) (map (map Qopp) (rows M)).

(** [np.abs(M)] *)
Definition np_abs (M : mat Q) : mat Q :=
  Mat (nrows M) (ncols M) (map (map Qabs) (rows M)).

(** [np.hstack([M, N])]: the row counts must agree. *)
Definition hstack {T} (M N : mat T) : res (mat T) :=
  if Nat.eqb (nrows M) (nrows N)
  then Ok (Mat (nrows M) (ncols M + ncols N) (zip_with app (rows M) (rows N)))
  else Raise ValueError.

(** [np.vstack([M, N])]: the column counts must agree. *)
Definition vstack {T} (M N : mat T) : res (mat T) :=
  if Nat.eqb (ncols M) (ncols N)
  then Ok (Mat (nrows M + nrows N) (ncols M) (rows M ++ rows N))
  else Raise ValueError.

(** [np.block([[M11, M12], [M21, M22]])] *)
Definition block22 (M11 M12 M21 M22 : mat Q) : res (mat Q) :=
  top ← hstack M11 M12;
  bottom ← hstack M21 M22;
  vstack top bottom.

(** [M[i, j]] *)
Definition get (M : mat Q) (i j : nat) : Q := nth j (nth i (rows M) []) 0%Q.

(** [M[:, j]], a one-dimensional array *)
Definition col (M : mat Q) (j : nat) : list Q := map (fun r => nth j r 0%Q) (rows M).

(** [M[:, i:i+1]], a two-dimensional array *)
Definition col_slice (M : mat Q) (i : nat) : mat Q :=
  Mat (nrows M) (Nat.min 1 (ncols M - i)) (map (fun r => take 1 (drop i r)) (rows M)).

Definition dot (u v : list Q) : Q := foldr Qplus 0%Q (zip_with Qmult u v).

(** [M @ N]: the inner dimensions must agree. *)
Definition matmul (M N : mat Q) : res (mat Q) :=
  if Nat.eqb (ncols M) (nrows N)
  then Ok (Mat (nrows M) (ncols N)
             (map (fun r => map (fun j => dot r (col N j)) (seq 0 (ncols N))) (rows M)))
  else Raise ValueError.

(** numpy broadcasting of one axis: equal lengths, or one of them is 1. *)
Definition bdim (a b : nat) : res nat :=
  if Nat.eqb a b then Ok a
  else if Nat.eqb a 1 then Ok b
  else if Nat.eqb b 1 then Ok a
  else Raise ValueError.

Definition bget (M : mat Q) (i j : nat) : Q :=
  get M (if Nat.eqb (nrows M) 1 then 0 else i) (if Nat.eqb (ncols M) 1 then 0 else j).

(** An elementwise operation on two arrays, with broadcasting. *)
Definition broadcast (f : Q -> Q -> Q) (M N : mat Q) : res (mat Q) :=
  r ← bdim (nrows M) (nrows N);
  c ← bdim (ncols M) (ncols N);
  Ok (Mat r c (map (fun i => map (fun j => f (bget M i j) (bget N i j)) (seq 0 c))
                   (seq 0 r))).

(** [M - N] and [M + N] *)
Definition msub : mat Q -> mat Q -> res (mat Q) := broadcast Qminus.
Definition madd : mat Q -> mat Q -> res (mat Q) := broadcast Qplus.

(** [np.max(M)]: numpy raises on an array without entries. *)
Definition np_max (M : mat Q) : res Q :=
  match concat (rows M) with
  | [] => Raise ValueError
  | x :: l => Ok (foldl Qmax x l)
  end.

(** [v.reshape(-1, 1)] of a one-dimensional array *)
Definition reshape_col (v : list Q) : mat Q :=
  Mat (length v) 1 (map (fun x => [x]) v).

(** [np.array([]).reshape(0, n)] *)
Definition empty_rows {T} (n : nat) : mat T := Mat 0 n [].

(** ** Polytopes *)

(** The attributes of a [Polytope] object that the operations below read:
    [P_A P] is the source's [P.A], and so on.  An attribute that is [None]
    in Python is [None] here. *)
Record Polytope := mkPolytope {
  P_A : option (mat Q);
  P_b : option (mat Q);
  P_Ae : option (mat Q);
  P_be : option (mat Q);
  P_V : option (mat Q);
  P_isHRep : bool;
  P_isVRep : bool
}.

(** Modelled from the spec: the constructors of the [Polytope] class
    ([polytope.py] is not among the sources followed here).  A polytope is
    built from [(A, b)], optionally with [(Ae, be)], or from a vertex
    matrix [V], and keeps what it is given. *)
Definition Polytope_H (A b : mat Q) (Ae be : option (mat Q)) : Polytope :=
  mkPolytope (Some A) (Some b) Ae be None true false.

Definition Polytope_V (V : mat Q) : Polytope :=
  mkPolytope None None None None (Some V) false true.

(** Reading an attribute that must be an array: arithmetic on [None] raises. *)
Definition array_of (o : option (mat Q)) : res (mat Q) :=
  match o with Some M => Ok M | None => Raise TypeError end.

(** *** contains_.py *)

(** What a containment query returns for a single point and for several. *)
Inductive bool_out :=
| BScalar (r : bool)
| BArray (rs : list bool).

Inductive float_out :=
| FScalar (s : xfloat)
| FArray (ss : list xfloat).

(** A set object handed to [contains_]: [None] for a method the object
    does not have ([hasattr] is false); a method that is there returns or
    raises, and [center] may return [None]. *)
Record set_object := mkSetObject {
  vertices : option (res ndarray);
  center : option (res (option ndarray))
}.

Inductive operand :=
| Numeric (a : ndarray)
| SetObject (s : set_object).

Section Contains.

(** [np.linalg.norm] *)
Variable linalg_norm : mat Q -> Q.

(** [max(A @ point - b)] *)
Definition max_violation_of (A : mat Q) (b : option (mat Q)) (point : mat Q) : res Q :=
  Ap ← matmul A point;
  b ← array_of b;
  violations ← msub Ap b;
  np_max violations.

(** [max(|Ae @ point - be|)] *)
Definition max_eq_violation_of (Ae : mat Q) (be : option (mat Q)) (point : mat Q) : res Q :=
  Aep ← matmul Ae point;
  be ← array_of be;
  d ← msub Aep be;
  np_max (np_abs d).

(** The scaling factor written for a point with inequality rows present. *)
Definition scaling_of (is_contained : bool) (b : option (mat Q)) (max_violation : Q)
  : res xfloat :=
  if is_contained then Ok (Fin 1)
  else
    b ← array_of b;
    let b_norm := linalg_norm b in
    if Qltb 1e-9 b_norm
    then Ok (Fin (1 + max_violation / b_norm))
    else Ok (Fin (1 + max_violation)).

(** The body of the loop over the points: iteration [i] on the arrays
    [results] and [scaling_factors]. *)
Definition check_point (P : Polytope) (A : mat Q) (points : mat Q) (tol : Q)
    (scalingToggle : bool) (i : nat) (st : list bool * list xfloat)
  : res (list bool * list xfloat) :=
  let '(results, scaling_factors) := st in
  let point := col_slice points i in
  let is_contained := true in
  '(is_contained, scaling_factors) ←
    (if Nat.ltb 0 (nrows A) then
       max_violation ← max_violation_of A (P_b P) point;
       let is_contained := if Qltb tol max_violation then false else is_contained in
       if scalingToggle then
         s ← scaling_of is_contained (P_b P) max_violation;
         Ok (is_contained, <[i := s]> scaling_factors)
       else Ok (is_contained, scaling_factors)
     else Ok (is_contained, scaling_factors));
  is_contained ←
    match P_Ae P with
    | Some Ae =>
        if Nat.ltb 0 (nrows Ae) then
          max_eq_violation ← max_eq_violation_of Ae (P_be P) point;
          Ok (if Qltb tol max_eq_violation then false else is_contained)
        else Ok is_contained
    | None => Ok is_contained
    end;
  Ok (<[i := is_contained]> results, scaling_factors).

(** [scaling_factors[results] = np.minimum(scaling_factors[results], 1.0)] *)
Definition clip_contained (results : list bool) (scaling_factors : list xfloat)
  : list xfloat :=
  zip_with (fun (r : bool) s => if r then xmin s (Fin 1) else s) results scaling_factors.

(** [if points.ndim == 1: points = points.reshape(-1, 1)] *)
Definition as_points (points : ndarray) : mat Q :=
  match points with Arr1 v => reshape_col v | Arr2 M => M end.

Definition _contains_pointcloud (P : Polytope) (points : ndarray) (method : string)
    (tol : Q) (certToggle scalingToggle : bool)
  : res (bool_out * bool * float_out) :=
  let points := as_points points in
  let n := nrows points in
  let num_points := ncols points in
  match P_A P with
  | None => Raise (CORAerror "CORA:notSupported")
  | Some A =>
      let results := replicate num_points false in
      let scaling_factors := replicate num_points PInf in
      '(results, scaling_factors) ←
        for_each (check_point P A points tol scalingToggle) (seq 0 num_points)
                 (results, scaling_factors);
      let scaling_factors :=
        if scalingToggle then clip_contained results scaling_factors
        else scaling_factors in
      if Nat.eqb num_points 1
      then Ok (BScalar (nth 0 results false), true, FScalar (nth 0 scaling_factors PInf))
      else Ok (BArray results, true, FArray scaling_factors)
  end.

Definition contains_ (P : Polytope) (S : operand) (method : string) (tol : Q)
    (maxEval : Z) (certToggle scalingToggle : bool)
  : res (bool_out * bool * float_out) :=
  match S with
  | Numeric a => _contains_pointcloud P a method tol certToggle scalingToggle
  | SetObject obj =>
      (* try: vertices = S.vertices(); return ...  except: pass *)
      let tried :=
        match vertices obj with
        | Some call =>
            match (v ← call; _contains_pointcloud P v method tol certToggle scalingToggle) with
            | Ok out => Some out
            | Raise _ => None
            end
        | None => None
        end in
      match tried with
      | Some out => Ok out
      | None =>
          let default := Ok (BScalar false, true, FScalar PInf) in
          match center obj with
          | Some call =>
              c ← call;
              match c with
              | Some c =>
                  '(result, cert, scaling) ←
                    _contains_pointcloud P c method tol certToggle scalingToggle;
                  Ok (result, cert, scaling)
              | None => default
              end
          | None => default
          end
      end
  end.

End Contains.

(** *** plus.py *)

(** Reading [.shape] of an attribute: on [None] Python raises. *)
Definition shaped (o : option (mat Q)) : res (mat Q) :=
  match o with Some M => Ok M | None => Raise AttributeError end.

(** [u + v] on one-dimensional arrays, with broadcasting. *)
Definition vadd (u v : list Q) : res (list Q) :=
  if Nat.eqb (length u) (length v) then Ok (zip_with Qplus u v)
  else if Nat.eqb (length u) 1 then Ok (map (Qplus (nth 0 u 0%Q)) v)
  else if Nat.eqb (length v) 1 then Ok (map (fun x => (x + nth 0 v 0)%Q) u)
  else Raise ValueError.

(** [M[:, idx] = v]: the column must exist, and [v] must fill it (or have
    one entry, which numpy repeats). *)
Definition set_col (M : mat Q) (idx : nat) (v : list Q) : res (mat Q) :=
  if Nat.ltb idx (ncols M) then
    if Nat.eqb (length v) (nrows M)
    then Ok (Mat (nrows M) (ncols M) (zip_with (fun r x => <[idx := x]> r) (rows M) v))
    else if Nat.eqb (length v) 1
    then Ok (Mat (nrows M) (ncols M) (map (fun r => <[idx := nth 0 v 0%Q]> r) (rows M)))
    else Raise ValueError
  else Raise IndexError.

(** The block system of [_aux_plus_Hpoly_Hpoly]: the polytope [P_highdim]
    in [2n] variables that the function hands to [project].  Operands
    whose offsets [b] or [be] are [None] next to a matrix are outside the
    model: numpy stacks [None] into an array of objects, the model stops
    with [TypeError]. *)
Definition lifted_Hpoly (P1 P2 : Polytope) (n : nat) : res Polytope :=
  A1 ← shaped (P_A P1);
  A2 ← shaped (P_A P2);
  let Z_A := zeros (nrows A1) (ncols A2) in
  A ← block22 A2 (mneg A2) Z_A A1;
  b2 ← array_of (P_b P2);
  b1 ← array_of (P_b P1);
  b ← vstack b2 b1;
  match P_Ae P1, P_Ae P2 with
  | Some Ae1, Some Ae2 =>
      let Z_Ae := zeros (nrows Ae1) (ncols Ae2) in
      Ae ← block22 Ae2 (mneg Ae2) Z_Ae Ae1;
      be2 ← array_of (P_be P2);
      be1 ← array_of (P_be P1);
      be ← vstack be2 be1;
      Ok (Polytope_H A b (Some Ae) (Some be))
  | Some Ae1, None =>
      (* Only P1 has equality constraints *)
      let Z_Ae := zeros (nrows Ae1) n in
      Ae ← hstack Z_Ae Ae1;
      Ok (Polytope_H A b (Some Ae) (P_be P1))
  | None, Some Ae2 =>
      (* Only P2 has equality constraints *)
      let Z_Ae := zeros (nrows Ae2) n in
      Ae ← hstack Ae2 Z_Ae;
      Ok (Polytope_H A b (Some Ae) (P_be P2))
  | None, None =>
      (* No equality constraints *)
      Ok (Polytope_H A b None None)
  end.

(** The body of the inner loop of [_aux_plus_Vpoly_Vpoly] on the pair
    [(V, idx)]: [V[:, idx] = V1[:, j] + V2[:, i]; idx += 1]. *)
Definition add_vertex (V1 V2 : mat Q) (i j : nat) (st : mat Q * nat)
  : res (mat Q * nat) :=
  let '(V, idx) := st in
  v ← vadd (col V1 j) (col V2 i);
  V ← set_col V idx v;
  Ok (V, idx + 1).

(** The two nested loops: [for i in range(num_v2): for j in range(num_v1)]. *)
Definition sum_vertices (V1 V2 : mat Q) (st : mat Q * nat) : res (mat Q * nat) :=
  for_each (fun i => for_each (add_vertex V1 V2 i) (seq 0 (ncols V1)))
           (seq 0 (ncols V2)) st.

Definition _aux_plus_Vpoly_Vpoly (P1 P2 : Polytope) (n : nat) : res Polytope :=
  V1 ← shaped (P_V P1);
  V2 ← shaped (P_V P2);
  let num_v1 := ncols V1 in
  let num_v2 := ncols V2 in
  let V := zeros n (num_v1 * num_v2) in
  let idx := 0 in
  '(V, idx) ← sum_vertices V1 V2 (V, idx);
  Ok (Polytope_V V).

(** The set kinds [plus] asks [representsa] about. *)
Inductive set_kind := fullspace | emptySet | origin.

(** Modelled from the spec: [Polytope.Inf(n)], the unconstrained space in
    dimension [n], and [Polytope.empty(n)], the canonical empty set with
    the single row [0·x <= -1].  Their sources ([Inf.py], [empty.py] of the
    polytope class) are not among those followed here; the unit test of
    [empty] fixes its [A] and [b]. *)
Definition Polytope_Inf (n : nat) : Polytope :=
  Polytope_H (zeros 0 n) (zeros 0 1) None None.

Definition Polytope_empty (n : nat) : Polytope :=
  Polytope_H (zeros 1 n) (Mat 1 1 [[(-1)%Q]]) None None.

Section Plus.

(** Methods and functions of the repository that [plus] calls; their
    sources are not among those followed here, so they are parameters. *)
Variable dim : Polytope -> nat.                             (* P.dim() *)
Variable representsa : Polytope -> set_kind -> Q -> bool.   (* P.representsa(kind, tol) *)
Variable project : Polytope -> list nat -> res Polytope.    (* project(P, dims) *)
Variable constraints : Polytope -> res Polytope.            (* constraints(P) *)

(** Modelled from the spec: [equal_dim_check], which raises on operands of
    different ambient dimension. *)
Definition equal_dim_check (p1 p2 : Polytope) : res unit :=
  if Nat.eqb (dim p1) (dim p2) then Ok tt
  else Raise (CORAerror "CORA:dimensionMismatch").

Definition _aux_plus_Hpoly_Hpoly (P1 P2 : Polytope) (n : nat) : res Polytope :=
  P_highdim ← lifted_Hpoly P1 P2 n;
  project P_highdim (seq 1 n).

Definition _aux_setproperties (P_out P Sx : Polytope) : Polytope := P_out.

(** [plus] on two polytopes.  [reorder] and the precedence test concern
    operands of different classes and leave two polytopes as they are;
    the branches for a numeric or non-polytope second operand are not part
    of this model.  [representsa] is a query here: where the source lets it
    fill the cache of its operand, the object it is asked about stays the
    same Python object, and the representation flags are read before it
    runs, as in the source. *)
Definition plus (p1 p2 : Polytope) : res Polytope :=
  _ ← equal_dim_check p1 p2;
  let n := dim p1 in
  let tol := 1e-10%Q in
  let has_v1_orig := P_isVRep p1 in
  let has_v2_orig := P_isVRep p2 in
  let has_h1_orig := P_isHRep p1 in
  let has_h2_orig := P_isHRep p2 in
  if representsa p1 fullspace tol || representsa p2 fullspace tol
  then Ok (Polytope_Inf n)
  else if representsa p1 emptySet tol || representsa p2 emptySet tol
  then Ok (Polytope_empty n)
  else if representsa p1 origin tol then Ok p2
  else if representsa p2 origin tol then Ok p1
  else
    s_out ←
      (if has_v1_orig && has_v2_orig then _aux_plus_Vpoly_Vpoly p1 p2 n
       else if has_h1_orig && has_h2_orig then _aux_plus_Hpoly_Hpoly p1 p2 n
       else
         p1_H ← constraints p1;
         p2_H ← constraints p2;
         _aux_plus_Hpoly_Hpoly p1_H p2_H n);
    Ok (_aux_setproperties s_out p1 p2).

End Plus.

(** *** private/priv_box_H.py *)

Inductive support_type := upper | lower.

(** Modelled from the spec: [unitvector(i, n)], the [i]-th standard basis
    direction of dimension [n] as a column, counted from 1. *)
Definition unitvector (i n : nat) : mat Q :=
  Mat n 1 (map (fun k => [if Nat.eqb (k + 1) i then 1%Q else 0%Q]) (seq 0 n)).

(** [np.full((n, 1), x)] *)
Definition full_col (n : nat) (x : xfloat) : mat xfloat := Mat n 1 (replicate n [x]).

(** [M[i, 0] = x] and [M[i, 0]] *)
Definition set_entry0 (M : mat xfloat) (i : nat) (x : xfloat) : mat xfloat :=
  Mat (nrows M) (ncols M) (alter (fun r => <[0 := x]> r) i (rows M)).

Definition entry0 (M : mat xfloat) (i : nat) : xfloat := nth 0 (nth i (rows M) []) PInf.

(** [-M] on an array that may hold infinities *)
Definition xmneg (M : mat xfloat) : mat xfloat :=
  Mat (nrows M) (ncols M) (map (map xneg) (rows M)).

Section BoxH.

(** The second component of what [priv_supportFunc] returns; it is not used. *)
Variable support_vector : Type.

(** [priv_supportFunc(A, b, Ae, be, direction, type)], a parameter: its
    source is not among those followed here. *)
Variable priv_supportFunc :
  mat Q -> mat Q -> mat Q -> mat Q -> mat Q -> support_type -> xfloat * support_vector.

(** The loop over the basis vectors on the bounds [(ub, lb)]: either the
    early [return] of the empty result, or the bounds after the last
    iteration. *)
Fixpoint box_loop (A b Ae be : mat Q) (n : nat) (idxs : list nat)
    (ub lb : mat xfloat)
  : (mat Q * mat xfloat * bool) + (mat xfloat * mat xfloat) :=
  match idxs with
  | [] => inr (ub, lb)
  | i :: rest =>
      let e_i := unitvector (i + 1) n in
      (* maximize *)
      let '(ub_val, _) := priv_supportFunc A b Ae be e_i upper in
      let ub := set_entry0 ub i ub_val in
      if is_ninf (entry0 ub i) then
        let empty := true in
        let A_out := empty_rows n in
        let b_out := empty_rows 1 in
        inl (A_out, b_out, empty)
      else
        (* minimize *)
        let '(lb_val, _) := priv_supportFunc A b Ae be e_i lower in
        let lb := set_entry0 lb i lb_val in
        box_loop A b Ae be n rest ub lb
  end.

Definition priv_box_H (A b Ae be : mat Q) (n : nat) : res (mat Q * mat xfloat * bool) :=
  (* init bounds *)
  let ub := full_col n PInf in
  let lb := full_col n NInf in
  match box_loop A b Ae be n (seq 0 n) ub lb with
  | inl early => Ok early
  | inr (ub, lb) =>
      (* construct output arguments *)
      A_out ← vstack (eye n) (mneg (eye n));
      b_out ← vstack ub (xmneg lb);
      let empty := false in
      Ok (A_out, b_out, empty)
  end.

End BoxH.

(** ** Zonotopes *)

(** The attributes of a [Zonotope] object: the center [Z.c] and the
    generator matrix [Z.G]. *)
Record Zonotope := mkZonotope {
  Z_precedence : Z;
  Z_c : ndarray;
  Z_G : mat Q
}.

(** A Python value passed where the source checks its type at run time. *)
Inductive pyval :=
| PyNone
| PyBool (b : bool)
| PyInt (z : Z)
| PyFloat (q : Q)
| PyStr (s : string)
| PyList (zs : list Zonotope).

(** [isinstance(v, int)]: Python's [bool] is a subclass of [int]. *)
Definition as_int (v : pyval) : option Z :=
  match v with
  | PyInt z => Some z
  | PyBool b => Some (if b then 1%Z else 0%Z)
  | _ => None
  end.

(** [isinstance(v, (int, float))], with the value of [v] as a number. *)
Definition as_number (v : pyval) : option Q :=
  match v with
  | PyFloat q => Some q
  | _ => inject_Z <$> as_int v
  end.

(** *** zonotope/empty.py *)

(** A boolean passes the test [isinstance(n, int)] and is not negative;
    [np.zeros] refuses it as a dimension.  The arrays are built for every
    other [n] that is not negative: the size numpy can give an array is
    outside the model. *)
Definition empty (n : pyval) : res Zonotope :=
  match as_int n with
  | Some d =>
      if (d <? 0)%Z then Raise (CORAerror "CORA:wrongInputInConstructor")
      else
        match n with
        | PyBool _ => Raise TypeError
        | _ =>
            Ok {| Z_precedence := 110;
                  Z_c := Arr2 (zeros (Z.to_nat d) 0);
                  Z_G := zeros (Z.to_nat d) 0 |}
        end
  | None => Raise (CORAerror "CORA:wrongInputInConstructor")
  end.

(** [a.shape], for an array of either rank *)
Definition shape (a : ndarray) : list nat :=
  match a with
  | Arr1 v => [length v]
  | Arr2 M => [nrows M; ncols M]
  end.

(** Modelled from the spec: [Z.dim()], the number of rows of the center
    (the source has this for constrained zonotopes in [conZonotope/dim.py]:
    [c.shape[0]]). *)
Definition Z_dim (Z : Zonotope) : nat := nth 0 (shape (Z_c Z)) 0.

(** Modelled from the spec: the accessors [Z.center()] and
    [Z.generators()], which return the stored center and generator matrix,
    and the constructor [Zonotope(c, G)], which keeps what it is given. *)
Definition Z_center (Z : Zonotope) : ndarray := Z_c Z.
Definition Z_generators (Z : Zonotope) : mat Q := Z_G Z.
Definition Zonotope_cG (c : ndarray) (G : mat Q) : Zonotope := mkZonotope 110 c G.

(** *** private/priv_andAveraging.py *)

(** [M.T] *)
Definition transpose (M : mat Q) : mat Q :=
  Mat (ncols M) (nrows M) (map (col M) (seq 0 (ncols M))).

Definition qsum (l : list Q) : Q := foldr Qplus 0%Q l.

(** [np.trace(M)] *)
Definition trace (M : mat Q) : Q :=
  qsum (map (fun i => get M i i) (seq 0 (Nat.min (nrows M) (ncols M)))).

(** [w * M] and [M / w] for a scalar [w] *)
Definition mscale (w : Q) (M : mat Q) : mat Q :=
  Mat (nrows M) (ncols M) (map (map (Qmult w)) (rows M)).

Definition mdiv (M : mat Q) (w : Q) : res (mat Q) :=
  if Qeq_bool w 0 then Raise NotFinite
  else Ok (Mat (nrows M) (ncols M) (map (map (fun x => x / w)%Q) (rows M))).

Definition nd_scale (w : Q) (a : ndarray) : ndarray :=
  match a with
  | Arr1 v => Arr1 (map (Qmult w) v)
  | Arr2 M => Arr2 (mscale w M)
  end.

Definition nd_div (a : ndarray) (w : Q) : res ndarray :=
  match a with
  | Arr1 v => if Qeq_bool w 0 then Raise NotFinite else Ok (Arr1 (map (fun x => x / w)%Q v))
  | Arr2 M => Arr2 <$> mdiv M w
  end.

(** [a + b] with broadcasting: next to a two-dimensional array, a
    one-dimensional array of length [k] counts as a row of shape [(1, k)]. *)
Definition nd_add (a b : ndarray) : res ndarray :=
  match a, b with
  | Arr1 u, Arr1 v => Arr1 <$> vadd u v
  | Arr1 u, Arr2 N => Arr2 <$> madd (Mat 1 (length u) [u]) N
  | Arr2 M, Arr1 v => Arr2 <$> madd M (Mat 1 (length v) [v])
  | Arr2 M, Arr2 N => Arr2 <$> madd M N
  end.

(** [l[i]] *)
Definition index {T} (l : list T) (i : nat) : res T :=
  match l !! i with Some x => Ok x | None => Raise IndexError end.

Definition _catWeighted (zonolist : list Zonotope) (w : list Q) : res (ndarray * mat Q) :=
  first ← index zonolist 0;
  let n := Z_dim first in
  let c := Arr1 (replicate n 0%Q) in
  let G := zeros n 0 in
  '(c, G) ← for_enumerate (fun i Zi '(c, G) =>
      let G_i := Z_generators Zi in
      let c_i := Z_center Zi in
      w_i ← index w i;
      G ← hstack G (mscale w_i G_i);
      c ← nd_add c (nd_scale w_i c_i);
      Ok (c, G)) 0 zonolist (c, G);
  (* Normalize by sum of weights *)
  let w_sum := qsum w in
  c ← nd_div c w_sum;
  G ← mdiv G w_sum;
  Ok (c, G).

(** The analytical weights of the [normGen] method. *)
Definition closed_form_weights (Z_cell : list Zonotope) (sumofw : Q) : res (list Q) :=
  tVec ← mapM (fun Zi => let G := Z_generators Zi in trace <$> matmul G (transpose G)) Z_cell;
  inv ← mapM (qdiv 1) tVec;
  let inv_tVecSum := qsum inv in
  mapM (fun t => qdiv sumofw (t * inv_tVecSum)) tVec.

Section Averaging.

(** Library and repository functions used by the numerical branch:
    [np.linalg.norm(G, 'fro')], [Z.radius()], [Z.volume_()] and
    [scipy.optimize.minimize(objective, w0, method='BFGS').x]. *)
Variable norm_fro : mat Q -> Q.
Variable radius : Zonotope -> Q.
Variable volume_ : Zonotope -> Q.
Variable minimize : (list Q -> res Q) -> list Q -> res (list Q).

Definition is_method (method : pyval) (name : string) : bool :=
  match method with PyStr s => String.eqb s name | _ => false end.

Definition objective (Z_cell : list Zonotope) (method : pyval) (w : list Q) : res Q :=
  '(c, G) ← _catWeighted Z_cell w;
  if is_method method "normGen" then Ok (norm_fro G)
  else if is_method method "radius" then Ok (radius (Zonotope_cG c G))
  else Ok (volume_ (Zonotope_cG c G)).

Definition priv_andAveraging (Z_cell method closedform sumofw : pyval) : res Zonotope :=
  (* Set default values *)
  let method := match method with PyNone => PyStr "normGen" | _ => method end in
  let closedform := match closedform with PyNone => PyBool true | _ => closedform end in
  let sumofw := match sumofw with PyNone => PyFloat 1 | _ => sumofw end in
  (* Input validation *)
  match Z_cell with
  | PyList (first :: others) =>
      let Z_cell := first :: others in
      if negb (is_method method "normGen" || is_method method "radius"
               || is_method method "volume")
      then Raise ValueError
      else
        match closedform with
        | PyBool closedform =>
            match as_number sumofw with
            | Some sumofw =>
                if Qltb sumofw 0 then Raise ValueError
                else
                  (* Compute weighting factors *)
                  w ← (if is_method method "normGen" && closedform
                       then closed_form_weights Z_cell sumofw
                       else
                         let n := length Z_cell in
                         let w0 := replicate n (1 / inject_Z (Z.of_nat n))%Q in
                         minimize (objective Z_cell method) w0);
                  (* Compute final zonotope *)
                  '(c, G) ← _catWeighted Z_cell w;
                  Ok (Zonotope_cG c G)
            | None => Raise ValueError
            end
        | _ => Raise ValueError
        end
  | _ => Raise ValueError
  end.

End Averaging.

(** *** Containment of one point *)

Section ContainsOutcome.

Variable linalg_norm : mat Q -> Q.

(** The inequality test of one iteration on the point [point]: the flag
    after the test and, when the iteration writes a scaling factor, the
    value written. *)
Definition inequality_test (P : Polytope) (A : mat Q) (point : mat Q) (tol : Q)
    (scalingToggle : bool) : res (bool * option xfloat) :=
  if Nat.ltb 0 (nrows A) then
    mv ← max_violation_of A (P_b P) point;
    let c1 := if Qltb tol mv then false else true in
    if scalingToggle then
      s ← scaling_of linalg_norm c1 (P_b P) mv;
      Ok (c1, Some s)
    else Ok (c1, None)
  else Ok (true, None).

(** The equality test, which can only clear the flag [c1]. *)
Definition equality_test (P : Polytope) (point : mat Q) (tol : Q) (c1 : bool)
  : res bool :=
  match P_Ae P with
  | Some Ae =>
      if Nat.ltb 0 (nrows Ae) then
        me ← max_eq_violation_of Ae (P_be P) point;
        Ok (if Qltb tol me then false else c1)
      else Ok c1
  | None => Ok c1
  end.

(** What one iteration of the loop of [_contains_pointcloud] decides for
    point [i]: the flag stored in [results[i]] and, when the iteration
    writes [scaling_factors[i]], the value written. *)
Definition point_outcome (P : Polytope) (A : mat Q) (points : mat Q) (tol : Q)
    (scalingToggle : bool) (i : nat) : res (bool * option xfloat) :=
  let point := col_slice points i in
  '(c1, written) ← inequality_test P A point tol scalingToggle;
  c2 ← equality_test P point tol c1;
  Ok (c2, written).

End ContainsOutcome.

(** The flag and the scaling factor reported for point [i]. *)
Definition flag_at (out : bool_out) (i : nat) : option bool :=
  match out with
  | BScalar r => if Nat.eqb i 0 then Some r else None
  | BArray rs => rs !! i
  end.

Definition scaling_at (out : float_out) (i : nat) : option xfloat :=
  match out with
  | FScalar s => if Nat.eqb i 0 then Some s else None
  | FArray ss => ss !! i
  end.

(** The two tests of the halfspace check, as the specification words
    them: [max(A·p - b) <= tol] and [max|Ae·p - be| <= tol]. *)
Definition ineq_within (A : mat Q) (b : option (mat Q)) (point : mat Q) (tol : Q) : Prop :=
  exists mv, max_violation_of A b point = Ok mv /\ (mv <= tol)%Q.

Definition eq_within (Ae : mat Q) (be : option (mat Q)) (point : mat Q) (tol : Q) : Prop :=
  exists me, max_eq_violation_of Ae be point = Ok me /\ (me <= tol)%Q.


(** The shapes of a query fit: the inequality matrix has one column per
    coordinate of the points and comes with a column of offsets, and so do
    the equality constraints when they are present. *)
Definition shapes_fit (P : Polytope) (A : mat Q) (points : mat Q) : Prop :=
  P_A P = Some A /\ ncols A = nrows points /\
  (0 < nrows A -> exists b, P_b P = Some b /\ nrows b = nrows A /\ ncols b = 1) /\
  (forall Ae, P_Ae P = Some Ae -> 0 < nrows Ae ->
     ncols Ae = nrows points /\
     exists be, P_be P = Some be /\ nrows be = nrows Ae /\ ncols be = 1).

(** *** The vertices of a sum *)

(** The vertex that belongs to column [j] of [V1] and column [i] of [V2]:
    [V1[:, j] + V2[:, i]]. *)
Definition vertex_sum (V1 V2 : mat Q) (i j : nat) : list Q :=
  zip_with Qplus (col V1 j) (col V2 i).

(** *** The bounds of a box *)

Section BoxBounds.

Variable support_vector : Type.
Variable priv_supportFunc :
  mat Q -> mat Q -> mat Q -> mat Q -> mat Q -> support_type -> xfloat * support_vector.

(** The support value of the polytope along the [i]-th basis direction
    (counted from 0, as the loop of [priv_box_H] does). *)
Definition support_along (A b Ae be : mat Q) (n : nat) (type : support_type) (i : nat)
  : xfloat :=
  fst (priv_supportFunc A b Ae be (unitvector (i + 1) n) type).

End BoxBounds.

(** The bound arrays of [priv_box_H] when the first [k] entries are
    written: column arrays of [n] entries, the rest still at [fill]. *)
Definition bounds_upto (n k : nat) (value : nat -> xfloat) (fill : xfloat) : mat xfloat :=
  Mat n 1 (map (fun i => [value i]) (seq 0 k) ++ replicate (n - k) [fill]).

(** *** Arguments of the averaging intersection *)

(** The four argument checks of [priv_andAveraging], each on the argument
    as the caller passes it ([None] stands for the default). *)
Definition is_nonempty_list (Z_cell : pyval) : bool :=
  match Z_cell with PyList (_ :: _) => true | _ => false end.

Definition is_known_method (method : pyval) : bool :=
  match method with
  | PyNone => true
  | PyStr s => String.eqb s "normGen" || String.eqb s "radius" || String.eqb s "volume"
  | _ => false
  end.

Definition is_boolean (closedform : pyval) : bool :=
  match closedform with PyNone | PyBool _ => true | _ => false end.

Definition is_nonnegative_number (sumofw : pyval) : bool :=
  match sumofw with
  | PyNone => true
  | _ => match as_number sumofw with
         | Some q => negb (Qltb q 0)
         | None => false
         end
  end.

(** *** Generator energy and the points of a zonotope *)

(** [G @ G.T], the array [matmul] returns for it, and the energy
    [trace(G @ G.T)] of the generators. *)
Definition gram (G : mat Q) : mat Q :=
  Mat (nrows G) (nrows G)
      (map (fun r => map (fun j => dot r (col (transpose G) j)) (seq 0 (nrows G))) (rows G)).

Definition generator_energy (G : mat Q) : Q := trace (gram G).

(** Modelled from the spec: the set a zonotope with center vector [c] and
    generator matrix [G] represents, [{c + G·β : β ∈ [-1,1]^g}]. *)
Definition zonotope_point (c : list Q) (G : mat Q) (beta : list Q) : list Q :=
  zip_with Qplus c (map (fun r => dot r beta) (rows G)).

Definition in_zonotope (c : list Q) (G : mat Q) (x : list Q) : Prop :=
  exists beta, length beta = ncols G /\
    Forall (fun t => (-1 <= t)%Q /\ (t <= 1)%Q) beta /\
    Forall2 Qeq x (zonotope_point c G beta).

(** ** Worked inputs *)

(** A computable stand-in for [np.linalg.norm] on which the examples run:
    the root of the sum of squares wherever that root is rational (integer
    roots of numerator and denominator of the reduced sum), rounded down
    elsewhere. *)
Definition sqrt_rat (q : Q) : Q :=
  let r := Qred q in Z.sqrt (Qnum r) # Pos.sqrt (Qden r).

Definition norm_rat (M : mat Q) : Q :=
  sqrt_rat (qsum (map (fun x => x * x)%Q (concat (rows M)))).

(** The segment [x <= 3, -x <= 4] of the line. *)
Definition segment_A : mat Q := Mat 2 1 [[1%Q]; [(-1)%Q]].
Definition segment_b : mat Q := Mat 2 1 [[3%Q]; [4%Q]].
Definition segment : Polytope := Polytope_H segment_A segment_b None None.

(** Three query points as the columns of one array. *)
Definition three_points : ndarray := Arr2 (Mat 1 3 [[(1 # 2)%Q; 0%Q; 5%Q]]).

(** A set object whose [vertices] method raises and whose [center] is the
    origin of the line. *)
Definition failing_vertices : set_object :=
  mkSetObject (Some (Raise (CORAerror "CORA:notSupported")))
              (Some (Ok (Some (Arr1 [0%Q])))).

(** Modelled from the spec: [P.dim()], the ambient dimension read off the
    shapes: the rows of [V], else the columns of [A]. *)
Definition dim_of (P : Polytope) : nat :=
  match P_V P, P_A P with
  | Some V, _ => nrows V
  | None, Some A => ncols A
  | None, None => 0
  end.

(** A stand-in for [representsa] on which the examples run.  It recognises
    the degenerate polytopes by their canonical descriptions only: the full
    space as an H-representation without rows, the empty set as a vertex
    matrix without columns or a row [0·x <= b] with [b < 0], the origin as
    a vertex matrix whose entries are all zero. *)
Definition representsa_canonical (P : Polytope) (kind : set_kind) (tol : Q) : bool :=
  match kind with
  | fullspace =>
      match P_A P, P_Ae P with
      | Some A, None => Nat.eqb (nrows A) 0
      | _, _ => false
      end
  | emptySet =>
      match P_V P, P_A P, P_b P with
      | Some V, _, _ => Nat.eqb (ncols V) 0
      | None, Some A, Some b =>
          existsb (fun '(r, br) => forallb (Qeq_bool 0) r && forallb (fun x => Qltb x 0) br)
                  (zip (rows A) (rows b))
      | _, _, _ => false
      end
  | origin =>
      match P_V P with
      | Some V => Nat.ltb 0 (ncols V) && forallb (forallb (Qeq_bool 0)) (rows V)
      | None => false
      end
  end.

(** Stand-ins for [project] and [constraints] where an example does not
    reach them. *)
Definition project_unused (P : Polytope) (dims : list nat) : res Polytope :=
  Raise (CORAerror "CORA:notSupported").
Definition constraints_unused (P : Polytope) : res Polytope :=
  Raise (CORAerror "CORA:notSupported").

(** Two vertex polytopes of the plane, with two and with three vertices,
    and the origin of the line as a vertex polytope. *)
Definition two_vertices : mat Q := Mat 2 2 [[0%Q; 1%Q]; [0%Q; 2%Q]].
Definition three_vertices : mat Q := Mat 2 3 [[10%Q; 20%Q; 30%Q]; [40%Q; 50%Q; 60%Q]].
Definition origin_of_line : Polytope := Polytope_V (Mat 1 1 [[0%Q]]).

(** Support functions for two examples: the unit box, with value 1 in
    every upper and -1 in every lower direction, and an infeasible system,
    which answers with the sentinels [-inf] and [+inf]. *)
Definition support_unit_box (A b Ae be direction : mat Q) (type : support_type)
  : xfloat * unit :=
  (match type with upper => Fin 1 | lower => Fin (-1) end, tt).

Definition support_infeasible (A b Ae be direction : mat Q) (type : support_type)
  : xfloat * unit :=
  (match type with upper => NInf | lower => PInf end, tt).

(** Stand-ins for the functions of the numerical branch of
    [priv_andAveraging], which the examples do not reach. *)
Definition norm_unused (G : mat Q) : Q := 0%Q.
Definition measure_unused (Zo : Zonotope) : Q := 0%Q.
Definition minimize_unused (f : list Q -> res Q) (w0 : list Q) : res (list Q) := Ok w0.

(** The zonotope with center [(1, 2)] and the two unit generators of the
    plane, once with the center stored as a column of shape [(2, 1)] and
    once as a one-dimensional array. *)
Definition unit_generators : mat Q := Mat 2 2 [[1%Q; 0%Q]; [0%Q; 1%Q]].
Definition zono_column : Zonotope :=
  mkZonotope 110 (Arr2 (Mat 2 1 [[1%Q]; [2%Q]])) unit_generators.
Definition zono_flat : Zonotope := mkZonotope 110 (Arr1 [1%Q; 2%Q]) unit_generators.

(** The interval [1 <= x <= 2], without equality constraints, and the
    point 5 given by [x <= 10] together with the equality [x = 5]. *)
Definition interval_1_2 : Polytope :=
  Polytope_H (Mat 2 1 [[1%Q]; [(-1)%Q]]) (Mat 2 1 [[2%Q]; [(-1)%Q]]) None None.

Definition point_5 : Polytope :=
  Polytope_H (Mat 1 1 [[1%Q]]) (Mat 1 1 [[10%Q]])
             (Some (Mat 1 1 [[1%Q]])) (Some (Mat 1 1 [[5%Q]])).

(** Membership of a point in an H-polytope, decided by the containment
    check of the source with tolerance 0. *)
Definition member (P : Polytope) (x : list Q) : Prop :=
  _contains_pointcloud norm_rat P (Arr1 x) "exact" 0 true false
  = Ok (BScalar true, true, FScalar PInf).

Definition non_member (P : Polytope) (x : list Q) : Prop :=
  _contains_pointcloud norm_rat P (Arr1 x) "exact" 0 true false
  = Ok (BScalar false, true, FScalar PInf).

(** ** Reachable sets

    The functions of [g/classes/reachSet].  A list of reachable-set objects
    forms a tree through the [parent] attribute of its members. *)

(** *** children.py *)

(** [children(R_list, parent)].  A member of [R_list] is given by its
    [parent] attribute, [None] for an object without that attribute
    ([hasattr] is false).  The loop appends to [out]. *)
Definition children (R_list : list (option Z)) (parent : Z) : list nat :=
  foldl (fun out i =>
           if negb (Z.of_nat i =? parent)%Z
              && match R_list !! i with
                 | Some (Some p) => (p =? parent)%Z
                 | _ => false
                 end
           then out ++ [i] else out)
        [] (seq 0 (length R_list)).

(** *** Reachable-set objects *)

(** An entry of a list of times, by what the functions below can do with
    it: a number ([int] or [float]); an object with an attribute
    [infimum] (which then also has [supremum]); an object with an
    attribute [inf] and no [infimum]; any other object, which [float()]
    converts or on which it raises. *)
Inductive time_val :=
| TNumber (t : Q)
| TInfimum (infimum supremum : Q)
| TInf (inf : Q)
| TFloatable (t : Q)
| TOpaque.

(** A set stored in a reachable set: an object with a method [project], a
    numeric array, or something else. *)
Inductive set_val (set_obj : Type) :=
| SetObj (s : set_obj)
| SetArray (a : ndarray)
| SetOther (tag : nat).
Arguments SetObj {set_obj} s.
Arguments SetArray {set_obj} a.
Arguments SetOther {set_obj} tag.

(** The dictionaries [R.timePoint] and [R.timeInterval]: a key that is
    absent is [None]. *)
Record time_dict (set_obj : Type) := mkTimeDict {
  d_set : option (list (set_val set_obj));
  d_time : option (list time_val);
  d_error : option (list Q);
  d_algebraic : option (list Q)
}.
Arguments mkTimeDict {set_obj} _ _ _ _.
Arguments d_set {set_obj} _.
Arguments d_time {set_obj} _.
Arguments d_error {set_obj} _.
Arguments d_algebraic {set_obj} _.

(** A [ReachSet] object; an attribute that is [None] in Python is [None]
    here. *)
Record ReachSet (set_obj : Type) := mkReachSet {
  timePoint : option (time_dict set_obj);
  timeInterval : option (time_dict set_obj);
  R_parent : Z;
  R_loc : Z
}.
Arguments mkReachSet {set_obj} _ _ _ _.
Arguments timePoint {set_obj} _.
Arguments timeInterval {set_obj} _.
Arguments R_parent {set_obj} _.
Arguments R_loc {set_obj} _.

(** *** timeStepSize.py *)

(** [np.diff(l)] *)
Fixpoint np_diff (l : list Q) : list Q :=
  match l with
  | a :: (b :: _) as rest => (b - a)%Q :: np_diff rest
  | _ => []
  end.

(** What [timeStepSize] returns as [dt]: a scalar or an array. *)
Inductive dt_out :=
| DtScalar (d : Q)
| DtArray (ds : list Q).

(** The times the loop works on: [None] when the object is skipped
    ([timePoint] is empty, has no key ['time'], or the list is empty). *)
Definition point_times {set_obj} (R_obj : ReachSet set_obj) : option (list time_val) :=
  match timePoint R_obj with
  | None => None
  | Some d =>
      match d_time d with
      | None | Some [] => None
      | Some times => Some times
      end
  end.

(** One iteration of the loop over the times, on [numeric_times] and
    [hybrid]. *)
Definition numeric_step (st : list Q * bool) (time_val : time_val) : list Q * bool :=
  let '(numeric_times, hybrid) := st in
  match time_val with
  | TNumber t => (numeric_times ++ [t], hybrid)
  | TInfimum t _ => (numeric_times ++ [t], true)
  | TInf t => (numeric_times ++ [t], true)
  | TFloatable t => (numeric_times ++ [t], hybrid)
  | TOpaque => (numeric_times, hybrid)
  end.

(** One iteration of the loop over the objects, on [dt] and [hybrid]. *)
Definition object_step {set_obj} (st : list Q * bool) (R_obj : ReachSet set_obj)
  : list Q * bool :=
  let '(dt, hybrid) := st in
  match point_times R_obj with
  | None => (dt, hybrid)
  | Some times =>
      let '(numeric_times, hybrid) := foldl numeric_step ([], hybrid) times in
      if Nat.ltb 1 (length numeric_times)
      then (dt ++ np_diff numeric_times, hybrid)
      else (dt, hybrid)
  end.

(** [timeStepSize(R)] for a list of objects; a single object [R] stands
    for the list [[R]]. *)
Definition timeStepSize {set_obj} (R_list : list (ReachSet set_obj))
  : dt_out * bool * bool :=
  let '(dt, hybrid) := foldl object_step ([], false) R_list in
  (* check if time step is uniform *)
  if Nat.ltb 0 (length dt) && forallb (fun d => Qltb (Qabs d) 1e-10) (np_diff dt)
  then (DtScalar (nth 0 dt 0%Q), true, hybrid)
  else (DtArray dt, false, hybrid).


Definition reach_at (times : list time_val) : ReachSet unit :=
  mkReachSet (Some (mkTimeDict None (Some times) None None)) None 0 0.

(** An entry of a list of times that stands for an interval. *)
Definition is_interval_time (tv : time_val) : bool :=
  match tv with TInfimum _ _ | TInf _ => true | _ => false end.


(** An object that is not skipped and has an interval among its times. *)
Definition has_interval_times {set_obj} (R_obj : ReachSet set_obj) : bool :=
  match point_times R_obj with
  | Some times => existsb is_interval_time times
  | None => false
  end.

(** *** updateTime.py *)

(** The argument [time]: a list or array of numbers, or something else. *)
Inductive time_arg :=
| TimeList (time : list Q)
| TimeOther.

Section UpdateTime.

Context {set_obj : Type}.

(** The constructor [Interval(lower, upper)] of the repository, whose
    source is not among those followed here. *)
Variable Interval : Q -> Q -> time_val.

(** [R_obj.timePoint['time'] = list(time)], after the length check. *)
Definition update_point (time : list Q) (R_obj : ReachSet set_obj)
  : res (ReachSet set_obj) :=
  match timePoint R_obj with
  | Some d =>
      match d_time d with
      | Some old =>
          if Nat.eqb (length time) (length old)
          then Ok (mkReachSet
                     (Some (mkTimeDict (d_set d) (Some (map TNumber time))
                                       (d_error d) (d_algebraic d)))
                     (timeInterval R_obj) (R_parent R_obj) (R_loc R_obj))
          else Raise ValueError
      | None => Ok R_obj
      end
  | None => Ok R_obj
  end.

(** The loop over the time intervals: entry [j] keeps its width when it
    has the attribute [infimum], and becomes the number [time[j]]
    otherwise. *)
Definition update_entry (time : list Q) (entries : list time_val) (j : nat)
  : list time_val :=
  match entries !! j with
  | Some (TInfimum infimum supremum) =>
      let width := (supremum - infimum)%Q in
      <[j := Interval (nth j time 0%Q) (nth j time 0 + width)%Q]> entries
  | _ => <[j := TNumber (nth j time 0%Q)]> entries
  end.

Definition update_interval (time : list Q) (R_obj : ReachSet set_obj) : ReachSet set_obj :=
  match timeInterval R_obj with
  | Some d =>
      match d_time d with
      | Some (first :: others) =>
          let old := first :: others in
          if Nat.leb (length old) (length time)
          then mkReachSet (timePoint R_obj)
                 (Some (mkTimeDict (d_set d)
                          (Some (foldl (update_entry time) old (seq 0 (length old))))
                          (d_error d) (d_algebraic d)))
                 (R_parent R_obj) (R_loc R_obj)
          else R_obj
      | _ => R_obj
      end
  | None => R_obj
  end.

(** The loop over the objects, which are updated in place: [updated] are
    the objects already gone through, [todo] those to come.  When an
    iteration raises, the objects before it stay updated. *)
Fixpoint update_loop (time : list Q) (updated todo : list (ReachSet set_obj))
  : list (ReachSet set_obj) * res unit :=
  match todo with
  | [] => (updated, Ok tt)
  | R_obj :: rest =>
      match update_point time R_obj with
      | Ok R1 => update_loop time (updated ++ [update_interval time R1]) rest
      | Raise e => (updated ++ R_obj :: rest, Raise e)
      end
  end.

(** [updateTime(R, time)] on a list of objects (a single object stands for
    the list of that object): the objects after the call, and whether the
    call returned. *)
Definition updateTime (R_list : list (ReachSet set_obj)) (time : time_arg)
  : list (ReachSet set_obj) * res unit :=
  match time with
  | TimeOther => (R_list, Raise ValueError)
  | TimeList time => update_loop time [] R_list
  end.

End UpdateTime.

(** The list under [timePoint['time']], if there is one. *)
Definition raw_times {set_obj} (R_obj : ReachSet set_obj) : option (list time_val) :=
  match timePoint R_obj with
  | Some d => d_time d
  | None => None
  end.

(** An object fits a time vector when its time points, if it has any, are
    as many as the new times. *)
Definition fits_times {set_obj} (time : list Q) (R_obj : ReachSet set_obj) : bool :=
  match raw_times R_obj with
  | Some old => Nat.eqb (length time) (length old)
  | None => true
  end.

(** A stand-in for the constructor [Interval] on which the examples run. *)
Definition Interval_of_bounds (lower upper : Q) : time_val := TInfimum lower upper.

(** An object after its iteration of the loop of [updateTime], when the
    iteration does not raise. *)
Definition refreshed {set_obj} (Interval : Q -> Q -> time_val) (time : list Q)
    (R_obj : ReachSet set_obj) : ReachSet set_obj :=
  update_interval Interval time
    (match update_point time R_obj with Ok R1 => R1 | Raise _ => R_obj end).

(** The time points an object has after a successful update. *)
Definition new_point_times {set_obj} (time : list Q) (R_obj : ReachSet set_obj)
  : option (list time_val) :=
  match raw_times R_obj with
  | Some _ => Some (map TNumber time)
  | None => None
  end.

(** The list under [timeInterval['time']], if there is one, and the entry
    that replaces entry [j] of it: an interval of the old width that
    starts at [time[j]], or the number [time[j]]. *)
Definition raw_interval_times {set_obj} (R_obj : ReachSet set_obj)
  : option (list time_val) :=
  match timeInterval R_obj with
  | Some d => d_time d
  | None => None
  end.

Definition new_entry (Interval : Q -> Q -> time_val) (time : list Q) (j : nat)
    (tv : time_val) : time_val :=
  match tv with
  | TInfimum infimum supremum =>
      Interval (nth j time 0%Q) (nth j time 0 + (supremum - infimum))%Q
  | _ => TNumber (nth j time 0%Q)
  end.

(** An object with the time points [0, 1] and two time intervals: one
    with the attribute [infimum], one with the attribute [inf]. *)
Definition reach_with_intervals : ReachSet unit :=
  mkReachSet (Some (mkTimeDict None (Some [TNumber 0; TNumber 1]) None None))
             (Some (mkTimeDict None (Some [TInfimum 0 1; TInf 1]) None None))
             0 0.

(** *** project.py *)

(** The argument [dims]: a string, an integer, a list (or tuple or array)
    of entries, or something else; an entry is an integer or not.  Python's
    booleans are not part of this model. *)
Inductive dim_entry :=
| DimInt (d : Z)
| DimOther.

Inductive dims_arg :=
| DimsStr (s : string)
| DimsInt (d : Z)
| DimsList (ds : list dim_entry)
| DimsOther.

(** The checks on one entry of [dims]. *)
Definition check_dim (entry : dim_entry) : res Z :=
  match entry with
  | DimOther => Raise TypeError
  | DimInt d => if (d <? 0)%Z then Raise ValueError else Ok d
  end.

(** The validation of [dims]. *)
Definition validate_dims (dims : dims_arg) : res (list Z) :=
  match dims with
  | DimsStr _ => Raise TypeError
  | DimsOther => Raise TypeError
  | DimsInt d => mapM check_dim [DimInt d]
  | DimsList ds => mapM check_dim ds
  end.

(** [l[dims]] with a list of indices that are not negative: numpy raises
    [IndexError] for an index out of range. *)
Definition select {T} (l : list T) (dims : list Z) : res (list T) :=
  mapM (fun d => index l (Z.to_nat d)) dims.

Module reachSet.

Section Project.

Context {set_obj : Type}.

(** The method [project] of a set object, whose source is not among those
    followed here. *)
Variable set_project : set_obj -> list Z -> res set_obj.

(** The projection of one stored set: [s.project(dims)], [s[dims]] for a
    one-dimensional array, [s[dims, :]] for a two-dimensional one, and
    [s] itself otherwise. *)
Definition project_set (dims : list Z) (s : set_val set_obj) : res (set_val set_obj) :=
  match s with
  | SetObj s => SetObj <$> set_project s dims
  | SetArray (Arr1 v) => (fun v' => SetArray (Arr1 v')) <$> select v dims
  | SetArray (Arr2 M) =>
      (fun rs => SetArray (Arr2 (Mat (length dims) (ncols M) rs))) <$> select (rows M) dims
  | SetOther tag => Ok (SetOther tag)
  end.

(** The projected dictionary: empty without the key ['set']; else the
    projected sets and copies of the other fields ([algebraic] only for
    the time intervals). *)
Definition project_dict (with_algebraic : bool) (dims : list Z) (d : time_dict set_obj)
  : res (time_dict set_obj) :=
  match d_set d with
  | None => Ok (mkTimeDict None None None None)
  | Some sets =>
      sets' ← mapM (project_set dims) sets;
      Ok (mkTimeDict (Some sets') (d_time d) (d_error d)
                     (if with_algebraic then d_algebraic d else None))
  end.

(** [project(R, dims)].  The constructor [ReachSet] is taken to keep the
    four arguments it is given.  On an attribute [timePoint] or
    [timeInterval] that is [None] the test ['set' in ...] raises. *)
Definition project (R : ReachSet set_obj) (dims : dims_arg) : res (ReachSet set_obj) :=
  (* Validate inputs *)
  dims ← validate_dims dims;
  (* Project time-point sets *)
  tp ← match timePoint R with Some d => Ok d | None => Raise TypeError end;
  projected_timePoint ← project_dict false dims tp;
  (* Project time-interval sets *)
  ti ← match timeInterval R with Some d => Ok d | None => Raise TypeError end;
  projected_timeInterval ← project_dict true dims ti;
  Ok (mkReachSet (Some projected_timePoint) (Some projected_timeInterval)
                 (R_parent R) (R_loc R)).

End Project.

End reachSet.

(** The rows [dims] of a two-dimensional array, as a new array, and a
    stored set that is such an array. *)
Definition selected_rows (dims : list Z) (M : mat Q) : mat Q :=
  Mat (length dims) (ncols M) (map (fun d => nth (Z.to_nat d) (rows M) []) dims).

Definition array_set (M : mat Q) : set_val unit := SetArray (Arr2 M).

(** A stand-in for the method [project] of set objects where an example
    has none. *)
Definition set_project_unused (s : unit) (dims : list Z) : res unit :=
  Raise (CORAerror "CORA:notSupported").

(** [dims] are indices into [n] rows. *)
Definition in_range (n : nat) (dims : list Z) : Prop :=
  Forall (fun d => (0 <= d < Z.of_nat n)%Z) dims.

(** The indices that selecting [dims2] out of a selection by [dims1]
    amounts to. *)
Definition compose_dims (dims1 dims2 : list Z) : list Z :=
  map (fun d => nth (Z.to_nat d) dims1 0%Z) dims2.

(** *** Row-wise reading of the halfspace check *)

(** Point [p] satisfies every inequality row [A[k,:]·p <= b[k]] within
    [tol], and every equality row [|Ae[k,:]·p - be[k]| <= tol]. *)
Definition satisfies_rows (A b : mat Q) (p : list Q) (tol : Q) : Prop :=
  forall k, k < nrows A -> (dot (nth k (rows A) []) p - get b k 0 <= tol)%Q.

Definition satisfies_eq_rows (Ae be : mat Q) (p : list Q) (tol : Q) : Prop :=
  forall k, k < nrows Ae -> (Qabs (dot (nth k (rows Ae) []) p - get be k 0) <= tol)%Q.

(** *** Weighted centers *)

(** The weighted sum [Σ w[i]·c_i[k]] of coordinate [k] of the centers
    [cs], and the number of generators of a list of zonotopes. *)
Definition weighted_coordinate (w : list Q) (cs : list (list Q)) (k : nat) : Q :=
  qsum (zip_with (fun wi ci => wi * nth k ci 0)%Q w cs).

Definition generator_count (zonolist : list Zonotope) : nat :=
  foldr Nat.add 0 (map (fun Zi => ncols (Z_G Zi)) zonolist).

(** The generator energies [t_i = trace(G_i G_iᵀ)] of a list of zonotopes
    and the sum [Σ 1/t_i] of their inverses. *)
Definition energies (Z_cell : list Zonotope) : list Q :=
  map (fun Zi => generator_energy (Z_G Zi)) Z_cell.

Definition inverse_energy_sum (Z_cell : list Zonotope) : Q :=
  qsum (map (fun t => 1 / t)%Q (energies Z_cell)).

(** A second zonotope of the plane with a one-dimensional center: center
    [(3, 4)] and the single generator [(2, 0)]. *)
Definition zono_flat_line : Zonotope :=
  mkZonotope 110 (Arr1 [3%Q; 4%Q]) (Mat 2 1 [[2%Q]; [0%Q]]).


(** *** plus.py: a polytope and a point *)

Section PlusPoint.

(** [P.dim()], [priv_plus_minus_vector] and [constraints]: their sources
    are not among those followed here, so they are parameters. *)
Variable dim : Polytope -> nat.
Variable priv_plus_minus_vector :
  option (mat Q) -> option (mat Q) -> option (mat Q) -> option (mat Q) -> mat Q ->
  res (mat Q * mat Q * option (mat Q) * option (mat Q)).
Variable constraints : Polytope -> res Polytope.

(** [_aux_plus_poly_point(P, S)] for a two-dimensional array [S] ([plus]
    calls it for arrays of shape [(n, 1)] only).  The attributes [P._A],
    ..., [P._V] the source reads here are the arrays behind [P.A], ...,
    [P.V]. *)
Definition _aux_plus_poly_point (P : Polytope) (Sx : mat Q) : res Polytope :=
  if Nat.ltb 1 (ncols Sx) then Raise (CORAerror "CORA:noops")
  else if negb (Nat.eqb (nrows Sx) (dim P)) then Raise (CORAerror "CORA:notSupported")
  else if P_isHRep P then
    '(A, b, Ae, be) ← priv_plus_minus_vector (P_A P) (P_b P) (P_Ae P) (P_be P) Sx;
    Ok (Polytope_H A b Ae be)
  else if P_isVRep P then
    (* For vertex representation, just add the vector to all vertices *)
    V ← array_of (P_V P);
    V_new ← madd V Sx;
    Ok (Polytope_V V_new)
  else
    P_H ← constraints P;
    '(A, b, Ae, be) ← priv_plus_minus_vector (P_A P_H) (P_b P_H) (P_Ae P_H) (P_be P_H) Sx;
    Ok (Polytope_H A b Ae be).

End PlusPoint.

(** Two arrays of the same shape whose entries are equal as rationals. *)
Definition mat_Qeq (M N : mat Q) : Prop :=
  nrows M = nrows N /\ ncols M = ncols N /\ Forall2 (Forall2 Qeq) (rows M) (rows N).

(** Stand-in for [priv_plus_minus_vector] where an example does not reach it. *)
Definition plus_minus_vector_unused (A b Ae be : option (mat Q)) (v : mat Q)
  : res (mat Q * mat Q * option (mat Q) * option (mat Q)) :=
  Raise (CORAerror "CORA:notSupported").

(** [x - y] on coordinate vectors. *)
Definition vsub (x y : list Q) : list Q := zip_with Qminus x y.

(** *** zonotope/abs_op.py *)

(** [np.abs(a)] for an array of either rank *)
Definition nd_abs (a : ndarray) : ndarray :=
  match a with
  | Arr1 v => Arr1 (map Qabs v)
  | Arr2 M => Arr2 (np_abs M)
  end.

Section AbsOp.

(** [Z.is_empty()], a method of the [Zonotope] class, whose source is not
    among those followed here. *)
Variable is_empty : Zonotope -> bool.

Definition abs_op (Zo : Zonotope) : res Zonotope :=
  (* Handle empty zonotope *)
  if is_empty Zo then empty (PyInt (Z.of_nat (Z_dim Zo)))
  else
    (* Apply absolute value to center and generators *)
    let c_abs := nd_abs (Z_c Zo) in
    let G_abs := np_abs (Z_G Zo) in
    Ok (Zonotope_cG c_abs G_abs).

End AbsOp.

(** The entries of an array. *)
Definition entries (a : ndarray) : list Q :=
  match a with
  | Arr1 v => v
  | Arr2 M => concat (rows M)
  end.

(** A stand-in for [is_empty] on which the examples run: a zonotope is
    empty when its center has no entry. *)
Definition is_empty_by_shape (Zo : Zonotope) : bool :=
  match entries (Z_c Zo) with [] => true | _ => false end.

(** ** Constrained zonotopes *)

(** The attributes of a [ConZonotope] object: center, generators and the
    constraints [A·β = b] on the generator coefficients.
    Modelled from the spec: the constructor [ConZonotope(c, G, A, b)]
    keeps the four arrays it is given ([conZonotope.py] is not among the
    sources followed here). *)
Record ConZonotope := mkConZonotope {
  cZ_c : mat Q;
  cZ_G : mat Q;
  cZ_A : mat Q;
  cZ_b : mat Q
}.

Module conZonotope.

(** *** conZonotope/empty.py *)

(** The arrays are built for every [n]: the size numpy can give an array
    is outside the model. *)
Definition empty (n : Z) : ConZonotope :=
  (* Create empty center and generator matrix *)
  let c := if (0 <? n)%Z then zeros (Z.to_nat n) 1 else zeros 0 1 in
  let G := if (0 <? n)%Z then zeros (Z.to_nat n) 0 else zeros 0 0 in
  let A := zeros 0 0 in
  let b := zeros 0 1 in
  mkConZonotope c G A b.

(** *** conZonotope/dim.py *)
Definition dim (cZ : ConZonotope) : nat := nrows (cZ_c cZ).

End conZonotope.

(** Modelled from the spec: the set a constrained zonotope represents,
    [{c + G·β : A·β = b, β ∈ [-1,1]^g}]. *)
Definition in_conZonotope (cZ : ConZonotope) (x : list Q) : Prop :=
  exists beta, length beta = ncols (cZ_G cZ) /\
    Forall (fun t => (-1 <= t)%Q /\ (t <= 1)%Q) beta /\
    Forall2 (fun r br => (dot r beta == nth 0 br 0)%Q) (rows (cZ_A cZ)) (rows (cZ_b cZ)) /\
    Forall2 Qeq x (zip_with Qplus (col (cZ_c cZ) 0) (map (fun r => dot r beta) (rows (cZ_G cZ)))).

(** *** zonotope/convHull_.py *)

(** An operand of [convHull_]: a zonotope or a numeric array.  Set objects
    of other classes are not part of this model. *)
Inductive hull_operand :=
| HZono (Zo : Zonotope)
| HNumeric (a : ndarray).

(** [_reorder_numeric]: the zonotope goes first. *)
Definition _reorder_numeric (Zx Sx : hull_operand) : hull_operand * hull_operand :=
  match Zx, Sx with
  | HZono _, _ => (Zx, Sx)
  | _, HZono _ => (Sx, Zx)
  | _, _ => (Zx, Sx)
  end.

(** [len(a)], the length of the first axis *)
Definition len (a : ndarray) : nat := nth 0 (shape a) 0.

Section ConvHull.

(** Methods of the [Zonotope] class whose sources are not among those
    followed here: [Z.representsa_(kind, tol)], [Z.enclose(S)],
    [S.convHull(Z, method)] and the constructor [Zonotope(S)] on a numeric
    array.  A zonotope has the methods [dim] and [isemptyobject] and the
    attribute [precedence]; a numeric array has none of them. *)
Variable representsa_ : Zonotope -> set_kind -> Q -> bool.
Variable enclose : Zonotope -> Zonotope -> res Zonotope.
Variable convHull : Zonotope -> Zonotope -> string -> res Zonotope.
Variable Zonotope_of : ndarray -> res Zonotope.

Definition convHull_ (Zx : hull_operand) (Sx : option hull_operand) (method : string)
  : res hull_operand :=
  match Sx with
  | None => Ok Zx   (* Zonotope is already convex *)
  | Some Sx =>
      (* Ensure that numeric is second input argument *)
      let '(Z_out, Sx) := _reorder_numeric Zx Sx in
      (* Check dimensions *)
      _ ← match Sx, Z_out with
          | HZono Sz, HZono Zz =>
              if negb (Nat.eqb (Z_dim Sz) (Z_dim Zz))
              then Raise (CORAerror "CORA:dimensionMismatch") else Ok tt
          | _, _ => Ok tt
          end;
      match Sx, Z_out with
      | HZono Sz, HZono Zz =>
          (* Call function with lower precedence if applicable *)
          if (Z_precedence Sz <? Z_precedence Zz)%Z then HZono <$> convHull Sz Zz method
          (* Convex hull with empty set *)
          else if representsa_ Sz emptySet 1e-15 then Ok Z_out
          else if representsa_ Zz emptySet 1e-15 then Ok Sx
          (* Use enclose method *)
          else HZono <$> enclose Zz Sz
      | HNumeric a, HZono Zz =>
          if representsa_ Zz emptySet 1e-15
          then Ok (HZono (Zonotope_cG a (zeros (len a) 0)))
          else
            (* Convert S to zonotope *)
            S_zono ← Zonotope_of a;
            HZono <$> enclose Zz S_zono
      | HZono Sz, HNumeric _ =>
          if representsa_ Sz emptySet 1e-15 then Ok Z_out else Raise AttributeError
      | HNumeric _, HNumeric _ =>
          (* a numeric array has no method [representsa_] *)
          Raise AttributeError
      end
  end.

End ConvHull.

(** Stand-ins for the methods of the [Zonotope] class on which the
    examples run: only the empty set is recognised, by the shape of the
    center; [enclose] and [convHull] are not reached, and [Zonotope(p)] is
    the point [p] without generators. *)
Definition representsa_by_shape (Zo : Zonotope) (kind : set_kind) (tol : Q) : bool :=
  match kind with emptySet => is_empty_by_shape Zo | _ => false end.

Definition enclose_unused (Zo So : Zonotope) : res Zonotope :=
  Raise (CORAerror "CORA:notSupported").

Definition convHull_unused (So Zo : Zonotope) (method : string) : res Zonotope :=
  Raise (CORAerror "CORA:notSupported").

Definition Zonotope_of_point (a : ndarray) : res Zonotope :=
  Ok (Zonotope_cG a (zeros (len a) 0)).

(** The empty zonotope of the plane, as [empty(2)] builds it. *)
Definition zono_empty_plane : Zonotope :=
  mkZonotope 110 (Arr2 (zeros 2 0)) (zeros 2 0).

(** ** Simulation results *)

(** The attributes of a [SimResult] object that [monitorSTL] reads: the
    list [x] of state trajectories (one array per trajectory, one row per
    time point) and the list [t] of their time vectors.  The times are
    binary64 numbers, for [monitorSTL] compares them. *)
Record SimResult := mkSimResult {
  sr_x : list (mat PrimFloat.float);
  sr_t : list (list PrimFloat.float)
}.

(** What a caller hands to [monitorSTL]: one object, or a Python list of
    objects. *)
Inductive sim_arg :=
| SimOne (s : SimResult)
| SimList (l : list SimResult).

(** *** simResult/monitorSTL.py *)

Section MonitorSTL.
Import PrimFloat.

(** The class of the formulas, and the method [isemptyobject] of
    [SimResult], whose source is not among those followed here. *)
Variable formula : Type.
Variable isemptyobject : SimResult -> bool.

(** The checks on trajectory [j]: [Ok false] is the [return False] of the
    loop body, [Ok true] lets the loop go on. *)
Definition check_trajectory (simRes_i : SimResult) (j : nat) : res bool :=
  t_j ← index (sr_t simRes_i) j;
  if Nat.eqb (length t_j) 0 then Ok false
  else
    x_j ← index (sr_x simRes_i) j;
    if Nat.eqb (nrows x_j) 0 then Ok false
    (* Check time consistency *)
    else if (List.last t_j 0 <=? hd 0 t_j)%float then Ok false
    else Ok true.

(** [for j in range(len(simRes_i.t))], up to the first [return False]. *)
Fixpoint check_trajectories (simRes_i : SimResult) (js : list nat) : res bool :=
  match js with
  | [] => Ok true
  | j :: rest =>
      ok ← check_trajectory simRes_i j;
      if ok : bool then check_trajectories simRes_i rest else Ok false
  end.

(** The loop over the list of simulation results. *)
Fixpoint check_results (simRes_list : list SimResult) : res bool :=
  match simRes_list with
  | [] => Ok true
  | simRes_i :: rest =>
      (* Check if simulation has valid data *)
      match sr_x simRes_i, sr_t simRes_i with
      | _ :: _, _ :: _ =>
          ok ← check_trajectories simRes_i (seq 0 (length (sr_t simRes_i)));
          if ok : bool then check_results rest else Ok false
      | _, _ => Ok false
      end
  end.

(** [monitorSTL(simRes, eq)].  A Python list has no method
    [isemptyobject], and that call comes before the [try]; inside the
    [try] every exception turns into [False]. *)
Definition monitorSTL (simRes : sim_arg) (eq : formula) : res bool :=
  match simRes with
  | SimList _ => Raise AttributeError
  | SimOne s =>
      if isemptyobject s then Ok false
      else
        match check_results [s] with
        | Ok passed => Ok passed
        | Raise _ => Ok false
        end
  end.

End MonitorSTL.

Section Trajectories.
Import PrimFloat.

(** A trajectory that passes the checks of [monitorSTL]: it has states and
    a time vector that is not empty, and its last time is not at most its
    first: it ends after it starts, or one of the two times is NaN. *)
Definition valid_trajectory (s : SimResult) (j : nat) : Prop :=
  exists t_j x_j,
    sr_t s !! j = Some t_j /\ sr_x s !! j = Some x_j /\
    t_j <> [] /\ 0 < nrows x_j /\
    let first := hd 0%float t_j in
    let last := List.last t_j 0%float in
    (first <? last)%float = true \/
    is_nan first = true \/ is_nan last = true.

(** A simulation result with one trajectory of two time points, the
    second of which is NaN, and one whose trajectory ends when it starts. *)
Definition sim_nan_time : SimResult :=
  mkSimResult [Mat 2 1 [[0%float]; [1%float]]] [[0%float; nan]].

Definition sim_standstill : SimResult :=
  mkSimResult [Mat 2 1 [[0%float]; [1%float]]] [[1%float; 1%float]].

End Trajectories.

(** ** The point check on binary64 numbers *)

(** What the point check reports rests on comparisons of computed numbers
    with a tolerance, so it depends on rounding, on infinities and on NaN.
    [Float64] models it on binary64 numbers: Rocq's primitive floats, whose
    operations and comparisons are those of IEEE 754, as numpy's [float64]
    has them.  The entries of a matrix product [A @ B] and
    [np.linalg.norm] are parameters: the library chooses the order of
    their additions. *)
Module Float64.
Import PrimFloat.

(** A numpy array of [float64], one- or two-dimensional. *)
Inductive ndarray :=
| Arr1 (v : list float)
| Arr2 (M : mat float).

(** The attributes of a [Polytope] object that the point check reads. *)
Record Polytope := mkPolytope {
  P_A : option (mat float);
  P_b : option (mat float);
  P_Ae : option (mat float);
  P_be : option (mat float)
}.

(** Arithmetic on [None] raises. *)
Definition array_of (o : option (mat float)) : res (mat float) :=
  match o with Some M => Ok M | None => Raise TypeError end.

(** [M[i, j]], [M[:, j]] and [M[:, i:i+1]] *)
Definition get (M : mat float) (i j : nat) : float := nth j (nth i (rows M) []) 0%float.

Definition col (M : mat float) (j : nat) : list float :=
  map (fun r => nth j r 0%float) (rows M).

Definition col_slice (M : mat float) (i : nat) : mat float :=
  Mat (nrows M) (Nat.min 1 (ncols M - i)) (map (fun r => take 1 (drop i r)) (rows M)).

(** An elementwise operation on two arrays, with broadcasting. *)
Definition bget (M : mat float) (i j : nat) : float :=
  get M (if Nat.eqb (nrows M) 1 then 0 else i) (if Nat.eqb (ncols M) 1 then 0 else j).

Definition broadcast (f : float -> float -> float) (M N : mat float) : res (mat float) :=
  r ← bdim (nrows M) (nrows N);
  c ← bdim (ncols M) (ncols N);
  Ok (Mat r c (map (fun i => map (fun j => f (bget M i j) (bget N i j)) (seq 0 c))
                   (seq 0 r))).

(** [M - N] *)
Definition msub : mat float -> mat float -> res (mat float) := broadcast sub.

(** [np.abs(M)] *)
Definition np_abs (M : mat float) : mat float :=
  Mat (nrows M) (ncols M) (map (map abs) (rows M)).

(** [np.maximum(x, y)] and [np.minimum(x, y)]: a NaN operand is the result. *)
Definition maximum (x y : float) : float :=
  if is_nan x then x else if is_nan y then y else if (x <? y)%float then y else x.

Definition minimum (x y : float) : float :=
  if is_nan x then x else if is_nan y then y else if (y <? x)%float then y else x.

(** [np.max(M)]: numpy raises on an array without entries. *)
Definition np_max (M : mat float) : res float :=
  match concat (rows M) with
  | [] => Raise ValueError
  | x :: l => Ok (foldl maximum x l)
  end.

(** [v.reshape(-1, 1)] of a one-dimensional array *)
Definition reshape_col (v : list float) : mat float :=
  Mat (length v) 1 (map (fun x => [x]) v).

(** [if points.ndim == 1: points = points.reshape(-1, 1)] *)
Definition as_points (points : ndarray) : mat float :=
  match points with Arr1 v => reshape_col v | Arr2 M => M end.

Inductive float_out :=
| FScalar (s : float)
| FArray (ss : list float).

Definition scaling_at (out : float_out) (i : nat) : option float :=
  match out with
  | FScalar s => if Nat.eqb i 0 then Some s else None
  | FArray ss => ss !! i
  end.

Section Contains.

(** [product M N i j] is the entry [(i, j)] of [M @ N] as numpy computes
    it, for arrays whose inner dimensions agree; [linalg_norm] is
    [np.linalg.norm]. *)
Variable product : mat float -> mat float -> nat -> nat -> float.
Variable linalg_norm : mat float -> float.

(** [M @ N]: the inner dimensions must agree. *)
Definition matmul (M N : mat float) : res (mat float) :=
  if Nat.eqb (ncols M) (nrows N)
  then Ok (Mat (nrows M) (ncols N)
             (map (fun i => map (fun j => product M N i j) (seq 0 (ncols N)))
                  (seq 0 (nrows M))))
  else Raise ValueError.

(** [np.max(A @ point - b)] *)
Definition max_violation_of (A : mat float) (b : option (mat float)) (point : mat float)
  : res float :=
  Ap ← matmul A point;
  b ← array_of b;
  violations ← msub Ap b;
  np_max violations.

(** [np.max(np.abs(Ae @ point - be))] *)
Definition max_eq_violation_of (Ae : mat float) (be : option (mat float)) (point : mat float)
  : res float :=
  Aep ← matmul Ae point;
  be ← array_of be;
  d ← msub Aep be;
  np_max (np_abs d).

(** The scaling factor written for a point with inequality rows present. *)
Definition scaling_of (is_contained : bool) (b : option (mat float)) (max_violation : float)
  : res float :=
  if is_contained then Ok 1%float   (* Already inside *)
  else
    b ← array_of b;
    let b_norm := linalg_norm b in
    if (1e-9 <? b_norm)%float
    then Ok (1 + max_violation / b_norm)%float
    else Ok (1 + max_violation)%float.

(** The body of the loop over the points: iteration [i] on the arrays
    [results] and [scaling_factors]. *)
Definition check_point (P : Polytope) (A : mat float) (points : mat float) (tol : float)
    (scalingToggle : bool) (i : nat) (st : list bool * list float)
  : res (list bool * list float) :=
  let '(results, scaling_factors) := st in
  let point := col_slice points i in
  (* Assume contained until a violation is found *)
  let is_contained := true in
  '(is_contained, scaling_factors) ←
    (if Nat.ltb 0 (nrows A) then
       max_violation ← max_violation_of A (P_b P) point;
       let is_contained := if (tol <? max_violation)%float then false else is_contained in
       if scalingToggle then
         s ← scaling_of is_contained (P_b P) max_violation;
         Ok (is_contained, <[i := s]> scaling_factors)
       else Ok (is_contained, scaling_factors)
     else Ok (is_contained, scaling_factors));
  is_contained ←
    match P_Ae P with
    | Some Ae =>
        if Nat.ltb 0 (nrows Ae) then
          max_eq_violation ← max_eq_violation_of Ae (P_be P) point;
          Ok (if (tol <? max_eq_violation)%float then false else is_contained)
        else Ok is_contained
    | None => Ok is_contained
    end;
  Ok (<[i := is_contained]> results, scaling_factors).

(** [scaling_factors[results] = np.minimum(scaling_factors[results], 1.0)] *)
Definition clip_contained (results : list bool) (scaling_factors : list float)
  : list float :=
  zip_with (fun (r : bool) s => if r then minimum s 1%float else s) results scaling_factors.

Definition _contains_pointcloud (P : Polytope) (points : ndarray) (method : string)
    (tol : float) (certToggle scalingToggle : bool)
  : res (bool_out * bool * float_out) :=
  let points := as_points points in
  let n := nrows points in
  let num_points := ncols points in
  match P_A P with
  | None => Raise (CORAerror "CORA:notSupported")
  | Some A =>
      let results := replicate num_points false in
      let scaling_factors := replicate num_points infinity in
      '(results, scaling_factors) ←
        for_each (check_point P A points tol scalingToggle) (seq 0 num_points)
                 (results, scaling_factors);
      let scaling_factors :=
        if scalingToggle then clip_contained results scaling_factors
        else scaling_factors in
      if Nat.eqb num_points 1
      then Ok (BScalar (nth 0 results false), true,
               FScalar (nth 0 scaling_factors infinity))
      else Ok (BArray results, true, FArray scaling_factors)
  end.

(** What one iteration of the loop decides for point [i]: the flag after
    the inequality test with the scaling factor it writes, if any, and the
    flag after the equality test, which can only clear it. *)
Definition inequality_test (P : Polytope) (A : mat float) (point : mat float) (tol : float)
    (scalingToggle : bool) : res (bool * option float) :=
  if Nat.ltb 0 (nrows A) then
    mv ← max_violation_of A (P_b P) point;
    let c1 := if (tol <? mv)%float then false else true in
    if scalingToggle then
      s ← scaling_of c1 (P_b P) mv;
      Ok (c1, Some s)
    else Ok (c1, None)
  else Ok (true, None).

Definition equality_test (P : Polytope) (point : mat float) (tol : float) (c1 : bool)
  : res bool :=
  match P_Ae P with
  | Some Ae =>
      if Nat.ltb 0 (nrows Ae) then
        me ← max_eq_violation_of Ae (P_be P) point;
        Ok (if (tol <? me)%float then false else c1)
      else Ok c1
  | None => Ok c1
  end.

Definition point_outcome (P : Polytope) (A : mat float) (points : mat float) (tol : float)
    (scalingToggle : bool) (i : nat) : res (bool * option float) :=
  let point := col_slice points i in
  '(c1, written) ← inequality_test P A point tol scalingToggle;
  c2 ← equality_test P point tol c1;
  Ok (c2, written).

(** *** The tests, row by row *)




End Contains.






(** The shapes of a query fit: the inequality matrix has one column per
    coordinate of the points and comes with a column of offsets, and so do
    the equality constraints when they are present. *)
Definition shapes_fit (P : Polytope) (A : mat float) (points : mat float) : Prop :=
  P_A P = Some A /\ ncols A = nrows points /\
  (0 < nrows A -> exists b, P_b P = Some b /\ nrows b = nrows A /\ ncols b = 1) /\
  (forall Ae, P_Ae P = Some Ae -> 0 < nrows Ae ->
     ncols Ae = nrows points /\
     exists be, P_be P = Some be /\ nrows be = nrows Ae /\ ncols be = 1).

(** *** Inputs on which the examples run *)

(** The matrix product with the additions of each inner product from
    left to right, and the Euclidean norm as the root of the sum of the
    squares. *)
Definition inner_lr (u v : list float) : float :=
  foldl (fun acc xy => (acc + fst xy * snd xy)%float) 0%float (zip u v).

Definition product_lr (M N : mat float) (i j : nat) : float :=
  inner_lr (nth i (rows M) []) (col N j).

Definition norm_lr (M : mat float) : float :=
  sqrt (foldl (fun acc x => (acc + x * x)%float) 0%float (concat (rows M))).

(** The segment [x <= 3, -x <= 4] of the line; the inequality [x <= 1]
    together with the equality [x = 0], and that equality alone. *)
Definition segment : Polytope :=
  mkPolytope (Some (Mat 2 1 [[1%float]; [(-1)%float]])) (Some (Mat 2 1 [[3%float]; [4%float]]))
             None None.

Definition pinned : Polytope :=
  mkPolytope (Some (Mat 1 1 [[1%float]])) (Some (Mat 1 1 [[1%float]]))
             (Some (Mat 1 1 [[1%float]])) (Some (Mat 1 1 [[0%float]])).

Definition pinned_by_equality : Polytope :=
  mkPolytope (Some (Mat 0 1 [])) (Some (Mat 0 1 []))
             (Some (Mat 1 1 [[1%float]])) (Some (Mat 1 1 [[0%float]])).

Definition half_point : ndarray := Arr2 (Mat 1 1 [[0.5%float]]).

(** The halfspace [x + y + z <= 4e-17] and the point [(0.1, 0.2, -0.3)]:
    the sum of the three nearest binary64 numbers, taken from left to
    right, is [2^-54], above the offset. *)
Definition thin_A : mat float := Mat 1 3 [[1%float; 1%float; 1%float]].
Definition thin_halfspace : Polytope :=
  mkPolytope (Some thin_A) (Some (Mat 1 1 [[4e-17%float]])) None None.
Definition thin_point : ndarray := Arr1 [0.1%float; 0.2%float; (-0.3)%float].

(** The segment [x <= 1, -x <= 1e6] and a point that violates the first
    row by about [2e-12]. *)
Definition long_A : mat float := Mat 2 1 [[1%float]; [(-1)%float]].
Definition long_b : mat float := Mat 2 1 [[1%float]; [1e6%float]].
Definition long_segment : Polytope := mkPolytope (Some long_A) (Some long_b) None None.
Definition near_point : ndarray := Arr2 (Mat 1 1 [[1.000000000002%float]]).

End Float64.

(** * Properties *)

Lemma bind_Ok {T U} (m : res T) (f : T -> res U) (u : U) :
  (m ≫= f) = Ok u -> exists a, m = Ok a /\ f a = Ok u.
Proof. destruct m as [a|e]; simpl; intros H; [eauto | discriminate]. Qed.

Lemma Qltb_false (a b : Q) : Qltb a b = false <-> (b <= a)%Q.
Proof.
  unfold Qltb. rewrite negb_false_iff. apply Qle_bool_iff.
Qed.

Lemma Qltb_true (a b : Q) : Qltb a b = true <-> (a < b)%Q.
Proof.
  unfold Qltb. rewrite negb_true_iff. split.
  - intros H. apply Qnot_le_lt. intros Hle. apply Qle_bool_iff in Hle. congruence.
  - intros H. destruct (Qle_bool b a) eqn:E; [|done].
    apply Qle_bool_iff in E. exfalso. eapply Qlt_not_le; eauto.
Qed.

Lemma for_each_cons {St} (body : nat -> St -> res St) i idxs s :
  for_each body (i :: idxs) s = body i s ≫= for_each body idxs.
Proof. reflexivity. Qed.

Tactic Notation "inv_bind" hyp(H) "as" simple_intropattern(a) ident(Ha) :=
  apply bind_Ok in H; destruct H as (a & Ha & H).

Ltac step := cbn [mbind res_bind fmap res_fmap mret res_ret].

Lemma hstack_ok {T} (M N : mat T) :
  nrows M = nrows N ->
  hstack M N = Ok (Mat (nrows M) (ncols M + ncols N) (zip_with app (rows M) (rows N))).
Proof. intros H. unfold hstack. by rewrite H, Nat.eqb_refl. Qed.

Tactic Notation "step_in" hyp(H) := cbn [mbind res_bind fmap res_fmap mret res_ret] in H.


(** *** A query whose shapes fit returns *)

Lemma np_max_defined (r c : nat) (f : nat -> nat -> Q) :
  0 < r -> 0 < c ->
  exists m, np_max (Mat r c (map (fun i => map (fun j => f i j) (seq 0 c)) (seq 0 r))) = Ok m.
Proof.
  intros Hr Hc. unfold np_max. simpl.
  destruct r as [|r]; [lia|]. destruct c as [|c]; [lia|]. simpl. eauto.
Qed.

Lemma bdim_same n : bdim n n = Ok n.
Proof. unfold bdim. by rewrite Nat.eqb_refl. Qed.

Lemma max_violation_defined (A b point : mat Q) :
  ncols A = nrows point -> 0 < nrows A -> ncols point = 1 ->
  nrows b = nrows A -> ncols b = 1 ->
  exists mv, max_violation_of A (Some b) point = Ok mv.
Proof.
  intros Hn Hr Hp Hbr Hbc. unfold max_violation_of, matmul.
  rewrite (proj2 (Nat.eqb_eq _ _) Hn). step. cbn [array_of]. step.
  unfold msub, broadcast. cbn [nrows ncols]. rewrite Hbr, Hp, Hbc, !bdim_same. step.
  apply (np_max_defined (nrows A) 1); [done | apply Nat.lt_0_1].
Qed.

Lemma max_eq_violation_defined (Ae be point : mat Q) :
  ncols Ae = nrows point -> 0 < nrows Ae -> ncols point = 1 ->
  nrows be = nrows Ae -> ncols be = 1 ->
  exists me, max_eq_violation_of Ae (Some be) point = Ok me.
Proof.
  intros Hn Hr Hp Hbr Hbc. unfold max_eq_violation_of, matmul.
  rewrite (proj2 (Nat.eqb_eq _ _) Hn). step. cbn [array_of]. step.
  unfold msub, broadcast. cbn [nrows ncols]. rewrite Hbr, Hp, Hbc, !bdim_same. step.
  unfold np_abs. cbn [nrows ncols rows]. rewrite map_map.
  erewrite map_ext; [|intros i; apply map_map].
  apply (np_max_defined (nrows Ae) 1 (fun i j => Qabs _)); [done | apply Nat.lt_0_1].
Qed.

Lemma col_slice_shape (points : mat Q) i :
  i < ncols points ->
  nrows (col_slice points i) = nrows points /\ ncols (col_slice points i) = 1.
Proof. intros Hi. unfold col_slice. cbn [nrows ncols]. split; [done | lia]. Qed.

Lemma for_each_defined {St} (body : nat -> St -> res St) idxs :
  (forall i s, i ∈ idxs -> exists s', body i s = Ok s') ->
  forall s, exists s', for_each body idxs s = Ok s'.
Proof.
  induction idxs as [|i idxs IH]; intros Hbody s; [by exists s|].
  rewrite for_each_cons. destruct (Hbody i s) as [s1 ->]; [left|]. step.
  apply IH. intros j s' Hj. apply Hbody. by right.
Qed.

Section ContainsProps.

Variable linalg_norm : mat Q -> Q.


(** An iteration writes what [point_outcome] decides, at index [i]. *)
Lemma check_point_outcome P A points tol sc i results scal :
  check_point linalg_norm P A points tol sc i (results, scal) =
  '(r, written) ← point_outcome linalg_norm P A points tol sc i;
  Ok (<[i := r]> results,
      match written with Some s => <[i := s]> scal | None => scal end).
Proof.
  unfold check_point, point_outcome, inequality_test, equality_test.
  destruct (Nat.ltb 0 (nrows A)); simpl.
  - destruct (max_violation_of A (P_b P) (col_slice points i)) as [mv|e]; simpl; [|done].
    destruct sc; simpl.
    + destruct (scaling_of linalg_norm _ (P_b P) mv) as [s|e]; simpl; [|done].
      destruct (P_Ae P) as [Ae|]; simpl; [|done].
      destruct (Nat.ltb 0 (nrows Ae)); simpl; [|done].
      destruct (max_eq_violation_of Ae (P_be P) (col_slice points i)); simpl; done.
    + destruct (P_Ae P) as [Ae|]; simpl; [|done].
      destruct (Nat.ltb 0 (nrows Ae)); simpl; [|done].
      destruct (max_eq_violation_of Ae (P_be P) (col_slice points i)); simpl; done.
  - destruct (P_Ae P) as [Ae|]; simpl; [|done].
    destruct (Nat.ltb 0 (nrows Ae)); simpl; [|done].
    destruct (max_eq_violation_of Ae (P_be P) (col_slice points i)); simpl; done.
Qed.

(** The loop invariant: indices outside [idxs] keep their entries, and
    each index in [idxs] holds the outcome of its own point. *)
Lemma loop_outcomes P A points tol sc idxs :
  NoDup idxs ->
  forall results scal results' scal',
  length results = length scal ->
  (forall i, i ∈ idxs -> i < length results) ->
  for_each (check_point linalg_norm P A points tol sc) idxs (results, scal) = Ok (results', scal') ->
  length results' = length results /\ length scal' = length scal /\
  (forall i, i ∉ idxs -> results' !! i = results !! i /\ scal' !! i = scal !! i) /\
  (forall i, i ∈ idxs -> exists r written,
      point_outcome linalg_norm P A points tol sc i = Ok (r, written) /\
      results' !! i = Some r /\
      scal' !! i = match written with Some s => Some s | None => scal !! i end).
Proof.
  induction 1 as [|i idxs Hni Hnd IH]; intros results scal results' scal' Hlen Hin Hrun.
  - simpl in Hrun. injection Hrun as <- <-.
    split; [done | split; [done | split; [done |]]].
    intros i Hi. by apply elem_of_nil in Hi.
  - rewrite for_each_cons in Hrun. inv_bind Hrun as [results1 scal1] Hbody.
    rewrite check_point_outcome in Hbody. inv_bind Hbody as [r written] Hout_i.
    injection Hbody as <- <-.
    assert (Hi : i < length results) by (apply Hin; left).
    eapply IH in Hrun as (Hl1 & Hl2 & Hout & Hinn).
    + rewrite length_insert in Hl1.
      assert (Hl2' : length scal' = length scal)
        by (rewrite Hl2; destruct written; by rewrite ?length_insert).
      split; [done | split; [done | split]].
      * intros j Hj. apply not_elem_of_cons in Hj as [Hne Hj].
        destruct (Hout j Hj) as [-> ->].
        rewrite list_lookup_insert_ne by done.
        destruct written; by rewrite ?list_lookup_insert_ne.
      * intros j Hj. apply elem_of_cons in Hj as [->|Hj].
        -- destruct (Hout i Hni) as [-> ->]. exists r, written.
           rewrite list_lookup_insert_eq by done.
           split; [done | split; [done |]].
           destruct written; [|done].
           rewrite list_lookup_insert_eq; [done | lia].
        -- destruct (Hinn j Hj) as (r' & w' & Ho' & Hr & Hs). exists r', w'.
           split; [done | split; [done |]]. rewrite Hs. destruct w'; [done|].
           assert (i <> j) by (intros ->; done).
           destruct written; by rewrite ?list_lookup_insert_ne.
    + rewrite length_insert. destruct written; by rewrite ?length_insert.
    + intros j Hj. rewrite length_insert. apply Hin. by right.
Qed.

Lemma lookup_nth_default {T} (l : list T) i x d : l !! i = Some x -> nth i l d = x.
Proof. intros H. by apply nth_lookup_Some with (d := d) in H. Qed.

(** A run of [_contains_pointcloud] that returns reports, for every point,
    the outcome of that point; the certificate is [True]. *)
Lemma pointcloud_outcomes P A points method tol certToggle sc out cert scaling :
  P_A P = Some A ->
  _contains_pointcloud linalg_norm P points method tol certToggle sc
    = Ok (out, cert, scaling) ->
  cert = true /\
  forall i, i < ncols (as_points points) ->
    exists r written,
      point_outcome linalg_norm P A (as_points points) tol sc i = Ok (r, written) /\
      flag_at out i = Some r /\
      scaling_at scaling i =
        Some (let s0 := default PInf written in
              if sc && r then xmin s0 (Fin 1) else s0).
Proof.
  intros HA Hrun. unfold _contains_pointcloud in Hrun. rewrite HA in Hrun.
  set (m := ncols (as_points points)) in *.
  inv_bind Hrun as [results scal] Hloop.
  apply loop_outcomes in Hloop as (Hl1 & Hl2 & _ & Hin).
  2: apply NoDup_seq.
  2: by rewrite !length_replicate.
  2: { intros i Hi. apply elem_of_seq in Hi. rewrite length_replicate. lia. }
  rewrite length_replicate in Hl1. rewrite length_replicate in Hl2.
  assert (Hpt : forall i, i < m -> exists r written,
      point_outcome linalg_norm P A (as_points points) tol sc i = Ok (r, written) /\
      results !! i = Some r /\
      (if sc then clip_contained results scal else scal) !! i =
        Some (let s0 := default PInf written in
              if sc && r then xmin s0 (Fin 1) else s0)).
  { intros i Hi. destruct (Hin i) as (r & written & Ho & Hr & Hs).
    { apply elem_of_seq. lia. }
    exists r, written. split; [done | split; [done |]].
    assert (Hs0 : scal !! i = Some (default PInf written)).
    { rewrite Hs. destruct written; [done|]. simpl.
      apply lookup_replicate. split; [done | lia]. }
    destruct sc; simpl; [|done].
    unfold clip_contained. rewrite lookup_zip_with, Hr. simpl. rewrite Hs0. simpl.
    by destruct r. }
  destruct (Nat.eqb m 1) eqn:Em.
  - apply Nat.eqb_eq in Em. injection Hrun as <- <- <-. split; [done|].
    intros i Hi. assert (i = 0) as -> by lia.
    destruct (Hpt 0) as (r & written & Ho & Hr & Hs); [lia|].
    exists r, written. split; [done|]. simpl.
    by rewrite (lookup_nth_default _ _ _ _ Hr), (lookup_nth_default _ _ _ _ Hs).
  - injection Hrun as <- <- <-. split; [done|]. intros i Hi. simpl. by apply Hpt.
Qed.

(** The flag of a point: no inequality violation and no equality violation. *)
Lemma point_outcome_flag P A points tol sc i r written :
  point_outcome linalg_norm P A points tol sc i = Ok (r, written) ->
  r = true <->
  (0 < nrows A -> ineq_within A (P_b P) (col_slice points i) tol) /\
  (forall Ae, P_Ae P = Some Ae -> 0 < nrows Ae ->
     eq_within Ae (P_be P) (col_slice points i) tol).
Proof.
  unfold point_outcome, inequality_test, equality_test, ineq_within, eq_within.
  intros H. inv_bind H as [c1 w] H1. inv_bind H as c2 H2. injection H as <- <-.
  assert (Hc1 : c1 = true <->
    (0 < nrows A -> exists mv,
        max_violation_of A (P_b P) (col_slice points i) = Ok mv /\ (mv <= tol)%Q)).
  { destruct (Nat.ltb 0 (nrows A)) eqn:En.
    - apply Nat.ltb_lt in En. inv_bind H1 as mv0 Hmv0.
      assert (c1 = if Qltb tol mv0 then false else true) as ->.
      { destruct sc; [inv_bind H1 as s Hs|]; by injection H1 as <- _. }
      destruct (Qltb tol mv0) eqn:Et.
      + apply Qltb_true in Et. split; [done|]. intros Hx.
        destruct (Hx En) as (mv & Hmv & Hle). rewrite Hmv0 in Hmv.
        injection Hmv as ->. exfalso. eapply Qlt_not_le; eauto.
      + apply Qltb_false in Et. split; [|done]. intros _ _. eauto.
    - apply Nat.ltb_ge in En. injection H1 as <- _. split; [|done]. intros _ ?. lia. }
  destruct (P_Ae P) as [Ae|] eqn:EAe.
  - destruct (Nat.ltb 0 (nrows Ae)) eqn:En.
    + apply Nat.ltb_lt in En. inv_bind H2 as me0 Hme0. injection H2 as <-.
      destruct (Qltb tol me0) eqn:Et.
      * apply Qltb_true in Et. split; [done|]. intros [_ Hx].
        destruct (Hx Ae eq_refl En) as (me & Hme & Hle). rewrite Hme0 in Hme.
        injection Hme as ->. exfalso. eapply Qlt_not_le; eauto.
      * apply Qltb_false in Et. rewrite Hc1. split.
        -- intros Hx. split; [done|]. intros Ae' [= <-] _. eauto.
        -- by intros [Hx _].
    + apply Nat.ltb_ge in En. injection H2 as <-. rewrite Hc1. split.
      * intros Hx. split; [done|]. intros Ae' [= <-] ?. lia.
      * by intros [Hx _].
  - injection H2 as <-. rewrite Hc1. split.
    + intros Hx. split; [done|]. intros Ae' [=].
    + by intros [Hx _].
Qed.

Lemma point_outcome_defined P A points tol sc i :
  shapes_fit P A points -> i < ncols points ->
  exists r written, point_outcome linalg_norm P A points tol sc i = Ok (r, written).
Proof.
  intros (HA & Hn & Hb & HAe) Hi. unfold point_outcome.
  destruct (col_slice_shape points i Hi) as [Hsr Hsc].
  assert (H1 : exists c1 w,
    inequality_test linalg_norm P A (col_slice points i) tol sc = Ok (c1, w)).
  { unfold inequality_test. destruct (Nat.ltb 0 (nrows A)) eqn:En; [|eauto].
    apply Nat.ltb_lt in En. destruct (Hb En) as (b & -> & Hbr & Hbc).
    destruct (max_violation_defined A b (col_slice points i)) as [mv ->];
      [congruence | done | done | done | done |]. step.
    destruct sc; [|eauto]. unfold scaling_of.
    destruct (Qltb tol mv); step; [|eauto]. cbn [array_of]. step.
    destruct (Qltb _ (linalg_norm b)); eauto. }
  destruct H1 as (c1 & w & ->). step.
  assert (H2 : exists c2, equality_test P (col_slice points i) tol c1 = Ok c2).
  { unfold equality_test. destruct (P_Ae P) as [Ae|] eqn:EAe; [|eauto].
    destruct (Nat.ltb 0 (nrows Ae)) eqn:En; [|eauto].
    apply Nat.ltb_lt in En. destruct (HAe Ae eq_refl En) as (Hc & be & -> & Hbr & Hbc).
    destruct (max_eq_violation_defined Ae be (col_slice points i)) as [me ->];
      [congruence | done | done | done | done |]. step. eauto. }
  destruct H2 as (c2 & ->). step. eauto.
Qed.

(** A query whose shapes fit returns. *)
Lemma pointcloud_defined P A points method tol certToggle sc :
  shapes_fit P A (as_points points) ->
  exists out cert scaling,
    _contains_pointcloud linalg_norm P points method tol certToggle sc
      = Ok (out, cert, scaling).
Proof.
  intros Hfit. unfold _contains_pointcloud.
  destruct Hfit as (HA & Hrest). rewrite HA.
  destruct (for_each_defined (check_point linalg_norm P A (as_points points) tol sc)
              (seq 0 (ncols (as_points points))))
    with (s := (replicate (ncols (as_points points)) false,
                replicate (ncols (as_points points)) PInf)) as [[results scal] ->].
  - intros i [results scal] Hi. apply elem_of_seq in Hi.
    rewrite check_point_outcome.
    destruct (point_outcome_defined P A (as_points points) tol sc i) as (r & w & ->);
      [done | lia |]. step. eauto.
  - step. destruct (Nat.eqb _ 1); eauto.
Qed.

(** The flags of a run that returns. *)
Lemma pointcloud_flags P A points method tol certToggle scalingToggle out cert scaling i :
  P_A P = Some A ->
  _contains_pointcloud linalg_norm P points method tol certToggle scalingToggle
    = Ok (out, cert, scaling) ->
  i < ncols (as_points points) ->
  exists r, flag_at out i = Some r /\
    (r = true <->
     (0 < nrows A -> ineq_within A (P_b P) (col_slice (as_points points) i) tol) /\
     (forall Ae, P_Ae P = Some Ae -> 0 < nrows Ae ->
        eq_within Ae (P_be P) (col_slice (as_points points) i) tol)).
Proof.
  intros HA Hrun Hi.
  destruct (pointcloud_outcomes _ _ _ _ _ _ _ _ _ _ HA Hrun) as [_ Hpts].
  destruct (Hpts i Hi) as (r & written & Ho & Hf & _).
  exists r. split; [done|]. by eapply point_outcome_flag.
Qed.

Lemma pointcloud_certificate P points method tol certToggle sc out cert scaling :
  _contains_pointcloud linalg_norm P points method tol certToggle sc
    = Ok (out, cert, scaling) ->
  cert = true.
Proof.
  intros Hrun. destruct (P_A P) as [A|] eqn:HA.
  - by destruct (pointcloud_outcomes _ _ _ _ _ _ _ _ _ _ HA Hrun).
  - unfold _contains_pointcloud in Hrun. by rewrite HA in Hrun.
Qed.

(** C9.  Whatever [contains_] is asked about (a point cloud, a single
    point or a set object), a call that returns gives the certificate
    [True]; this covers the fallback to the center of a set whose vertex
    enumeration raises, and the default answer "not contained, scaling
    +inf" for a set with neither vertices nor center. *)
Theorem contains_certificate_true P S method tol maxEval certToggle scalingToggle :
  (forall out cert scaling,
     contains_ linalg_norm P S method tol maxEval certToggle scalingToggle
       = Ok (out, cert, scaling) ->
     cert = true) /\
  (forall obj e c,
     S = SetObject obj ->
     vertices obj = Some (Raise e) -> center obj = Some (Ok (Some c)) ->
     contains_ linalg_norm P S method tol maxEval certToggle scalingToggle
       = _contains_pointcloud linalg_norm P c method tol certToggle scalingToggle) /\
  (forall obj,
     S = SetObject obj ->
     vertices obj = None -> center obj = None ->
     contains_ linalg_norm P S method tol maxEval certToggle scalingToggle
       = Ok (BScalar false, true, FScalar PInf)).
Proof.
  split; [|split].
  - intros out cert scaling Hrun. destruct S as [a|obj]; simpl in Hrun.
    + by eapply pointcloud_certificate.
    + destruct (vertices obj) as [[v|e]|]; simpl in Hrun.
      * destruct (_contains_pointcloud linalg_norm P v method tol certToggle scalingToggle)
          as [[[o c] s]|e] eqn:Ev.
        -- injection Hrun as <- <- <-. by eapply pointcloud_certificate.
        -- destruct (center obj) as [[[c|]|e']|]; simpl in Hrun; try done.
           ++ inv_bind Hrun as [[o' c'] s'] Hc. injection Hrun as <- <- <-.
              by eapply pointcloud_certificate.
           ++ by injection Hrun as <- <- <-.
           ++ by injection Hrun as <- <- <-.
      * destruct (center obj) as [[[c|]|e']|]; simpl in Hrun; try done.
        -- inv_bind Hrun as [[o' c'] s'] Hc. injection Hrun as <- <- <-.
           by eapply pointcloud_certificate.
        -- by injection Hrun as <- <- <-.
        -- by injection Hrun as <- <- <-.
      * destruct (center obj) as [[[c|]|e']|]; simpl in Hrun; try done.
        -- inv_bind Hrun as [[o' c'] s'] Hc. injection Hrun as <- <- <-.
           by eapply pointcloud_certificate.
        -- by injection Hrun as <- <- <-.
        -- by injection Hrun as <- <- <-.
  - intros obj e c -> Hv Hc. simpl. rewrite Hv, Hc. simpl.
    by destruct (_contains_pointcloud linalg_norm P c method tol certToggle scalingToggle)
      as [[[o c'] s]|e'].
  - intros obj -> Hv Hc. simpl. by rewrite Hv, Hc.
Qed.

End ContainsProps.



(** The three query points against the segment: the first two lie in it,
    the third violates [x <= 3] by 2 and gets the scaling factor
    [1 + 2/5], the norm of [b = (3, 4)] being 5. *)
Example segment_three_points_run :
  _contains_pointcloud norm_rat segment three_points "exact" 1e-12 true true
  = Ok (BArray [true; true; false], true, FArray [Fin 1; Fin 1; Fin (1 + 2 / 5)]).
Proof. vm_compute. reflexivity. Qed.

(** The empty polytope of the plane does not contain the origin. *)
Example empty_polytope_excludes_origin :
  _contains_pointcloud norm_rat (Polytope_empty 2) (Arr2 (zeros 2 1)) "exact" 1e-12 true false
  = Ok (BScalar false, true, FScalar PInf).
Proof. vm_compute. reflexivity. Qed.

Lemma contains_certificate_true_witness :
  contains_ norm_rat segment (SetObject failing_vertices) "exact" 1e-12 0 true false
    = Ok (BScalar true, true, FScalar PInf) /\
  true = true.
Proof.
  split; [reflexivity|].
  apply (proj1 (contains_certificate_true norm_rat segment (SetObject failing_vertices)
                  "exact" 1e-12 0%Z true false)
           (BScalar true) true (FScalar PInf)).
  reflexivity.
Defined.

(** ** Minkowski sum *)

Lemma col_length (M : mat Q) j : wf_mat M -> length (col M j) = nrows M.
Proof. intros [Hl _]. unfold col. by rewrite length_map. Qed.

Lemma insert_column_rows (rs : list (list Q)) (v : list Q) idx nc :
  Forall (fun r => length r = nc) rs -> idx < nc -> length v = length rs ->
  let rs' := zip_with (fun r x => <[idx := x]> r) rs v in
  length rs' = length rs /\ Forall (fun r => length r = nc) rs' /\
  map (fun r => nth idx r 0%Q) rs' = v /\
  (forall k, k <> idx ->
     map (fun r => nth k r 0%Q) rs' = map (fun r => nth k r 0%Q) rs).
Proof.
  intros Hr Hidx. revert v.
  induction Hr as [|r rs Hr Hrs IH]; intros [|x v] Hv; simpl in *; try done.
  injection Hv as Hv. destruct (IH v Hv) as (Hl' & Hf' & Hci & Hck).
  split; [by rewrite Hl'|]. split; [|split].
  - constructor; [by rewrite length_insert | done].
  - f_equal; [|done]. apply lookup_nth_default.
    apply list_lookup_insert_eq. lia.
  - intros k Hk. f_equal; [|by apply Hck].
    destruct (r !! k) as [y|] eqn:Ey.
    + rewrite (lookup_nth_default _ _ _ _ Ey). apply lookup_nth_default.
      by rewrite list_lookup_insert_ne.
    + apply lookup_ge_None in Ey.
      rewrite !nth_overflow; [done | lia | rewrite length_insert; lia].
Qed.

(** Writing a column of the right length into a well-formed array. *)
Lemma set_col_spec (M : mat Q) idx v :
  wf_mat M -> idx < ncols M -> length v = nrows M ->
  exists M', set_col M idx v = Ok M' /\ wf_mat M' /\
    nrows M' = nrows M /\ ncols M' = ncols M /\
    col M' idx = v /\ (forall k, k <> idx -> col M' k = col M k).
Proof.
  intros [Hl Hr] Hidx Hv. unfold set_col.
  apply Nat.ltb_lt in Hidx as Hidx'. rewrite Hidx'.
  rewrite (proj2 (Nat.eqb_eq _ _) Hv).
  rewrite <- Hl in Hv.
  destruct (insert_column_rows _ _ _ _ Hr Hidx Hv) as (Hl' & Hf' & Hci & Hck).
  eexists. split; [done|]. unfold wf_mat, col. simpl.
  split; [split; [congruence | done]|]. done.
Qed.

Section SumVertices.

Variables V1 V2 : mat Q.
Hypothesis wf_V1 : wf_mat V1.
Hypothesis wf_V2 : wf_mat V2.
Hypothesis same_rows : nrows V1 = nrows V2.

Lemma add_vertex_spec i j V idx :
  wf_mat V -> nrows V = nrows V1 -> idx < ncols V ->
  exists V', add_vertex V1 V2 i j (V, idx) = Ok (V', idx + 1) /\
    wf_mat V' /\ nrows V' = nrows V /\ ncols V' = ncols V /\
    col V' idx = vertex_sum V1 V2 i j /\ (forall k, k <> idx -> col V' k = col V k).
Proof using wf_V1 wf_V2 same_rows.
  intros HV Hn Hidx. unfold add_vertex, vadd.
  rewrite !col_length by done. rewrite same_rows, Nat.eqb_refl. simpl.
  fold (vertex_sum V1 V2 i j).
  destruct (set_col_spec V idx (vertex_sum V1 V2 i j) HV Hidx) as (V' & -> & Hrest).
  { unfold vertex_sum. rewrite length_zip_with, !col_length by done. lia. }
  exists V'. split; [done | exact Hrest].
Qed.

(** The inner loop, for column [i] of [V2], over any list [js] of columns
    of [V1]: it fills the columns [idx, idx + 1, ...] in this order. *)
Lemma inner_loop_spec i js : forall V idx,
  wf_mat V -> nrows V = nrows V1 -> idx + length js <= ncols V ->
  exists V', for_each (add_vertex V1 V2 i) js (V, idx) = Ok (V', idx + length js) /\
    wf_mat V' /\ nrows V' = nrows V /\ ncols V' = ncols V /\
    (forall k j, js !! k = Some j -> col V' (idx + k) = vertex_sum V1 V2 i j) /\
    (forall k, k < idx \/ idx + length js <= k -> col V' k = col V k).
Proof using wf_V1 wf_V2 same_rows.
  induction js as [|j js IH]; intros V idx HV Hn Hle; simpl length in *.
  - exists V. simpl. rewrite Nat.add_0_r. split; [done|]. split; [done|].
    split; [done|]. split; [done|]. split; [|done]. intros k j Hk. done.
  - rewrite for_each_cons.
    destruct (add_vertex_spec i j V idx HV Hn) as (V' & -> & HV' & Hn' & Hc' & Hcol & Hoth);
      [lia|]. simpl.
    destruct (IH V' (idx + 1)) as (V'' & Hrun & HV'' & Hn'' & Hc'' & Hin & Hout);
      [done | congruence | lia |].
    exists V''. replace (idx + S (length js)) with (idx + 1 + length js) by lia.
    split; [done|]. split; [done|]. split; [congruence|]. split; [congruence|]. split.
    + intros [|k] j' Hk; simpl in Hk.
      * injection Hk as <-. rewrite Nat.add_0_r, Hout by lia. done.
      * replace (idx + S k) with (idx + 1 + k) by lia. by apply Hin.
    + intros k Hk. rewrite Hout by lia. apply Hoth. lia.
Qed.

(** The outer loop over any list [is] of columns of [V2]. *)
Lemma outer_loop_spec js is_ : forall V idx,
  wf_mat V -> nrows V = nrows V1 -> idx + length is_ * length js <= ncols V ->
  exists V', for_each (fun i => for_each (add_vertex V1 V2 i) js) is_ (V, idx)
               = Ok (V', idx + length is_ * length js) /\
    wf_mat V' /\ nrows V' = nrows V /\ ncols V' = ncols V /\
    (forall a i k j, is_ !! a = Some i -> js !! k = Some j ->
       col V' (idx + a * length js + k) = vertex_sum V1 V2 i j) /\
    (forall k, k < idx -> col V' k = col V k).
Proof using wf_V1 wf_V2 same_rows.
  induction is_ as [|i is_ IH]; intros V idx HV Hn Hle; simpl length in *.
  - exists V. simpl. rewrite Nat.add_0_r. split; [done|]. split; [done|].
    split; [done|]. split; [done|]. split; [|done]. intros a i k j Ha. done.
  - rewrite for_each_cons.
    destruct (inner_loop_spec i js V idx HV Hn) as (V' & -> & HV' & Hn' & Hc' & Hin & Hout);
      [lia|]. simpl.
    destruct (IH V' (idx + length js)) as (V'' & Hrun & HV'' & Hn'' & Hc'' & Hin' & Hout');
      [done | congruence | lia |].
    exists V''.
    replace (idx + (length js + length is_ * length js))
      with (idx + length js + length is_ * length js) by lia.
    split; [done|]. split; [done|]. split; [congruence|]. split; [congruence|]. split.
    + intros [|a] i' k j Ha Hk; simpl in Ha.
      * injection Ha as <-. rewrite Nat.add_0_r, Hout'.
        -- by apply Hin.
        -- apply lookup_lt_Some in Hk. lia.
      * replace (idx + S a * length js + k) with (idx + length js + a * length js + k) by lia.
        by eapply Hin'.
    + intros k Hk. rewrite Hout' by lia. apply Hout. lia.
Qed.

End SumVertices.

Lemma zeros_wf r c : wf_mat (zeros r c).
Proof.
  split; simpl; [by rewrite length_replicate|].
  apply Forall_forall. intros x Hx. apply elem_of_replicate in Hx as [-> _].
  by rewrite length_replicate.
Qed.

Lemma sum_vertices_spec (V1 V2 : mat Q) n :
  wf_mat V1 -> wf_mat V2 -> nrows V1 = n -> nrows V2 = n ->
  exists V, sum_vertices V1 V2 (zeros n (ncols V1 * ncols V2), 0)
              = Ok (V, ncols V2 * ncols V1) /\
    wf_mat V /\ nrows V = n /\ ncols V = ncols V1 * ncols V2 /\
    (forall i j, i < ncols V2 -> j < ncols V1 ->
       col V (i * ncols V1 + j) = vertex_sum V1 V2 i j) /\
    (forall k, k < ncols V ->
       col V k = vertex_sum V1 V2 (k / ncols V1) (k mod ncols V1)).
Proof.
  intros H1 H2 Hn1 Hn2. unfold sum_vertices.
  destruct (outer_loop_spec V1 V2 H1 H2 ltac:(congruence)
              (seq 0 (ncols V1)) (seq 0 (ncols V2))
              (zeros n (ncols V1 * ncols V2)) 0)
    as (V & Hrun & HV & Hr & Hc & Hin & _).
  - apply zeros_wf.
  - simpl. congruence.
  - rewrite !length_seq. simpl. lia.
  - rewrite !length_seq in *. simpl in *. exists V.
    assert (Hpair : forall i j, i < ncols V2 -> j < ncols V1 ->
              col V (i * ncols V1 + j) = vertex_sum V1 V2 i j).
    { intros i j Hi Hj. apply (Hin i i j j); by apply lookup_seq. }
    split; [done|]. split; [done|]. split; [done|]. split; [done|]. split; [done|].
    intros k Hk. rewrite Hc in Hk.
    assert (Hpos : ncols V1 <> 0) by (intros E; rewrite E in Hk; lia).
    rewrite (Nat.div_mod_eq k (ncols V1)) at 1.
    rewrite (Nat.mul_comm (ncols V1)). apply Hpair.
    + apply Nat.Div0.div_lt_upper_bound. lia.
    + by apply Nat.mod_upper_bound.
Qed.

Section PlusProps.

Variable dim : Polytope -> nat.
Variable representsa : Polytope -> set_kind -> Q -> bool.
Variable project : Polytope -> list nat -> res Polytope.
Variable constraints : Polytope -> res Polytope.

(** C3.  Two polytopes of equal dimension that both have vertex
    representations and match none of the special cases: [plus] returns
    the vertex polytope whose matrix has exactly [|V1|·|V2|] columns, the
    column with index [i·|V1| + j] being [V1[:, j] + V2[:, i]]; every
    column is the sum of one pair, and nothing is removed. *)
Theorem plus_Vpoly_Vpoly_pairwise_sums (p1 p2 : Polytope) (V1 V2 : mat Q) :
  dim p1 = dim p2 ->
  P_isVRep p1 = true -> P_isVRep p2 = true ->
  P_V p1 = Some V1 -> P_V p2 = Some V2 ->
  wf_mat V1 -> wf_mat V2 -> nrows V1 = dim p1 -> nrows V2 = dim p1 ->
  (forall kind, representsa p1 kind 1e-10 = false) ->
  (forall kind, representsa p2 kind 1e-10 = false) ->
  exists V, plus dim representsa project constraints p1 p2 = Ok (Polytope_V V) /\
    wf_mat V /\ nrows V = dim p1 /\ ncols V = ncols V1 * ncols V2 /\
    (forall i j, i < ncols V2 -> j < ncols V1 ->
       col V (i * ncols V1 + j) = vertex_sum V1 V2 i j) /\
    (forall k, k < ncols V ->
       col V k = vertex_sum V1 V2 (k / ncols V1) (k mod ncols V1)).
Proof.
  intros Hd Hv1 Hv2 HV1 HV2 Hw1 Hw2 Hn1 Hn2 Hr1 Hr2.
  destruct (sum_vertices_spec V1 V2 (dim p1) Hw1 Hw2 Hn1 Hn2) as (V & Hrun & Hrest).
  exists V. split; [|exact Hrest].
  unfold plus, equal_dim_check. rewrite Hd, Nat.eqb_refl. simpl.
  rewrite !Hr1, !Hr2, Hv1, Hv2. simpl.
  unfold _aux_plus_Vpoly_Vpoly. rewrite HV1, HV2. simpl.
  rewrite <- Hd, Hrun. done.
Qed.

(** C4.  [plus] tests the special cases before anything else, in this
    order and each with tolerance [1e-10]: an operand that represents the
    full space gives the full space; otherwise an operand that represents
    the empty set gives the empty set; otherwise, if the first operand
    represents the origin the second is returned as it is, and else if the
    second represents the origin the first is returned as it is.  In
    particular, for a second operand [O] that represents the origin (and
    neither the full space nor the empty set), [plus(P, O)] is [P] itself,
    unless [P] represents one of the three special sets: then the answer is
    that set, as the full space, the empty set, or [O], which represents
    the origin as [P] does. *)
Theorem plus_special_cases (p1 p2 : Polytope) :
  dim p1 = dim p2 ->
  let n := dim p1 in
  let full := representsa p1 fullspace 1e-10 || representsa p2 fullspace 1e-10 in
  let none := representsa p1 emptySet 1e-10 || representsa p2 emptySet 1e-10 in
  (full = true ->
     plus dim representsa project constraints p1 p2 = Ok (Polytope_Inf n)) /\
  (full = false -> none = true ->
     plus dim representsa project constraints p1 p2 = Ok (Polytope_empty n)) /\
  (full = false -> none = false -> representsa p1 origin 1e-10 = true ->
     plus dim representsa project constraints p1 p2 = Ok p2) /\
  (full = false -> none = false -> representsa p1 origin 1e-10 = false ->
     representsa p2 origin 1e-10 = true ->
     plus dim representsa project constraints p1 p2 = Ok p1) /\
  (representsa p2 origin 1e-10 = true ->
   representsa p2 fullspace 1e-10 = false -> representsa p2 emptySet 1e-10 = false ->
     plus dim representsa project constraints p1 p2
     = Ok (if representsa p1 fullspace 1e-10 then Polytope_Inf n
           else if representsa p1 emptySet 1e-10 then Polytope_empty n
           else if representsa p1 origin 1e-10 then p2
           else p1)).
Proof.
  intros Hd n full none. subst n full none.
  unfold plus, equal_dim_check. rewrite Hd, Nat.eqb_refl. simpl.
  split; [|split; [|split; [|split]]].
  - by intros ->.
  - by intros -> ->.
  - by intros -> -> ->.
  - by intros -> -> -> ->.
  - intros -> -> ->. rewrite !orb_false_r.
    destruct (representsa p1 fullspace 1e-10); [done|].
    destruct (representsa p1 emptySet 1e-10); [done|].
    by destruct (representsa p1 origin 1e-10).
Qed.

End PlusProps.

Lemma plus_Vpoly_Vpoly_pairwise_sums_witness :
  exists V,
    plus dim_of representsa_canonical project_unused constraints_unused
      (Polytope_V two_vertices) (Polytope_V three_vertices) = Ok (Polytope_V V) /\
    wf_mat V /\ nrows V = 2 /\ ncols V = 2 * 3 /\
    (forall i j, i < 3 -> j < 2 ->
       col V (i * 2 + j) = vertex_sum two_vertices three_vertices i j) /\
    (forall k, k < ncols V ->
       col V k = vertex_sum two_vertices three_vertices (k / 2) (k mod 2)).
Proof.
  apply (plus_Vpoly_Vpoly_pairwise_sums dim_of representsa_canonical project_unused
           constraints_unused (Polytope_V two_vertices) (Polytope_V three_vertices)
           two_vertices three_vertices);
    try reflexivity.
  - split; [reflexivity | repeat constructor].
  - split; [reflexivity | repeat constructor].
  - intros []; reflexivity.
  - intros []; reflexivity.
Defined.

Lemma plus_special_cases_witness :
  plus dim_of representsa_canonical project_unused constraints_unused segment origin_of_line
  = Ok (if representsa_canonical segment fullspace 1e-10 then Polytope_Inf (dim_of segment)
        else if representsa_canonical segment emptySet 1e-10
             then Polytope_empty (dim_of segment)
        else if representsa_canonical segment origin 1e-10 then origin_of_line
        else segment).
Proof.
  apply (proj2 (proj2 (proj2 (proj2
           (plus_special_cases dim_of representsa_canonical project_unused
              constraints_unused segment origin_of_line eq_refl)))));
    reflexivity.
Defined.

(** The sum of the segment and the origin of the line is the segment
    itself; the sum of the full space and the empty set is the full space,
    which is tested first. *)
Example plus_origin_run :
  plus dim_of representsa_canonical project_unused constraints_unused segment origin_of_line
  = Ok segment /\
  plus dim_of representsa_canonical project_unused constraints_unused
    (Polytope_Inf 2) (Polytope_empty 2) = Ok (Polytope_Inf 2).
Proof. split; reflexivity. Qed.

(** ** Box enclosure *)

Section BoxProps.

Variable support_vector : Type.
Variable priv_supportFunc :
  mat Q -> mat Q -> mat Q -> mat Q -> mat Q -> support_type -> xfloat * support_vector.
Variables A b Ae be : mat Q.
Variable n : nat.

Let up := support_along support_vector priv_supportFunc A b Ae be n upper.
Let lo := support_along support_vector priv_supportFunc A b Ae be n lower.

Lemma full_col_bounds fill value : full_col n fill = bounds_upto n 0 value fill.
Proof. unfold full_col, bounds_upto. simpl. by rewrite Nat.sub_0_r. Qed.

Lemma set_entry0_bounds k value fill v :
  k < n ->
  set_entry0 (bounds_upto n k value fill) k v
  = Mat n 1 (map (fun i => [value i]) (seq 0 k) ++ [v] :: replicate (n - S k) [fill]).
Proof.
  intros Hk. unfold set_entry0, bounds_upto. simpl. f_equal.
  rewrite alter_app_r_alt by (rewrite length_map, length_seq; lia).
  rewrite length_map, length_seq, Nat.sub_diag.
  replace (n - k) with (S (n - S k)) by lia. done.
Qed.

Lemma entry0_written k value fill v :
  entry0 (Mat n 1 (map (fun i => [value i]) (seq 0 k) ++ [v] :: replicate (n - S k) [fill])) k
  = v.
Proof.
  unfold entry0. simpl.
  rewrite (lookup_nth_default _ k [v]); [done|].
  rewrite lookup_app_r by (rewrite length_map, length_seq; lia).
  by rewrite length_map, length_seq, Nat.sub_diag.
Qed.

Lemma bounds_step k value fill :
  Mat n 1 (map (fun i => [value i]) (seq 0 k) ++ [value k] :: replicate (n - S k) [fill])
  = bounds_upto n (S k) value fill.
Proof.
  unfold bounds_upto. f_equal. rewrite seq_S, map_app. simpl.
  by rewrite <- app_assoc.
Qed.

(** The loop from index [k] on: it returns early exactly when one of the
    remaining upper support values is [-inf], and else ends with all
    bounds written. *)
Lemma box_loop_spec m : forall k,
  k + m = n ->
  box_loop support_vector priv_supportFunc A b Ae be n (seq k m)
    (bounds_upto n k up PInf) (bounds_upto n k lo NInf)
  = if existsb (fun i => is_ninf (up i)) (seq k m)
    then inl (empty_rows n, empty_rows 1, true)
    else inr (bounds_upto n n up PInf, bounds_upto n n lo NInf).
Proof.
  induction m as [|m IH]; intros k Hk.
  - simpl. by replace k with n by lia.
  - simpl. fold (up k). fold (lo k).
    destruct (priv_supportFunc A b Ae be (unitvector (k + 1) n) upper) as [uv w1] eqn:Eu.
    destruct (priv_supportFunc A b Ae be (unitvector (k + 1) n) lower) as [lv w2] eqn:El.
    assert (Hup : up k = uv) by (unfold up, support_along; by rewrite Eu).
    assert (Hlo : lo k = lv) by (unfold lo, support_along; by rewrite El).
    rewrite !set_entry0_bounds by lia. rewrite entry0_written.
    rewrite Hup. destruct (is_ninf uv); [done|]. simpl.
    rewrite <- Hup, <- Hlo, !bounds_step. apply IH. lia.
Qed.

(** C5.  [priv_box_H] evaluates the upper and the lower support value
    along each of the [n] basis directions.  If an upper value is [-inf]
    it returns at once the representation without rows, flagged empty;
    otherwise it returns [A = [I; -I]], [b = [ub; -lb]] and [empty = False]. *)
Theorem priv_box_H_result :
  ((exists i, i < n /\ up i = NInf) ->
   priv_box_H support_vector priv_supportFunc A b Ae be n
   = Ok (empty_rows n, empty_rows 1, true)) /\
  ((forall i, i < n -> up i <> NInf) ->
   priv_box_H support_vector priv_supportFunc A b Ae be n
   = Ok (Mat (n + n) n (rows (eye n) ++ rows (mneg (eye n))),
         Mat (n + n) 1 (map (fun i => [up i]) (seq 0 n)
                        ++ map (fun i => [xneg (lo i)]) (seq 0 n)),
         false)).
Proof.
  assert (Hloop := box_loop_spec n 0 eq_refl).
  unfold priv_box_H.
  rewrite (full_col_bounds PInf up), (full_col_bounds NInf lo).
  rewrite Hloop. split.
  - intros (i & Hi & Hu).
    assert (existsb (fun i => is_ninf (up i)) (seq 0 n) = true) as ->; [|done].
    apply existsb_exists. exists i. split; [apply in_seq; lia | by rewrite Hu].
  - intros Hall.
    assert (existsb (fun i => is_ninf (up i)) (seq 0 n) = false) as ->.
    { apply not_true_is_false. intros Hex. apply existsb_exists in Hex as (i & Hi & Hu).
      apply in_seq in Hi. apply (Hall i); [lia|]. by destruct (up i). }
    unfold vstack, bounds_upto. simpl. rewrite !Nat.eqb_refl. simpl.
    rewrite Nat.sub_diag. simpl. rewrite app_nil_r, app_nil_r.
    by rewrite !map_map.
Qed.

End BoxProps.

Lemma priv_box_H_result_witness :
  priv_box_H unit support_infeasible (zeros 1 2) (Mat 1 1 [[(-1)%Q]]) (zeros 0 2) (zeros 0 1) 2
  = Ok (empty_rows 2, empty_rows 1, true) /\
  priv_box_H unit support_unit_box segment_A segment_b (zeros 0 1) (zeros 0 1) 1
  = Ok (Mat 2 1 [[1%Q]; [(-1)%Q]], Mat 2 1 [[Fin 1]; [Fin (- -1)]], false).
Proof.
  split.
  - apply (priv_box_H_result unit support_infeasible
             (zeros 1 2) (Mat 1 1 [[(-1)%Q]]) (zeros 0 2) (zeros 0 1) 2).
    exists 0. split; [lia | reflexivity].
  - apply (priv_box_H_result unit support_unit_box
             segment_A segment_b (zeros 0 1) (zeros 0 1) 1).
    intros i Hi. discriminate.
Defined.

(** ** Zonotopes *)

(** C8, as the code has it.  For an integer [n] that is not negative and
    that numpy accepts as a dimension ([n < 2^60]: eight bytes for each of
    [n] numbers fit a signed 64-bit integer), [empty(n)] returns the
    zonotope whose center and generator matrix both have [n] rows and no
    column: no generator, no point, dimension [n]. *)
Theorem empty_zonotope_shape (n : Z) :
  (0 <= n < 2 ^ 60)%Z ->
  exists Zo c, empty (PyInt n) = Ok Zo /\
    Z_c Zo = Arr2 c /\
    nrows c = Z.to_nat n /\ ncols c = 0 /\
    nrows (Z_G Zo) = Z.to_nat n /\ ncols (Z_G Zo) = 0 /\
    wf_mat c /\ wf_mat (Z_G Zo) /\
    Z_dim Zo = Z.to_nat n.
Proof.
  intros Hn. unfold empty. simpl.
  destruct (n <? 0)%Z eqn:E; [apply Z.ltb_lt in E; lia|].
  eexists _, _. split; [done|]. simpl. split; [done|].
  repeat (split; [done || apply zeros_wf|]). done.
Qed.

Lemma empty_zonotope_shape_witness :
  exists Zo c, empty (PyInt 3) = Ok Zo /\
    Z_c Zo = Arr2 c /\
    nrows c = Z.to_nat 3 /\ ncols c = 0 /\
    nrows (Z_G Zo) = Z.to_nat 3 /\ ncols (Z_G Zo) = 0 /\
    wf_mat c /\ wf_mat (Z_G Zo) /\
    Z_dim Zo = Z.to_nat 3.
Proof. apply (empty_zonotope_shape 3). lia. Defined.

(** C8, as the claim words it, fails in every positive dimension: the
    center of [empty(2)] has two rows, not zero. *)
Lemma empty_zonotope_rows_counterexample :
  ~ (forall Zo c, empty (PyInt 2) = Ok Zo -> Z_c Zo = Arr2 c -> nrows c = 0).
Proof.
  intros H. specialize (H _ _ eq_refl eq_refl). discriminate.
Qed.

Section AveragingProps.

Variable norm_fro : mat Q -> Q.
Variable radius : Zonotope -> Q.
Variable volume_ : Zonotope -> Q.
Variable minimize : (list Q -> res Q) -> list Q -> res (list Q).

(** C10.  A zonotope list that is empty or not a list, a method outside
    [normGen], [radius], [volume], a closed-form flag that is not a
    boolean, or a negative weight sum: [priv_andAveraging] raises
    [ValueError], whatever the weight computation would give. *)
Theorem priv_andAveraging_rejects (Z_cell method closedform sumofw : pyval) :
  is_nonempty_list Z_cell = false \/ is_known_method method = false \/
  is_boolean closedform = false \/ is_nonnegative_number sumofw = false ->
  priv_andAveraging norm_fro radius volume_ minimize Z_cell method closedform sumofw
  = Raise ValueError.
Proof.
  intros H. unfold priv_andAveraging.
  destruct Z_cell as [| | | | |[|first others]]; try done.
  destruct H as [H|[H|[H|H]]]; [done | | |].
  - destruct method as [| | | |s|]; simpl in H |- *; try done.
    by rewrite H.
  - destruct (negb _); [done|].
    destruct closedform; simpl in H |- *; done.
  - destruct (negb _); [done|].
    destruct closedform as [|cf| | | |]; try done.
    + destruct sumofw as [|[]|z|q|s|l]; simpl in H |- *; try done.
      * apply negb_false_iff in H. by rewrite H.
      * apply negb_false_iff in H. by rewrite H.
    + destruct sumofw as [|[]|z|q|s|l]; simpl in H |- *; try done.
      * apply negb_false_iff in H. by rewrite H.
      * apply negb_false_iff in H. by rewrite H.
Qed.

End AveragingProps.

Lemma priv_andAveraging_rejects_witness :
  priv_andAveraging norm_unused measure_unused measure_unused minimize_unused
    (PyList []) (PyStr "normGen") (PyBool true) (PyFloat 1) = Raise ValueError.
Proof.
  apply (priv_andAveraging_rejects norm_unused measure_unused measure_unused
           minimize_unused (PyList []) (PyStr "normGen") (PyBool true) (PyFloat 1)).
  left. reflexivity.
Defined.

(** ** Averaging intersection of a zonotope with itself *)

Lemma Qeq_bool_false (x y : Q) : ~ (x == y)%Q -> Qeq_bool x y = false.
Proof.
  intros H. destruct (Qeq_bool x y) eqn:E; [|done]. by apply Qeq_bool_iff in E.
Qed.

Lemma qdiv_ok (a b : Q) : ~ (b == 0)%Q -> qdiv a b = Ok (a / b)%Q.
Proof. intros H. unfold qdiv. by rewrite Qeq_bool_false. Qed.

Lemma matmul_transpose (G : mat Q) : matmul G (transpose G) = Ok (gram G).
Proof. unfold matmul, gram. simpl. by rewrite Nat.eqb_refl. Qed.

(** The closed-form weights of a pair [Z, Z] with weight sum 1. *)
Lemma closed_form_weights_pair (Zo : Zonotope) :
  ~ (generator_energy (Z_G Zo) == 0)%Q ->
  exists w, closed_form_weights [Zo; Zo] 1 = Ok [w; w] /\ (w == 1 # 2)%Q.
Proof.
  intros Ht. unfold closed_form_weights. simpl. unfold Z_generators.
  rewrite matmul_transpose. simpl. fold (generator_energy (Z_G Zo)).
  set (t := generator_energy (Z_G Zo)) in *.
  rewrite (qdiv_ok 1 t Ht). simpl.
  assert (Hs : ~ (t * (1 / t + (1 / t + 0)) == 0)%Q).
  { intros E. assert (E2 : (t * (1 / t + (1 / t + 0)) == 2)%Q) by (field; done).
    rewrite E2 in E. discriminate. }
  rewrite (qdiv_ok 1 _ Hs). simpl.
  eexists. split; [done|]. field. done.
Qed.

(** Leaving out the method, the closed-form flag and the weight sum means
    [normGen], the closed form and weight sum 1. *)
Lemma priv_andAveraging_defaults norm_fro radius volume_ minimize (Z_cell : pyval) :
  priv_andAveraging norm_fro radius volume_ minimize Z_cell PyNone PyNone PyNone
  = priv_andAveraging norm_fro radius volume_ minimize Z_cell
      (PyStr "normGen") (PyBool true) (PyFloat 1).
Proof. reflexivity. Qed.

(** With [normGen], the closed form and weight sum 1 the call comes down
    to the closed-form weights and [_catWeighted]. *)
Lemma priv_andAveraging_closed_form norm_fro radius volume_ minimize (Zs : list Zonotope)
    (first : Zonotope) :
  priv_andAveraging norm_fro radius volume_ minimize (PyList (first :: Zs))
    (PyStr "normGen") (PyBool true) (PyFloat 1)
  = (w ← closed_form_weights (first :: Zs) 1;
     '(c, G) ← _catWeighted (first :: Zs) w;
     Ok (Zonotope_cG c G)).
Proof. reflexivity. Qed.

(** [_catWeighted] on the pair [Z, Z] with one weight [w] for both. *)
Lemma catWeighted_pair (Zo : Zonotope) (w : Q) :
  _catWeighted [Zo; Zo] [w; w]
  = (G1 ← hstack (zeros (Z_dim Zo) 0) (mscale w (Z_G Zo));
     c1 ← nd_add (Arr1 (replicate (Z_dim Zo) 0%Q)) (nd_scale w (Z_c Zo));
     G2 ← hstack G1 (mscale w (Z_G Zo));
     c2 ← nd_add c1 (nd_scale w (Z_c Zo));
     c3 ← nd_div c2 (w + (w + 0))%Q;
     G3 ← mdiv G2 (w + (w + 0))%Q;
     Ok (c3, G3)).
Proof.
  unfold _catWeighted, Z_center, Z_generators.
  cbn -[nd_add hstack nd_div mdiv nd_scale mscale zeros].
  destruct (hstack (zeros (Z_dim Zo) 0) (mscale w (Z_G Zo))) as [G1|e]; [|done].
  cbn -[nd_add hstack nd_div mdiv nd_scale mscale zeros].
  destruct (nd_add (Arr1 (replicate (Z_dim Zo) 0%Q)) (nd_scale w (Z_c Zo))) as [c1|e]; [|done].
  cbn -[nd_add hstack nd_div mdiv nd_scale mscale zeros].
  destruct (hstack G1 (mscale w (Z_G Zo))) as [G2|e]; [|done].
  cbn -[nd_add hstack nd_div mdiv nd_scale mscale zeros].
  by destruct (nd_add c1 (nd_scale w (Z_c Zo))) as [c2|e].
Qed.

Lemma weight_sum_nonzero (w : Q) : (w == 1 # 2)%Q -> Qeq_bool (w + (w + 0)) 0 = false.
Proof.
  intros Hw. apply Qeq_bool_false. rewrite Hw. discriminate.
Qed.

(** The shape of a broadcast sum. *)
Lemma madd_shape (M N : mat Q) r c :
  bdim (nrows M) (nrows N) = Ok r -> bdim (ncols M) (ncols N) = Ok c ->
  exists R, madd M N = Ok R /\ nrows R = r /\ ncols R = c.
Proof.
  intros Hr Hc. unfold madd, broadcast. rewrite Hr, Hc. step.
  eexists. split; [done|]. done.
Qed.


(** ** The lifted system of two H-polytopes *)

(** The inequality block of the lifted system: [A = [[A2, -A2], [0, A1]]]
    and [b = [b2; b1]], in twice as many variables, whichever operands
    carry equality constraints. *)
Lemma lifted_Hpoly_inequalities (P1 P2 P : Polytope) (n : nat) (A1 A2 b1 b2 : mat Q) :
  P_A P1 = Some A1 -> P_A P2 = Some A2 -> P_b P1 = Some b1 -> P_b P2 = Some b2 ->
  lifted_Hpoly P1 P2 n = Ok P ->
  P_A P = Some (Mat (nrows A2 + nrows A1) (ncols A2 + ncols A2)
                  (zip_with app (rows A2) (rows (mneg A2))
                   ++ zip_with app (rows (zeros (nrows A1) (ncols A2))) (rows A1))) /\
  P_b P = Some (Mat (nrows b2 + nrows b1) (ncols b2) (rows b2 ++ rows b1)) /\
  ncols A1 = ncols A2.
Proof.
  intros HA1 HA2 Hb1 Hb2 H. unfold lifted_Hpoly in H.
  rewrite HA1, HA2, Hb1, Hb2 in H. cbn [shaped array_of] in H. step_in H.
  inv_bind H as A HA. step_in H. inv_bind H as b Hb.
  unfold block22 in HA. rewrite hstack_ok in HA by done. step_in HA.
  rewrite hstack_ok in HA by (simpl; by rewrite length_replicate || done). step_in HA.
  unfold vstack in HA, Hb. cbn [ncols nrows rows zeros mneg] in HA.
  destruct (Nat.eqb (ncols A2 + ncols A2) (ncols A2 + ncols A1)) eqn:E1; [|done].
  destruct (Nat.eqb (ncols b2) (ncols b1)); [|done].
  apply Nat.eqb_eq in E1. injection HA as <-. injection Hb as <-.
  assert (P_A P = Some (Mat (nrows A2 + nrows A1) (ncols A2 + ncols A2)
                  (zip_with app (rows A2) (map (map Qopp) (rows A2))
                   ++ zip_with app (replicate (nrows A1) (replicate (ncols A2) 0%Q)) (rows A1)))
          /\ P_b P = Some (Mat (nrows b2 + nrows b1) (ncols b2) (rows b2 ++ rows b1))) as [-> ->].
  { destruct (P_Ae P1) as [Ae1|], (P_Ae P2) as [Ae2|].
    - inv_bind H as Ae HAe. inv_bind H as be2 Hbe2. inv_bind H as be1 Hbe1.
      inv_bind H as be Hbe. by injection H as <-.
    - inv_bind H as Ae HAe. by injection H as <-.
    - inv_bind H as Ae HAe. by injection H as <-.
    - by injection H as <-. }
  split; [done|]. split; [done|]. lia.
Qed.

(** The equality block of the lifted system in the four cases: both
    operands with equality constraints give [[Ae2, -Ae2], [0, Ae1]]; only
    the first gives [[0, Ae1]]; only the second gives [[Ae2, 0]]; none
    gives no equality constraints. *)
Lemma lifted_Hpoly_equalities (P1 P2 P : Polytope) (n : nat) :
  lifted_Hpoly P1 P2 n = Ok P ->
  match P_Ae P1, P_Ae P2 with
  | Some Ae1, Some Ae2 =>
      P_Ae P = Some (Mat (nrows Ae2 + nrows Ae1) (ncols Ae2 + ncols Ae2)
                       (zip_with app (rows Ae2) (rows (mneg Ae2))
                        ++ zip_with app (rows (zeros (nrows Ae1) (ncols Ae2))) (rows Ae1)))
  | Some Ae1, None =>
      P_Ae P = Some (Mat (nrows Ae1) (n + ncols Ae1)
                       (zip_with app (rows (zeros (nrows Ae1) n)) (rows Ae1)))
      /\ P_be P = P_be P1
  | None, Some Ae2 =>
      P_Ae P = Some (Mat (nrows Ae2) (ncols Ae2 + n)
                       (zip_with app (rows Ae2) (rows (zeros (nrows Ae2) n))))
      /\ P_be P = P_be P2
  | None, None => P_Ae P = None /\ P_be P = None
  end.
Proof.
  intros H. unfold lifted_Hpoly in H.
  inv_bind H as A1 HA1. inv_bind H as A2 HA2. step_in H.
  inv_bind H as A HA. inv_bind H as b2 Hb2. inv_bind H as b1 Hb1. inv_bind H as b Hb.
  destruct (P_Ae P1) as [Ae1|], (P_Ae P2) as [Ae2|].
  - inv_bind H as Ae HAe. inv_bind H as be2 Hbe2. inv_bind H as be1 Hbe1.
    inv_bind H as be Hbe. injection H as <-. cbn [P_Ae Polytope_H].
    unfold block22 in HAe. inv_bind HAe as top Htop. inv_bind HAe as bottom Hbottom.
    unfold hstack in Htop, Hbottom.
    destruct (Nat.eqb (nrows Ae2) (nrows (mneg Ae2))); [|done].
    destruct (Nat.eqb (nrows (zeros (nrows Ae1) (ncols Ae2))) (nrows Ae1)); [|done].
    injection Htop as <-. injection Hbottom as <-. unfold vstack in HAe.
    destruct (Nat.eqb _ _); [|done]. injection HAe as <-. done.
  - inv_bind H as Ae HAe. injection H as <-. cbn [P_Ae P_be Polytope_H].
    unfold hstack in HAe. destruct (Nat.eqb _ _); [|done]. by injection HAe as <-.
  - inv_bind H as Ae HAe. injection H as <-. cbn [P_Ae P_be Polytope_H].
    unfold hstack in HAe. destruct (Nat.eqb _ _); [|done]. by injection HAe as <-.
  - by injection H as <-.
Qed.

(** C2 fails on the code where only the second operand carries equality
    constraints.  The first operand is the interval [1, 2], the second the
    point 5.  The number 6 = 1 + 5 belongs to their Minkowski sum, but the
    lifted system that [_aux_plus_Hpoly_Hpoly] hands to [project] has no
    point with first coordinate 6: its equality row is [[Ae2, 0]], which
    pins the sum itself to 5, where the branch for both operands writes
    [[Ae2, -Ae2]].  With the operands exchanged the equality falls on the
    second block and 6 is reached. *)
Theorem lifted_Hpoly_equality_of_second_operand :
  member interval_1_2 [1%Q] /\ member point_5 [5%Q] /\
  (exists lifted, lifted_Hpoly interval_1_2 point_5 1 = Ok lifted /\
     P_Ae lifted = Some (Mat 1 2 [[1%Q; 0%Q]]) /\
     (forall y : Q, non_member lifted [6%Q; y])) /\
  (exists lifted, lifted_Hpoly point_5 interval_1_2 1 = Ok lifted /\
     P_Ae lifted = Some (Mat 1 2 [[0%Q; 1%Q]]) /\
     member lifted [6%Q; 5%Q]).
Proof.
  split; [reflexivity|]. split; [reflexivity|]. split.
  - eexists. split; [reflexivity|]. split; [reflexivity|].
    intros y. unfold non_member, _contains_pointcloud.
    cbn -[Qltb Qmax Qabs Qplus Qmult Qminus].
    assert (Qltb 0 (Qabs (1 * 6 + (0 * y + 0) - 5)) = true) as ->; [|done].
    apply Qltb_true.
    assert (E : (1 * 6 + (0 * y + 0) - 5 == 1)%Q) by ring.
    rewrite E. reflexivity.
  - eexists. split; [reflexivity|]. split; reflexivity.
Qed.

(** *** A center stored as a one-dimensional array *)

Lemma dot_nil_r (r : list Q) : dot r [] = 0%Q.
Proof. unfold dot. by destruct r. Qed.

Lemma dot_nil_l (b : list Q) : dot [] b = 0%Q.
Proof. reflexivity. Qed.

Lemma dot_cons (x y : Q) (r b : list Q) : dot (x :: r) (y :: b) = (x * y + dot r b)%Q.
Proof. reflexivity. Qed.

Lemma dot_app (r1 r2 b1 b2 : list Q) :
  length r1 = length b1 ->
  (dot (r1 ++ r2) (b1 ++ b2) == dot r1 b1 + dot r2 b2)%Q.
Proof.
  revert b1. induction r1 as [|x r1 IH]; intros [|y b1] Hl; try done.
  - cbn [app]. rewrite dot_nil_l. ring.
  - cbn [app]. rewrite !dot_cons. rewrite IH by (simpl in Hl; lia). ring.
Qed.

Lemma dot_scale (k : Q) (r b : list Q) : (dot (map (Qmult k) r) b == k * dot r b)%Q.
Proof.
  revert b. induction r as [|x r IH]; intros [|y b]; cbn [map].
  - rewrite !dot_nil_l. ring.
  - rewrite !dot_nil_l. ring.
  - rewrite !dot_nil_r. ring.
  - rewrite !dot_cons, IH. ring.
Qed.

Lemma dot_Qeq_l (r r' b : list Q) : Forall2 Qeq r r' -> (dot r b == dot r' b)%Q.
Proof.
  intros H. revert b. induction H as [|x x' r r' Hx Hr IH]; intros [|y b]; try done.
  rewrite !dot_cons, IH, Hx. done.
Qed.

(** The generators of the mean of two coefficient vectors. *)
Lemma dot_mean (r b1 b2 : list Q) :
  length b1 = length r -> length b2 = length r ->
  (dot r (zip_with (fun x y => (x + y) / 2) b1 b2) == (1 # 2) * dot r b1 + (1 # 2) * dot r b2)%Q.
Proof.
  revert b1 b2. induction r as [|x r IH]; intros [|y1 b1] [|y2 b2] H1 H2; try done.
  cbn [zip_with]. rewrite !dot_cons, IH by (simpl in *; lia). field.
Qed.

Lemma Forall2_Qeq_trans (x y z : list Q) :
  Forall2 Qeq x y -> Forall2 Qeq y z -> Forall2 Qeq x z.
Proof.
  intros H. revert z. induction H as [|a b x y Hab Hxy IH]; intros z Hz;
    inversion Hz; subst; constructor.
  - by rewrite Hab.
  - by apply IH.
Qed.

Lemma Forall2_Qeq_sym (x y : list Q) : Forall2 Qeq x y -> Forall2 Qeq y x.
Proof. induction 1; constructor; [by symmetry | done]. Qed.

(** Two descriptions with equal centers, and generator rows that act
    alike on the coefficient vectors [beta] and [beta'], give the same
    point. *)
Lemma zonotope_point_Qeq (c c' : list Q) (rs rs' : list (list Q)) nc nc' n n'
    (beta beta' : list Q) :
  Forall2 Qeq c c' ->
  Forall2 (fun r r' => (dot r beta == dot r' beta')%Q) rs rs' ->
  Forall2 Qeq (zonotope_point c (Mat n nc rs) beta) (zonotope_point c' (Mat n' nc' rs') beta').
Proof.
  unfold zonotope_point. simpl. intros Hc. revert rs rs'.
  induction Hc as [|x x' c c' Hx Hc IH]; intros rs rs' Hr; [constructor|].
  destruct Hr as [|r r' rs rs' Hr Hrs]; simpl; [constructor|].
  constructor; [by rewrite Hx, Hr | by apply IH].
Qed.

Lemma mean_bounded (b1 b2 : list Q) :
  Forall (fun t => (-1 <= t)%Q /\ (t <= 1)%Q) b1 ->
  Forall (fun t => (-1 <= t)%Q /\ (t <= 1)%Q) b2 ->
  Forall (fun t => (-1 <= t)%Q /\ (t <= 1)%Q) (zip_with (fun x y => (x + y) / 2)%Q b1 b2).
Proof.
  intros H1. revert b2. induction H1 as [|x b1 [Hx1 Hx2] H1 IH]; intros b2 H2; [constructor|].
  destruct H2 as [|y b2 [Hy1 Hy2] H2]; simpl; constructor; [|by apply IH].
  split.
  - apply Qle_shift_div_l; [reflexivity | lra].
  - apply Qle_shift_div_r; [reflexivity | lra].
Qed.

(** Halving the generators and listing them twice does not change the
    zonotope. *)
Lemma in_zonotope_doubled (c : list Q) (G : mat Q) (rs' : list (list Q)) (x : list Q) :
  wf_mat G ->
  Forall2 (fun r r' => Forall2 Qeq r' (map (Qmult (1 # 2)) r ++ map (Qmult (1 # 2)) r))
          (rows G) rs' ->
  in_zonotope c (Mat (nrows G) (ncols G + ncols G) rs') x <-> in_zonotope c G x.
Proof.
  destruct G as [n g rs]. intros [Hl Hr] Hrs. unfold in_zonotope. simpl in *. split.
  - intros (beta & Hlen & Hb & Hx).
    set (b1 := take g beta). set (b2 := drop g beta).
    assert (Hl1 : length b1 = g) by (unfold b1; rewrite length_take; lia).
    assert (Hl2 : length b2 = g) by (unfold b2; rewrite length_drop; lia).
    exists (zip_with (fun x y => (x + y) / 2)%Q b1 b2).
    split; [rewrite length_zip_with; lia|]. split.
    + apply mean_bounded; [by apply Forall_take | by apply Forall_drop].
    + eapply Forall2_Qeq_trans; [exact Hx|].
      apply zonotope_point_Qeq; [by apply Forall_Forall2_diag, Forall_true|].
      clear Hx Hl. induction Hrs as [|r r' rs rs' Hr' Hrs IH]; [constructor|].
      apply Forall_cons in Hr as [Hlr Hr'']. constructor; [|by apply IH].
      rewrite (dot_Qeq_l _ _ _ Hr'), <- (take_drop g beta).
      fold b1. fold b2. rewrite dot_app by (rewrite length_map; lia).
      rewrite !dot_scale, dot_mean by lia. done.
  - intros (beta & Hlen & Hb & Hx).
    exists (beta ++ beta). split; [rewrite length_app; lia|]. split.
    + by apply Forall_app.
    + eapply Forall2_Qeq_trans; [exact Hx|].
      apply zonotope_point_Qeq; [by apply Forall_Forall2_diag, Forall_true|].
      clear Hx Hl. induction Hrs as [|r r' rs rs' Hr' Hrs IH]; [constructor|].
      apply Forall_cons in Hr as [Hlr Hr'']. constructor; [|by apply IH].
      rewrite (dot_Qeq_l _ _ _ Hr'), dot_app by (rewrite length_map; lia).
      rewrite !dot_scale. field.
Qed.

Lemma in_zonotope_center_Qeq (c c' : list Q) (G : mat Q) (x : list Q) :
  Forall2 Qeq c c' -> in_zonotope c G x <-> in_zonotope c' G x.
Proof.
  assert (Hone : forall a a' : list Q, Forall2 Qeq a a' ->
            in_zonotope a G x -> in_zonotope a' G x).
  { intros a a' Ha (beta & Hlen & Hb & Hx). exists beta.
    split; [done|]. split; [done|].
    eapply Forall2_Qeq_trans; [exact Hx|]. destruct G as [n g rs].
    apply zonotope_point_Qeq; [done|].
    apply Forall_Forall2_diag, Forall_true. intros r. reflexivity. }
  intros Hc. split; apply Hone; [done | by apply Forall2_Qeq_sym].
Qed.

(** The weighted mean of a center with itself. *)
Lemma center_mean (w ws : Q) (cv : list Q) :
  (w == 1 # 2)%Q -> (ws == 1)%Q ->
  Forall2 Qeq
    (map (fun x => x / ws)%Q
       (zip_with Qplus (zip_with Qplus (replicate (length cv) 0%Q) (map (Qmult w) cv))
                 (map (Qmult w) cv)))
    cv.
Proof.
  intros Hw Hws. induction cv as [|x cv IH]; simpl; constructor; [|done].
  rewrite Hw, Hws. field.
Qed.

(** The weighted generators of the pair, row by row. *)
Lemma generators_mean (w ws : Q) (rs : list (list Q)) :
  (w == 1 # 2)%Q -> (ws == 1)%Q ->
  Forall2 (fun r r' => Forall2 Qeq r' (map (Qmult (1 # 2)) r ++ map (Qmult (1 # 2)) r))
    rs
    (map (map (fun x => x / ws)%Q)
       (zip_with app (zip_with app (replicate (length rs) []) (map (map (Qmult w)) rs))
                 (map (map (Qmult w)) rs))).
Proof.
  intros Hw Hws. induction rs as [|r rs IH]; simpl; constructor; [|done].
  rewrite map_app. apply Forall2_app.
  - clear IH. induction r as [|x r IHr]; simpl; constructor; [|done].
    rewrite Hw, Hws. field.
  - clear IH. induction r as [|x r IHr]; simpl; constructor; [|done].
    rewrite Hw, Hws. field.
Qed.

Section FlatCenter.

Variable norm_fro : mat Q -> Q.
Variable radius : Zonotope -> Q.
Variable volume_ : Zonotope -> Q.
Variable minimize : (list Q -> res Q) -> list Q -> res (list Q).

(** What C6 says holds where the center is a one-dimensional array: the
    result has the center of [Z], the halved generators twice, and
    describes the same set as [Z]. *)
Lemma priv_andAveraging_flat_center (Zo : Zonotope) (cv : list Q) (n : nat) :
  Z_c Zo = Arr1 cv -> length cv = n ->
  wf_mat (Z_G Zo) -> nrows (Z_G Zo) = n ->
  ~ (generator_energy (Z_G Zo) == 0)%Q ->
  exists Zr cv', priv_andAveraging norm_fro radius volume_ minimize (PyList [Zo; Zo])
                   (PyStr "normGen") (PyBool true) (PyFloat 1) = Ok Zr /\
    Z_c Zr = Arr1 cv' /\ Forall2 Qeq cv' cv /\
    nrows (Z_G Zr) = n /\ ncols (Z_G Zr) = ncols (Z_G Zo) + ncols (Z_G Zo) /\
    Forall2 (fun r r' => Forall2 Qeq r' (map (Qmult (1 # 2)) r ++ map (Qmult (1 # 2)) r))
            (rows (Z_G Zo)) (rows (Z_G Zr)) /\
    (forall x, in_zonotope cv' (Z_G Zr) x <-> in_zonotope cv (Z_G Zo) x).
Proof.
  intros Hc Hlen HG Hn Ht.
  destruct (closed_form_weights_pair Zo Ht) as (w & Hw & Hhalf).
  assert (Hws : (w + (w + 0) == 1)%Q) by (rewrite Hhalf; reflexivity).
  rewrite priv_andAveraging_closed_form, Hw. step.
  rewrite catWeighted_pair. unfold Z_dim. rewrite Hc. cbn [shape nth]. rewrite Hlen.
  rewrite hstack_ok by (simpl; congruence). step.
  cbn [nd_scale nd_add]. unfold vadd.
  rewrite length_replicate, length_map, Hlen, Nat.eqb_refl. step.
  rewrite hstack_ok by (simpl; congruence). step.
  cbn [nd_add]. unfold vadd.
  rewrite length_zip_with, length_replicate, !length_map, Hlen, Nat.min_id, Nat.eqb_refl.
  step. cbn [nd_div]. unfold mdiv. rewrite (weight_sum_nonzero w Hhalf). step.
  assert (Hcm := center_mean w _ cv Hhalf Hws). rewrite Hlen in Hcm.
  destruct HG as [HGl HGr].
  assert (Hgm := generators_mean w _ (rows (Z_G Zo)) Hhalf Hws).
  rewrite HGl, Hn in Hgm.
  eexists _, _. split; [reflexivity|]. cbn [Z_c Z_G Zonotope_cG nrows ncols rows zeros mscale].
  split; [done|]. split; [exact Hcm|]. split; [done|]. split; [done|].
  split; [exact Hgm|].
  intros x. rewrite (in_zonotope_center_Qeq _ cv) by exact Hcm.
  rewrite <- Hn in Hgm |- *.
  exact (in_zonotope_doubled cv (Z_G Zo) _ x (conj HGl HGr) Hgm).
Qed.

End FlatCenter.

Example priv_andAveraging_flat_example :
  exists Zr cv', priv_andAveraging norm_unused measure_unused measure_unused minimize_unused
                   (PyList [zono_flat; zono_flat])
                   (PyStr "normGen") (PyBool true) (PyFloat 1) = Ok Zr /\
    Z_c Zr = Arr1 cv' /\ Forall2 Qeq cv' [1%Q; 2%Q] /\
    (forall x, in_zonotope cv' (Z_G Zr) x <-> in_zonotope [1%Q; 2%Q] unit_generators x).
Proof.
  destruct (priv_andAveraging_flat_center norm_unused measure_unused measure_unused
              minimize_unused zono_flat [1%Q; 2%Q] 2)
    as (Zr & cv' & Hrun & Hc & Hcv & _ & _ & _ & Hset); try reflexivity.
  - split; [reflexivity | repeat constructor].
  - vm_compute. discriminate.
  - exists Zr, cv'. done.
Qed.

(** *** A center stored as a column *)

Section ColumnCenter.

Variable norm_fro : mat Q -> Q.
Variable radius : Zonotope -> Q.
Variable volume_ : Zonotope -> Q.
Variable minimize : (list Q -> res Q) -> list Q -> res (list Q).

(** C6 fails on the code for a center stored as a column.  For a zonotope
    of dimension [n >= 2] whose center has shape [(n, 1)],
    [priv_andAveraging([Z, Z])] hands the constructor a center of shape
    [(n, n)]: [_catWeighted] starts from the one-dimensional [np.zeros(n)],
    and adding a column to it broadcasts to a square array. *)
Theorem priv_andAveraging_column_center (Zo : Zonotope) (c : mat Q) (n : nat) :
  Z_c Zo = Arr2 c -> nrows c = n -> ncols c = 1 -> 2 <= n ->
  nrows (Z_G Zo) = n ->
  ~ (generator_energy (Z_G Zo) == 0)%Q ->
  exists Zr c', priv_andAveraging norm_fro radius volume_ minimize (PyList [Zo; Zo])
                  (PyStr "normGen") (PyBool true) (PyFloat 1) = Ok Zr /\
    Z_c Zr = Arr2 c' /\ nrows c' = n /\ ncols c' = n.
Proof.
  intros Hc Hr Hcol Hn HG Ht.
  destruct (closed_form_weights_pair Zo Ht) as (w & Hw & Hhalf).
  rewrite priv_andAveraging_closed_form, Hw. step.
  rewrite catWeighted_pair. unfold Z_dim. rewrite Hc. cbn [shape nth].
  rewrite hstack_ok by (simpl; congruence). step.
  cbn [nd_scale nd_add].
  destruct (madd_shape (Mat 1 (length (replicate (nrows c) 0%Q)) [replicate (nrows c) 0%Q])
              (mscale w c) n n) as (R1 & -> & Hr1 & Hc1).
  { simpl. rewrite Hr. unfold bdim. destruct n as [|[|n]]; [lia | lia | done]. }
  { simpl. rewrite length_replicate, Hr, Hcol. unfold bdim.
    destruct n as [|[|n]]; [lia | lia | done]. }
  step. rewrite hstack_ok by (simpl; congruence). step.
  cbn [nd_scale nd_add].
  destruct (madd_shape R1 (mscale w c) n n) as (R2 & -> & Hr2 & Hc2).
  { simpl. rewrite Hr1, Hr. unfold bdim. by rewrite Nat.eqb_refl. }
  { simpl. rewrite Hc1, Hcol. unfold bdim. destruct n as [|[|n]]; [lia | lia | done]. }
  step. cbn [nd_div]. unfold mdiv. rewrite (weight_sum_nonzero w Hhalf). step.
  eexists _, _. split; [done|]. simpl. done.
Qed.

End ColumnCenter.

Lemma priv_andAveraging_column_center_witness :
  exists Zr c', priv_andAveraging norm_unused measure_unused measure_unused minimize_unused
                  (PyList [zono_column; zono_column])
                  (PyStr "normGen") (PyBool true) (PyFloat 1) = Ok Zr /\
    Z_c Zr = Arr2 c' /\ nrows c' = 2 /\ ncols c' = 2.
Proof.
  apply (priv_andAveraging_column_center norm_unused measure_unused measure_unused
           minimize_unused zono_column (Mat 2 1 [[1%Q]; [2%Q]]) 2);
    try reflexivity.
  vm_compute. discriminate.
Defined.

(** * Further properties of the code *)

(** ** Reachable sets *)

(** A loop that appends the indices passing a test keeps them in order. *)
Lemma foldl_append_filter (test : nat -> bool) (idxs : list nat) (out : list nat) :
  foldl (fun out i => if test i then out ++ [i] else out) out idxs
  = out ++ List.filter test idxs.
Proof.
  revert out. induction idxs as [|i idxs IH]; intros out; simpl.
  - by rewrite app_nil_r.
  - rewrite IH. destruct (test i); [by rewrite <- app_assoc | done].
Qed.

Lemma filter_seq_sorted (test : nat -> bool) (k n : nat) :
  StronglySorted lt (List.filter test (seq k n)).
Proof.
  revert k. induction n as [|n IH]; intros k; simpl; [constructor|].
  destruct (test k); [|apply IH].
  constructor; [apply IH|].
  apply Forall_forall. intros j Hj. apply list_elem_of_In, filter_In in Hj as [Hj _].
  apply in_seq in Hj. lia.
Qed.

(** X1.  [children] returns exactly the indices of the members whose
    parent is [parent], the index [parent] itself left out. *)
Theorem children_characterised (R_list : list (option Z)) (parent : Z) (i : nat) :
  i ∈ children R_list parent <->
  Z.of_nat i <> parent /\ R_list !! i = Some (Some parent).
Proof.
  unfold children. rewrite foldl_append_filter. simpl.
  rewrite list_elem_of_In, filter_In, in_seq, andb_true_iff, negb_true_iff, Z.eqb_neq.
  split.
  - intros [_ [Hne Hp]]. split; [done|].
    destruct (R_list !! i) as [[p|]|]; try done. apply Z.eqb_eq in Hp. by subst.
  - intros [Hne Hp]. split.
    + apply lookup_lt_Some in Hp. lia.
    + split; [done|]. rewrite Hp. apply Z.eqb_refl.
Qed.

(** X2.  The indices come in increasing order, each once, and a member is
    the child of at most one parent. *)
Theorem children_increasing_and_disjoint (R_list : list (option Z)) (p q : Z) :
  StronglySorted lt (children R_list p) /\
  NoDup (children R_list p) /\
  (forall i, i ∈ children R_list p -> i ∈ children R_list q -> p = q).
Proof.
  split; [|split].
  - unfold children. rewrite foldl_append_filter. apply filter_seq_sorted.
  - unfold children. rewrite foldl_append_filter. simpl.
    apply NoDup_ListNoDup, List.NoDup_filter, seq_NoDup.
  - intros i Hp Hq.
    assert (Hp' : Z.of_nat i <> p /\ R_list !! i = Some (Some p)).
    { unfold children in Hp. rewrite foldl_append_filter in Hp. simpl in Hp.
      rewrite list_elem_of_In, filter_In, andb_true_iff, negb_true_iff, Z.eqb_neq in Hp.
      destruct Hp as [_ [Hne Hx]]. split; [done|].
      destruct (R_list !! i) as [[x|]|]; try done. apply Z.eqb_eq in Hx. by subst. }
    assert (Hq' : R_list !! i = Some (Some q)).
    { unfold children in Hq. rewrite foldl_append_filter in Hq. simpl in Hq.
      rewrite list_elem_of_In, filter_In, andb_true_iff in Hq.
      destruct Hq as [_ [_ Hx]].
      destruct (R_list !! i) as [[x|]|]; try done. apply Z.eqb_eq in Hx. by subst. }
    destruct Hp' as [_ Hp']. congruence.
Qed.

(** *** The time step of equidistant time points *)



Lemma np_diff_app_const (h : Q) (l1 l2 : list Q) :
  Forall (fun d => (d == h)%Q) l1 -> Forall (fun d => (d == h)%Q) l2 ->
  Forall (fun d => (d == h)%Q) (l1 ++ l2).
Proof. intros H1 H2. by apply Forall_app. Qed.







(** *** The hybrid flag *)

Lemma numeric_step_hybrid (times : list time_val) (acc : list Q) (hybrid : bool) :
  snd (foldl numeric_step (acc, hybrid) times) = hybrid || existsb is_interval_time times.
Proof.
  revert acc hybrid. induction times as [|tv times IH]; intros acc hybrid.
  - by rewrite orb_false_r.
  - cbn [foldl existsb]. destruct tv; cbn [numeric_step is_interval_time]; rewrite IH;
      by destruct hybrid.
Qed.

Lemma object_step_hybrid {set_obj} (R_obj : ReachSet set_obj) (dt : list Q) (hybrid : bool) :
  snd (object_step (dt, hybrid) R_obj) = hybrid || has_interval_times R_obj.
Proof.
  unfold object_step, has_interval_times. destruct (point_times R_obj) as [times|].
  - pose proof (numeric_step_hybrid times [] hybrid) as H.
    destruct (foldl numeric_step ([], hybrid) times) as [numeric_times hybrid'].
    simpl in H. by destruct (Nat.ltb 1 (length numeric_times)).
  - by rewrite orb_false_r.
Qed.

(** X4.  The flag [hybrid] that [timeStepSize] returns is [True] exactly
    when some object that is not skipped (its time-point dictionary has a
    non-empty list of times) has an entry with an attribute [infimum] or
    [inf] among its times. *)
Theorem timeStepSize_hybrid_flag {set_obj} (R_list : list (ReachSet set_obj)) :
  snd (timeStepSize R_list) = existsb has_interval_times R_list.
Proof.
  unfold timeStepSize.
  assert (H : forall dt hybrid,
            snd (foldl object_step (dt, hybrid) R_list)
            = hybrid || existsb has_interval_times R_list).
  { induction R_list as [|R_obj R_list IH]; intros dt hybrid.
    - by rewrite orb_false_r.
    - cbn [foldl existsb].
      pose proof (object_step_hybrid R_obj dt hybrid) as Hs.
      destruct (object_step (dt, hybrid) R_obj) as [dt' hybrid'].
      simpl in Hs. rewrite IH, Hs. by rewrite orb_assoc. }
  specialize (H [] false).
  destruct (foldl object_step ([], false) R_list) as [dt hybrid]. simpl in H.
  by destruct (Nat.ltb 0 (length dt) && forallb _ (np_diff dt)).
Qed.

(** ** Further properties of the containment check *)

Section ContainsMore.

Variable linalg_norm : mat Q -> Q.

(** The shape of what a run returns: scalars for a single point, arrays
    with one entry per point otherwise. *)
Lemma pointcloud_shape P points method tol certToggle sc out cert scaling :
  _contains_pointcloud linalg_norm P points method tol certToggle sc
    = Ok (out, cert, scaling) ->
  let m := ncols (as_points points) in
  (m = 1 /\ exists r s, out = BScalar r /\ scaling = FScalar s) \/
  (m <> 1 /\ exists rs ss, out = BArray rs /\ scaling = FArray ss /\
             length rs = m /\ length ss = m).
Proof.
  intros Hrun m. unfold _contains_pointcloud in Hrun.
  destruct (P_A P) as [A|]; [|done]. fold m in Hrun.
  inv_bind Hrun as [results scal] Hloop.
  apply loop_outcomes in Hloop as (Hl1 & Hl2 & _ & _).
  2: apply NoDup_seq.
  2: by rewrite !length_replicate.
  2: { intros i Hi. apply elem_of_seq in Hi. rewrite length_replicate. lia. }
  rewrite length_replicate in Hl1. rewrite length_replicate in Hl2.
  destruct (Nat.eqb m 1) eqn:Em.
  - apply Nat.eqb_eq in Em. injection Hrun as <- <- <-. left. eauto.
  - apply Nat.eqb_neq in Em. injection Hrun as <- <- <-. right. split; [done|].
    eexists _, _. split; [done|]. split; [done|]. split; [done|].
    destruct sc; [|done]. unfold clip_contained. rewrite length_zip_with. lia.
Qed.

(** Without a request for scaling no iteration writes a scaling factor. *)
Lemma point_outcome_unwritten P A points tol i r written :
  point_outcome linalg_norm P A points tol false i = Ok (r, written) -> written = None.
Proof.
  unfold point_outcome, inequality_test. intros H. inv_bind H as [c1 w] H1.
  inv_bind H as c2 H2. injection H as <- <-.
  destruct (Nat.ltb 0 (nrows A)).
  - inv_bind H1 as mv Hmv. by injection H1 as _ <-.
  - by injection H1 as _ <-.
Qed.

(** The tests of the halfspace check loosen with the tolerance. *)
Lemma ineq_within_mono A b point tol tol' :
  (tol <= tol')%Q -> ineq_within A b point tol -> ineq_within A b point tol'.
Proof. intros Hle (mv & Hmv & H). exists mv. split; [done|]. by eapply Qle_trans. Qed.

Lemma eq_within_mono Ae be point tol tol' :
  (tol <= tol')%Q -> eq_within Ae be point tol -> eq_within Ae be point tol'.
Proof. intros Hle (me & Hme & H). exists me. split; [done|]. by eapply Qle_trans. Qed.

(** X5.  Containment is monotone in the tolerance: a point reported as
    contained with tolerance [tol] is reported as contained with every
    larger tolerance. *)
Theorem contains_pointcloud_tolerance_monotone
    P A points method tol tol' certToggle scalingToggle :
  shapes_fit P A (as_points points) -> (tol <= tol')%Q ->
  exists out cert scaling out' cert' scaling',
    _contains_pointcloud linalg_norm P points method tol certToggle scalingToggle
      = Ok (out, cert, scaling) /\
    _contains_pointcloud linalg_norm P points method tol' certToggle scalingToggle
      = Ok (out', cert', scaling') /\
    forall i, i < ncols (as_points points) ->
      flag_at out i = Some true -> flag_at out' i = Some true.
Proof.
  intros Hfit Hle.
  destruct (pointcloud_defined linalg_norm P A points method tol certToggle scalingToggle Hfit)
    as (out & cert & scaling & Hrun).
  destruct (pointcloud_defined linalg_norm P A points method tol' certToggle scalingToggle Hfit)
    as (out' & cert' & scaling' & Hrun').
  exists out, cert, scaling, out', cert', scaling'.
  split; [done|]. split; [done|]. intros i Hi Hflag.
  destruct Hfit as [HA _].
  destruct (pointcloud_flags linalg_norm _ _ _ _ _ _ _ _ _ _ i HA Hrun Hi) as (r & Hr & Hiff).
  destruct (pointcloud_flags linalg_norm _ _ _ _ _ _ _ _ _ _ i HA Hrun' Hi) as (r' & Hr' & Hiff').
  rewrite Hr in Hflag. injection Hflag as ->. rewrite Hr'. f_equal. apply Hiff'.
  destruct (proj1 Hiff eq_refl) as [H1 H2]. split.
  - intros Hn. eapply ineq_within_mono; eauto.
  - intros Ae HAe Hn. eapply eq_within_mono; eauto.
Qed.

(** X6.  When no scaling is requested, every reported scaling factor is
    [+inf], for contained points as well. *)
Theorem contains_pointcloud_without_scaling P A points method tol certToggle :
  shapes_fit P A (as_points points) ->
  exists out cert scaling,
    _contains_pointcloud linalg_norm P points method tol certToggle false
      = Ok (out, cert, scaling) /\
    forall i, i < ncols (as_points points) -> scaling_at scaling i = Some PInf.
Proof.
  intros Hfit.
  destruct (pointcloud_defined linalg_norm P A points method tol certToggle false Hfit)
    as (out & cert & scaling & Hrun).
  exists out, cert, scaling. split; [done|]. intros i Hi.
  destruct Hfit as [HA _].
  destruct (pointcloud_outcomes linalg_norm _ _ _ _ _ _ _ _ _ _ HA Hrun) as [_ Hpts].
  destruct (Hpts i Hi) as (r & written & Ho & _ & Hs).
  apply point_outcome_unwritten in Ho as ->. by rewrite Hs.
Qed.

(** X7.  The answer for a single point is a pair of scalars; for any other
    number of points (none included) it is a pair of arrays with one entry
    per point. *)
Theorem contains_pointcloud_output_shape P A points method tol certToggle scalingToggle :
  shapes_fit P A (as_points points) ->
  exists out cert scaling,
    _contains_pointcloud linalg_norm P points method tol certToggle scalingToggle
      = Ok (out, cert, scaling) /\
    ((ncols (as_points points) = 1 /\ exists r s, out = BScalar r /\ scaling = FScalar s) \/
     (ncols (as_points points) <> 1 /\
      exists rs ss, out = BArray rs /\ scaling = FArray ss /\
        length rs = ncols (as_points points) /\ length ss = ncols (as_points points))).
Proof.
  intros Hfit.
  destruct (pointcloud_defined linalg_norm P A points method tol certToggle scalingToggle Hfit)
    as (out & cert & scaling & Hrun).
  exists out, cert, scaling. split; [done|]. by eapply pointcloud_shape.
Qed.

(** *** One query for many points and one query per point *)

Lemma col_slice_idem (M : mat Q) i :
  i < ncols M -> col_slice (col_slice M i) 0 = col_slice M i.
Proof.
  intros Hi. unfold col_slice. cbn [nrows ncols rows]. f_equal; [lia|].
  rewrite map_map. apply map_ext. intros r. rewrite drop_0. by rewrite take_take.
Qed.

(** The query for a single point, from the outcome of that point. *)
Lemma single_point_run P A (point : mat Q) method tol certToggle sc r written :
  P_A P = Some A -> ncols point = 1 ->
  point_outcome linalg_norm P A point tol sc 0 = Ok (r, written) ->
  _contains_pointcloud linalg_norm P (Arr2 point) method tol certToggle sc
  = Ok (BScalar r, true,
        FScalar (let s0 := default PInf written in
                 if sc && r then xmin s0 (Fin 1) else s0)).
Proof.
  intros HA Hc Ho. unfold _contains_pointcloud. cbn [as_points]. rewrite HA, Hc.
  cbn [seq replicate]. rewrite for_each_cons, check_point_outcome, Ho. step.
  cbn [for_each]. step. cbn [Nat.eqb].
  destruct written as [s|], sc, r; reflexivity.
Qed.

(** X8.  A query for a point cloud agrees with the queries for its
    points one at a time: the flag and the scaling factor reported for
    column [i] are what the query for that column alone returns. *)
Theorem contains_pointcloud_columnwise
    P points method tol certToggle scalingToggle out cert scaling i :
  _contains_pointcloud linalg_norm P points method tol certToggle scalingToggle
    = Ok (out, cert, scaling) ->
  i < ncols (as_points points) ->
  exists r s,
    _contains_pointcloud linalg_norm P (Arr2 (col_slice (as_points points) i))
      method tol certToggle scalingToggle = Ok (BScalar r, true, FScalar s) /\
    flag_at out i = Some r /\ scaling_at scaling i = Some s.
Proof.
  intros Hrun Hi. destruct (P_A P) as [A|] eqn:HA.
  2: { unfold _contains_pointcloud in Hrun. by rewrite HA in Hrun. }
  destruct (pointcloud_outcomes linalg_norm _ _ _ _ _ _ _ _ _ _ HA Hrun) as [_ Hpts].
  destruct (Hpts i Hi) as (r & written & Ho & Hf & Hs).
  eexists r, _. split; [|split; [exact Hf | exact Hs]].
  apply single_point_run with (A := A); [done | by apply col_slice_shape |].
  unfold point_outcome in *. by rewrite col_slice_idem.
Qed.

(** *** A polytope without constraint rows *)

Lemma pointcloud_defined_from_outcomes P A points method tol certToggle sc :
  P_A P = Some A ->
  (forall i, i < ncols (as_points points) ->
     exists r written,
       point_outcome linalg_norm P A (as_points points) tol sc i = Ok (r, written)) ->
  exists out cert scaling,
    _contains_pointcloud linalg_norm P points method tol certToggle sc
      = Ok (out, cert, scaling).
Proof.
  intros HA Hpts. unfold _contains_pointcloud. rewrite HA.
  destruct (for_each_defined (check_point linalg_norm P A (as_points points) tol sc)
              (seq 0 (ncols (as_points points))))
    with (s := (replicate (ncols (as_points points)) false,
                replicate (ncols (as_points points)) PInf)) as [[results scal] ->].
  - intros i [results scal] Hi. apply elem_of_seq in Hi.
    rewrite check_point_outcome.
    destruct (Hpts i) as (r & w & ->); [lia|]. step. eauto.
  - step. destruct (Nat.eqb _ 1); eauto.
Qed.

(** X10.  A polytope without inequality rows and without equality rows
    contains every point it is asked about, whatever the number of
    coordinates of the point: the check never compares that number with
    the dimension of the polytope.  With scaling requested each point
    reports 1, and [+inf] otherwise. *)
Theorem contains_pointcloud_unconstrained P A points method tol certToggle scalingToggle :
  P_A P = Some A -> nrows A = 0 ->
  (forall Ae, P_Ae P = Some Ae -> nrows Ae = 0) ->
  exists out cert scaling,
    _contains_pointcloud linalg_norm P points method tol certToggle scalingToggle
      = Ok (out, cert, scaling) /\
    forall i, i < ncols (as_points points) ->
      flag_at out i = Some true /\
      scaling_at scaling i = Some (if scalingToggle then Fin 1 else PInf).
Proof.
  intros HA Hn HAe.
  assert (Hpts : forall i,
    point_outcome linalg_norm P A (as_points points) tol scalingToggle i = Ok (true, None)).
  { intros i. unfold point_outcome, inequality_test, equality_test. rewrite Hn. simpl.
    destruct (P_Ae P) as [Ae|] eqn:E; [|done]. by rewrite (HAe Ae eq_refl). }
  destruct (pointcloud_defined_from_outcomes P A points method tol certToggle scalingToggle HA)
    as (out & cert & scaling & Hrun); [intros i _; eauto|].
  exists out, cert, scaling. split; [done|]. intros i Hi.
  destruct (pointcloud_outcomes linalg_norm _ _ _ _ _ _ _ _ _ _ HA Hrun) as [_ Hall].
  destruct (Hall i Hi) as (r & written & Ho & Hf & Hs). rewrite Hpts in Ho.
  injection Ho as <- <-. split; [done|]. rewrite Hs. by destruct scalingToggle.
Qed.

End ContainsMore.

Lemma segment_fits : shapes_fit segment segment_A (as_points three_points).
Proof.
  split; [reflexivity|]. split; [reflexivity|]. split.
  - intros _. exists segment_b. split; [reflexivity|]. split; reflexivity.
  - intros Ae H. discriminate H.
Qed.

Lemma contains_pointcloud_tolerance_monotone_witness :
  exists out cert scaling out' cert' scaling',
    _contains_pointcloud norm_rat segment three_points "exact" 1e-12 true false
      = Ok (out, cert, scaling) /\
    _contains_pointcloud norm_rat segment three_points "exact" 1e-6 true false
      = Ok (out', cert', scaling') /\
    forall i, i < ncols (as_points three_points) ->
      flag_at out i = Some true -> flag_at out' i = Some true.
Proof.
  apply (contains_pointcloud_tolerance_monotone norm_rat segment segment_A three_points
           "exact" 1e-12 1e-6 true false).
  - apply segment_fits.
  - unfold Qle. simpl. lia.
Defined.

Lemma contains_pointcloud_without_scaling_witness :
  exists out cert scaling,
    _contains_pointcloud norm_rat segment three_points "exact" 1e-12 true false
      = Ok (out, cert, scaling) /\
    forall i, i < ncols (as_points three_points) -> scaling_at scaling i = Some PInf.
Proof.
  apply (contains_pointcloud_without_scaling norm_rat segment segment_A three_points
           "exact" 1e-12 true).
  apply segment_fits.
Defined.

Lemma contains_pointcloud_output_shape_witness :
  exists out cert scaling,
    _contains_pointcloud norm_rat segment three_points "exact" 1e-12 true true
      = Ok (out, cert, scaling) /\
    ((ncols (as_points three_points) = 1 /\
      exists r s, out = BScalar r /\ scaling = FScalar s) \/
     (ncols (as_points three_points) <> 1 /\
      exists rs ss, out = BArray rs /\ scaling = FArray ss /\
        length rs = ncols (as_points three_points) /\
        length ss = ncols (as_points three_points))).
Proof.
  apply (contains_pointcloud_output_shape norm_rat segment segment_A three_points
           "exact" 1e-12 true true).
  apply segment_fits.
Defined.

Lemma contains_pointcloud_columnwise_witness :
  exists r s,
    _contains_pointcloud norm_rat segment (Arr2 (col_slice (as_points three_points) 2))
      "exact" 1e-12 true true = Ok (BScalar r, true, FScalar s) /\
    flag_at (BArray [true; true; false]) 2 = Some r /\
    scaling_at (FArray [Fin 1; Fin 1; Fin (1 + 2 / 5)]) 2 = Some s.
Proof.
  apply (contains_pointcloud_columnwise norm_rat segment three_points "exact" 1e-12
           true true (BArray [true; true; false]) true
           (FArray [Fin 1; Fin 1; Fin (1 + 2 / 5)]) 2).
  - vm_compute. reflexivity.
  - simpl. lia.
Defined.


Lemma contains_pointcloud_unconstrained_witness :
  exists out cert scaling,
    _contains_pointcloud norm_rat (Polytope_Inf 2) three_points "exact" 1e-12 true true
      = Ok (out, cert, scaling) /\
    forall i, i < ncols (as_points three_points) ->
      flag_at out i = Some true /\
      scaling_at scaling i = Some (if true then Fin 1 else PInf).
Proof.
  apply (contains_pointcloud_unconstrained norm_rat (Polytope_Inf 2) (zeros 0 2)
           three_points "exact" 1e-12 true true).
  - reflexivity.
  - reflexivity.
  - intros Ae H. discriminate H.
Defined.

(** ** Further properties of the averaging intersection *)

(** *** The closed-form weights *)

Lemma mapM_ok {T U} (f : T -> res U) (g : T -> U) (l : list T) :
  Forall (fun x => f x = Ok (g x)) l -> mapM f l = Ok (map g l).
Proof.
  induction 1 as [|x l Hx Hl IH]; [done|]. cbn [mapM map]. rewrite Hx. step.
  rewrite IH. done.
Qed.

Lemma energies_ok (Z_cell : list Zonotope) :
  mapM (fun Zi => let G := Z_generators Zi in trace <$> matmul G (transpose G)) Z_cell
  = Ok (energies Z_cell).
Proof.
  apply mapM_ok, Forall_forall. intros Zi _. cbn zeta. unfold Z_generators.
  by rewrite matmul_transpose.
Qed.

Lemma qsum_pos (l : list Q) :
  l <> [] -> Forall (fun x => (0 < x)%Q) l -> (0 < qsum l)%Q.
Proof.
  intros Hne H. destruct H as [|x l Hx Hl]; [done|]. clear Hne.
  revert x Hx. induction Hl as [|y l Hy Hl IH]; intros x Hx; simpl.
  - by rewrite Qplus_0_r.
  - specialize (IH y Hy). simpl in IH.
    apply Qlt_le_trans with (y := (x + 0)%Q); [by rewrite Qplus_0_r|].
    apply Qplus_le_r. by apply Qlt_le_weak.
Qed.

Lemma qsum_scaled (k : Q) (l : list Q) :
  (qsum (map (fun t => k * t) l) == k * qsum l)%Q.
Proof. induction l as [|x l IH]; simpl; [ring | rewrite IH; ring]. Qed.

Lemma qsum_Qeq (l l' : list Q) : Forall2 Qeq l l' -> (qsum l == qsum l')%Q.
Proof. induction 1 as [|x y l l' Hx Hl IH]; simpl; [done | by rewrite Hx, IH]. Qed.

Lemma positive_nonzero (t : Q) : (0 < t)%Q -> ~ (t == 0)%Q.
Proof. intros H E. rewrite E in H. by apply Qlt_irrefl in H. Qed.

Lemma energies_positive (Z_cell : list Zonotope) :
  Forall (fun Zi => (0 < generator_energy (Z_G Zi))%Q) Z_cell ->
  Forall (fun t => (0 < t)%Q) (energies Z_cell).
Proof. intros H. apply Forall_fmap. eapply Forall_impl; [exact H|]. by intros Zi Hx. Qed.

Lemma inverse_energy_sum_positive (Z_cell : list Zonotope) :
  Z_cell <> [] ->
  Forall (fun Zi => (0 < generator_energy (Z_G Zi))%Q) Z_cell ->
  (0 < inverse_energy_sum Z_cell)%Q.
Proof.
  intros Hne Hpos. apply qsum_pos.
  - unfold energies. by destruct Z_cell.
  - apply Forall_fmap. eapply Forall_impl; [exact (energies_positive _ Hpos)|].
    intros t H. simpl. unfold Qdiv. rewrite Qmult_1_l. by apply Qinv_lt_0_compat.
Qed.

(** The weights the closed form computes. *)
Lemma closed_form_weights_ok (Z_cell : list Zonotope) (sumofw : Q) :
  Z_cell <> [] ->
  Forall (fun Zi => (0 < generator_energy (Z_G Zi))%Q) Z_cell ->
  closed_form_weights Z_cell sumofw
  = Ok (map (fun t => sumofw / (t * inverse_energy_sum Z_cell))%Q (energies Z_cell)).
Proof.
  intros Hne Hpos. unfold closed_form_weights. rewrite energies_ok. step.
  pose proof (energies_positive _ Hpos) as Ht.
  pose proof (inverse_energy_sum_positive _ Hne Hpos) as HS.
  rewrite (mapM_ok (qdiv 1) (fun t => 1 / t)%Q).
  2: { eapply Forall_impl; [exact Ht|]. intros t H. simpl. apply qdiv_ok.
       by apply positive_nonzero. }
  step. fold (inverse_energy_sum Z_cell).
  rewrite (mapM_ok _ (fun t => sumofw / (t * inverse_energy_sum Z_cell))%Q); [done|].
  eapply Forall_impl; [exact Ht|]. intros t H. simpl. apply qdiv_ok.
  apply positive_nonzero. by apply Qmult_lt_0_compat.
Qed.

Lemma closed_form_weights_total (sumofw S : Q) (tVec : list Q) :
  (0 < S)%Q -> Forall (fun t => (0 < t)%Q) tVec ->
  (qsum (map (fun t => sumofw / (t * S))%Q tVec)
   == sumofw / S * qsum (map (fun t => 1 / t)%Q tVec))%Q.
Proof.
  intros HS Ht. rewrite <- qsum_scaled, map_map. apply qsum_Qeq.
  induction Ht as [|t l Hx Hl IH]; simpl; constructor; [|exact IH].
  field. split; by apply positive_nonzero.
Qed.

(** X11.  For a non-empty list of zonotopes with positive generator
    energies [t_i = trace(G_i G_iᵀ)] the closed-form weights are
    [w_i = sumofw / (t_i · Σ_j 1/t_j)]: one weight per zonotope, summing up
    to [sumofw], and none negative when [sumofw] is not. *)
Theorem closed_form_weights_sum (Z_cell : list Zonotope) (sumofw : Q) :
  Z_cell <> [] ->
  Forall (fun Zi => (0 < generator_energy (Z_G Zi))%Q) Z_cell ->
  exists w,
    closed_form_weights Z_cell sumofw = Ok w /\
    length w = length Z_cell /\
    (qsum w == sumofw)%Q /\
    (forall i Zi wi, Z_cell !! i = Some Zi -> w !! i = Some wi ->
       (wi == sumofw / (generator_energy (Z_G Zi) * inverse_energy_sum Z_cell))%Q) /\
    ((0 <= sumofw)%Q -> Forall (fun wi => (0 <= wi)%Q) w).
Proof.
  intros Hne Hpos. rewrite (closed_form_weights_ok _ _ Hne Hpos).
  pose proof (energies_positive _ Hpos) as Ht.
  pose proof (inverse_energy_sum_positive _ Hne Hpos) as HS.
  eexists. split; [done|]. split; [|split; [|split]].
  - unfold energies. by rewrite !length_map.
  - rewrite (closed_form_weights_total _ _ _ HS Ht).
    fold (inverse_energy_sum Z_cell). field. by apply positive_nonzero.
  - intros i Zi wi HZ Hw. unfold energies in Hw.
    rewrite map_map, list_lookup_fmap, HZ in Hw. by injection Hw as <-.
  - intros Hs. apply Forall_fmap. eapply Forall_impl; [exact Ht|]. intros t H. simpl.
    apply Qle_shift_div_l; [by apply Qmult_lt_0_compat|]. by rewrite Qmult_0_l.
Qed.

(** *** Weighted centers and concatenated generators *)

Lemma for_enumerate_cons {T St} (body : nat -> T -> St -> res St) i x l s :
  for_enumerate body i (x :: l) s = body i x s ≫= for_enumerate body (i + 1) l.
Proof. reflexivity. Qed.

Lemma index_ok {T} (l : list T) i x : l !! i = Some x -> index l i = Ok x.
Proof. intros H. unfold index. by rewrite H. Qed.

(** The loop of [_catWeighted] on zonotopes with one-dimensional centers. *)
Lemma catWeighted_loop (n : nat) (w : list Q) (zonolist : list Zonotope)
    (cs : list (list Q)) :
  Forall2 (fun Zi cv => Z_c Zi = Arr1 cv /\ length cv = n /\ nrows (Z_G Zi) = n)
          zonolist cs ->
  forall i cv0 G0,
  length w = i + length zonolist -> length cv0 = n -> nrows G0 = n ->
  exists cv G,
    for_enumerate (fun i Zi '(c, G) =>
      let G_i := Z_generators Zi in
      let c_i := Z_center Zi in
      w_i ← index w i;
      G ← hstack G (mscale w_i G_i);
      c ← nd_add c (nd_scale w_i c_i);
      Ok (c, G)) i zonolist (Arr1 cv0, G0) = Ok (Arr1 cv, G) /\
    length cv = n /\ nrows G = n /\
    ncols G = ncols G0 + generator_count zonolist /\
    forall k, k < n ->
      (nth k cv 0 == nth k cv0 0 + weighted_coordinate (drop i w) cs k)%Q.
Proof.
  induction 1 as [|Zi cv zonolist cs (Hc & Hl & Hr) Hrest IH]; intros i cv0 G0 Hw Hl0 Hr0.
  - exists cv0, G0. split; [done|]. split; [done|]. split; [done|].
    split; [unfold generator_count; simpl; lia|]. intros k Hk.
    unfold weighted_coordinate. rewrite zip_with_nil_r. simpl. ring.
  - rewrite for_enumerate_cons.
    destruct (w !! i) as [w_i|] eqn:Ew.
    2: { apply lookup_ge_None in Ew. simpl in Hw. lia. }
    cbn beta iota zeta. rewrite (index_ok _ _ _ Ew). step. unfold Z_generators, Z_center.
    rewrite hstack_ok by (simpl; lia). step. rewrite Hc. cbn [nd_scale nd_add].
    unfold vadd. rewrite length_map, Hl0, Hl, Nat.eqb_refl. step.
    destruct (IH (i + 1) (zip_with Qplus cv0 (map (Qmult w_i) cv))
                 (Mat (nrows G0) (ncols G0 + ncols (mscale w_i (Z_G Zi)))
                      (zip_with app (rows G0) (rows (mscale w_i (Z_G Zi))))))
      as (cv' & G' & Hrun & Hl' & Hr' & Hc' & Hk').
    + simpl in Hw. lia.
    + rewrite length_zip_with, length_map. lia.
    + done.
    + exists cv', G'. split; [exact Hrun|]. split; [done|]. split; [done|]. split.
      * rewrite Hc'. unfold generator_count. simpl. lia.
      * intros k Hk. rewrite (Hk' k Hk).
        rewrite (drop_S w w_i i Ew). unfold weighted_coordinate. cbn [zip_with qsum foldr].
        replace (i + 1) with (S i) by lia.
        assert (E : (nth k (zip_with Qplus cv0 (map (Qmult w_i) cv)) 0
                     == nth k cv0 0 + w_i * nth k cv 0)%Q).
        { clear -Hl0 Hl Hk. revert k cv n Hl0 Hl Hk.
          induction cv0 as [|x cv0 IHc]; intros k [|y cv] n Hl0 Hl Hk; simpl in *; try lia.
          destruct k as [|k]; [done|]. apply (IHc k cv (length cv0)); lia. }
        rewrite E. unfold qsum. ring.
Qed.

(** X12.  On zonotopes of dimension [n] whose centers are one-dimensional
    arrays, with one weight per zonotope and a weight sum other than zero,
    [_catWeighted] returns the center [Σ w_i·c_i / Σ w_i] and a generator
    matrix of [n] rows that has as many columns as all the zonotopes have
    generators together: no generator is dropped or merged. *)
Theorem catWeighted_weighted_mean (n : nat) (w : list Q) (zonolist : list Zonotope)
    (cs : list (list Q)) :
  zonolist <> [] ->
  Forall2 (fun Zi cv => Z_c Zi = Arr1 cv /\ length cv = n /\ nrows (Z_G Zi) = n)
          zonolist cs ->
  length w = length zonolist ->
  ~ (qsum w == 0)%Q ->
  exists cv G,
    _catWeighted zonolist w = Ok (Arr1 cv, G) /\
    length cv = n /\ nrows G = n /\ ncols G = generator_count zonolist /\
    forall k, k < n -> (nth k cv 0 == weighted_coordinate w cs k / qsum w)%Q.
Proof.
  intros Hne Hall Hw Hs. unfold _catWeighted.
  destruct zonolist as [|first rest]; [done|].
  rewrite (index_ok (first :: rest) 0 first eq_refl). step. cbn zeta.
  assert (Hn : Z_dim first = n).
  { inversion Hall as [|? cv0 ? ? (Hc & Hl & _)]; subst. unfold Z_dim. by rewrite Hc. }
  rewrite Hn.
  destruct (catWeighted_loop n w (first :: rest) cs Hall 0 (replicate n 0%Q) (zeros n 0))
    as (cv & G & Hrun & Hl & Hr & Hc & Hcv).
  { simpl. simpl in Hw. lia. }
  { apply length_replicate. }
  { done. }
  cbn zeta in Hrun. rewrite Hrun. step. cbn [nd_div]. unfold mdiv.
  rewrite (Qeq_bool_false _ _ Hs). step.
  eexists _, _. split; [done|]. rewrite length_map. cbn [nrows ncols].
  split; [done|]. split; [done|]. split; [simpl in Hc; lia|].
  intros k Hk.
  rewrite (nth_indep _ 0%Q (0 / qsum w)%Q) by (rewrite length_map; lia).
  rewrite (map_nth (fun x => x / qsum w)%Q). rewrite (Hcv k Hk). rewrite drop_0.
  assert (E : (nth k (replicate n 0) 0 == 0)%Q).
  { rewrite nth_lookup, lookup_replicate_2 by done. done. }
  rewrite E. field. done.
Qed.

(** *** The center of the averaging intersection *)

Lemma weighted_coordinate_closed_form (s S : Q) (tVec : list Q) (cs : list (list Q)) k :
  (0 < S)%Q -> Forall (fun t => (0 < t)%Q) tVec ->
  (weighted_coordinate (map (fun t => s / (t * S))%Q tVec) cs k
   == s * weighted_coordinate (map (fun t => 1 / (t * S))%Q tVec) cs k)%Q.
Proof.
  intros HS Ht. revert cs. unfold weighted_coordinate.
  induction Ht as [|t l Hx Hl IH]; intros [|c cs]; simpl; try ring.
  rewrite IH. field. split; by apply positive_nonzero.
Qed.

Section AveragingMore.

Variable norm_fro : mat Q -> Q.
Variable radius : Zonotope -> Q.
Variable volume_ : Zonotope -> Q.
Variable minimize : (list Q -> res Q) -> list Q -> res (list Q).

(** X13.  With [normGen], the closed form and a positive weight sum, the
    averaging intersection of zonotopes of dimension [n] with
    one-dimensional centers and positive generator energies [t_i] returns a
    zonotope whose center is the mean of the centers with the weights
    [λ_i = 1 / (t_i · Σ_j 1/t_j)], which sum up to 1; the weight sum
    [sumofw] has no influence on it.  The result keeps all generators. *)
Theorem priv_andAveraging_inverse_energy_mean (n : nat) (Zs : list Zonotope)
    (cs : list (list Q)) (sumofw : Q) :
  Zs <> [] ->
  Forall2 (fun Zi cv => Z_c Zi = Arr1 cv /\ length cv = n /\ nrows (Z_G Zi) = n) Zs cs ->
  Forall (fun Zi => (0 < generator_energy (Z_G Zi))%Q) Zs ->
  (0 < sumofw)%Q ->
  let lambda := map (fun t => 1 / (t * inverse_energy_sum Zs))%Q (energies Zs) in
  (qsum lambda == 1)%Q /\
  exists Zr cv,
    priv_andAveraging norm_fro radius volume_ minimize (PyList Zs)
      (PyStr "normGen") (PyBool true) (PyFloat sumofw) = Ok Zr /\
    Z_c Zr = Arr1 cv /\ length cv = n /\
    nrows (Z_G Zr) = n /\ ncols (Z_G Zr) = generator_count Zs /\
    forall k, k < n -> (nth k cv 0 == weighted_coordinate lambda cs k)%Q.
Proof.
  intros Hne Hall Hpos Hs.
  destruct Zs as [|first others] eqn:EZ; [done|]. rewrite <- EZ in *. intros lambda.
  pose proof (energies_positive _ Hpos) as Ht.
  pose proof (inverse_energy_sum_positive _ Hne Hpos) as HS.
  split.
  { unfold lambda. rewrite (closed_form_weights_total 1 _ _ HS Ht).
    fold (inverse_energy_sum Zs). field. by apply positive_nonzero. }
  set (w := map (fun t => sumofw / (t * inverse_energy_sum Zs))%Q (energies Zs)).
  assert (Hsum : (qsum w == sumofw)%Q).
  { unfold w. rewrite (closed_form_weights_total _ _ _ HS Ht).
    fold (inverse_energy_sum Zs). field. by apply positive_nonzero. }
  assert (Hnz : ~ (qsum w == 0)%Q).
  { rewrite Hsum. by apply positive_nonzero. }
  assert (Hn : Z_dim first = n).
  { rewrite EZ in Hall. inversion Hall as [|? cv0 ? ? (Hc & Hl & _)]; subst.
    unfold Z_dim. by rewrite Hc. }
  destruct (catWeighted_loop n w Zs cs Hall 0 (replicate n 0%Q) (zeros n 0))
    as (cv & G & Hrun & Hl & Hr & Hc & Hcv).
  { unfold w, energies. rewrite !length_map. lia. }
  { apply length_replicate. }
  { done. }
  assert (Hcat : _catWeighted Zs w
                 = Ok (Arr1 (map (fun x => x / qsum w)%Q cv),
                       Mat (nrows G) (ncols G) (map (map (fun x => x / qsum w)%Q) (rows G)))).
  { unfold _catWeighted. rewrite EZ at 1. rewrite (index_ok (first :: others) 0 first eq_refl).
    step. cbn zeta. rewrite Hn. cbn zeta in Hrun. rewrite Hrun. step. cbn [nd_div].
    unfold mdiv. rewrite (Qeq_bool_false _ _ Hnz). done. }
  assert (Hcall : priv_andAveraging norm_fro radius volume_ minimize (PyList Zs)
            (PyStr "normGen") (PyBool true) (PyFloat sumofw)
          = (w ← closed_form_weights Zs sumofw;
             '(c, G) ← _catWeighted Zs w;
             Ok (Zonotope_cG c G))).
  { rewrite EZ. unfold priv_andAveraging. cbn [is_method as_number].
    assert (Qltb sumofw 0 = false) as ->; [|done].
    apply Qltb_false. by apply Qlt_le_weak. }
  rewrite Hcall, (closed_form_weights_ok _ _ Hne Hpos). step. fold w. rewrite Hcat. step.
  eexists _, _. split; [done|]. cbn [Z_c Z_G Zonotope_cG nrows ncols].
  split; [done|]. split; [by rewrite length_map|]. split; [done|].
  split; [simpl in Hc; lia|]. intros k Hk.
  rewrite (nth_indep _ 0%Q (0 / qsum w)%Q) by (rewrite length_map; lia).
  rewrite (map_nth (fun x => x / qsum w)%Q). rewrite (Hcv k Hk). rewrite drop_0.
  assert (E : (nth k (replicate n 0) 0 == 0)%Q).
  { rewrite nth_lookup, lookup_replicate_2 by done. done. }
  rewrite E, Hsum. unfold w. rewrite (weighted_coordinate_closed_form _ _ _ _ _ HS Ht).
  fold lambda. field. by apply positive_nonzero.
Qed.

End AveragingMore.

Lemma flat_pair_centers :
  Forall2 (fun Zi cv => Z_c Zi = Arr1 cv /\ length cv = 2 /\ nrows (Z_G Zi) = 2)
          [zono_flat; zono_flat_line] [[1%Q; 2%Q]; [3%Q; 4%Q]].
Proof. repeat constructor. Qed.

Lemma flat_pair_energies :
  Forall (fun Zi => (0 < generator_energy (Z_G Zi))%Q) [zono_flat; zono_flat_line].
Proof. repeat constructor. Qed.

Lemma closed_form_weights_sum_witness :
  exists w,
    closed_form_weights [zono_flat; zono_flat_line] 1 = Ok w /\
    length w = length [zono_flat; zono_flat_line] /\
    (qsum w == 1)%Q /\
    (forall i Zi wi, [zono_flat; zono_flat_line] !! i = Some Zi -> w !! i = Some wi ->
       (wi == 1 / (generator_energy (Z_G Zi)
                   * inverse_energy_sum [zono_flat; zono_flat_line]))%Q) /\
    ((0 <= 1)%Q -> Forall (fun wi => (0 <= wi)%Q) w).
Proof.
  apply (closed_form_weights_sum [zono_flat; zono_flat_line] 1).
  - discriminate.
  - apply flat_pair_energies.
Defined.

Lemma catWeighted_weighted_mean_witness :
  exists cv G,
    _catWeighted [zono_flat; zono_flat_line] [(2 # 3)%Q; (1 # 3)%Q] = Ok (Arr1 cv, G) /\
    length cv = 2 /\ nrows G = 2 /\
    ncols G = generator_count [zono_flat; zono_flat_line] /\
    forall k, k < 2 ->
      (nth k cv 0 == weighted_coordinate [(2 # 3)%Q; (1 # 3)%Q] [[1%Q; 2%Q]; [3%Q; 4%Q]] k
                     / qsum [(2 # 3)%Q; (1 # 3)%Q])%Q.
Proof.
  apply (catWeighted_weighted_mean 2 [(2 # 3)%Q; (1 # 3)%Q] [zono_flat; zono_flat_line]
           [[1%Q; 2%Q]; [3%Q; 4%Q]]).
  - discriminate.
  - apply flat_pair_centers.
  - reflexivity.
  - discriminate.
Defined.

Lemma priv_andAveraging_inverse_energy_mean_witness :
  let lambda := map (fun t => 1 / (t * inverse_energy_sum [zono_flat; zono_flat_line]))%Q
                    (energies [zono_flat; zono_flat_line]) in
  (qsum lambda == 1)%Q /\
  exists Zr cv,
    priv_andAveraging norm_unused measure_unused measure_unused minimize_unused
      (PyList [zono_flat; zono_flat_line])
      (PyStr "normGen") (PyBool true) (PyFloat 3) = Ok Zr /\
    Z_c Zr = Arr1 cv /\ length cv = 2 /\
    nrows (Z_G Zr) = 2 /\ ncols (Z_G Zr) = generator_count [zono_flat; zono_flat_line] /\
    forall k, k < 2 ->
      (nth k cv 0 == weighted_coordinate lambda [[1%Q; 2%Q]; [3%Q; 4%Q]] k)%Q.
Proof.
  apply (priv_andAveraging_inverse_energy_mean norm_unused measure_unused measure_unused
           minimize_unused 2 [zono_flat; zono_flat_line] [[1%Q; 2%Q]; [3%Q; 4%Q]] 3).
  - discriminate.
  - apply flat_pair_centers.
  - apply flat_pair_energies.
  - reflexivity.
Defined.

(** ** Minkowski sum of a polytope and a point *)

Section PlusPointProps.
Variable dim : Polytope -> nat.
Variable priv_plus_minus_vector :
  option (mat Q) -> option (mat Q) -> option (mat Q) -> option (mat Q) -> mat Q ->
  res (mat Q * mat Q * option (mat Q) * option (mat Q)).
Variable constraints : Polytope -> res Polytope.

(** The sum of a vertex array and a column. *)
Lemma madd_column (V Sx : mat Q) :
  nrows Sx = nrows V -> ncols Sx = 1 ->
  madd V Sx = Ok (Mat (nrows V) (ncols V)
                   (map (fun i => map (fun j => (bget V i j + bget Sx i j)%Q)
                                      (seq 0 (ncols V))) (seq 0 (nrows V)))).
Proof.
  intros Hr Hc. unfold madd, broadcast. rewrite Hr, bdim_same, Hc. step.
  assert (bdim (ncols V) 1 = Ok (ncols V)) as ->; [|done].
  unfold bdim. destruct (Nat.eqb (ncols V) 1) eqn:E; [|done].
  apply Nat.eqb_eq in E. by rewrite E.
Qed.

Lemma get_tabulate (r c : nat) (f : nat -> nat -> Q) i j :
  i < r -> j < c ->
  get (Mat r c (map (fun i => map (fun j => f i j) (seq 0 c)) (seq 0 r))) i j = f i j.
Proof.
  intros Hi Hj. unfold get. cbn [rows].
  rewrite (nth_indep _ [] (map (fun j => f 0 j) (seq 0 c))) by (by rewrite length_map, length_seq).
  rewrite (map_nth (fun i => map (fun j => f i j) (seq 0 c)) (seq 0 r) 0 i).
  rewrite seq_nth by done.
  rewrite (nth_indep _ 0%Q (f (0 + i) 0)) by (by rewrite length_map, length_seq).
  rewrite (map_nth (fun j => f (0 + i) j) (seq 0 c) 0 j). by rewrite seq_nth.
Qed.

Lemma bget_inner (M : mat Q) i j : i < nrows M -> j < ncols M -> bget M i j = get M i j.
Proof.
  intros Hi Hj. unfold bget.
  assert (Ei : (if Nat.eqb (nrows M) 1 then 0 else i) = i).
  { destruct (Nat.eqb (nrows M) 1) eqn:E; [|done]. apply Nat.eqb_eq in E. lia. }
  assert (Ej : (if Nat.eqb (ncols M) 1 then 0 else j) = j).
  { destruct (Nat.eqb (ncols M) 1) eqn:E; [|done]. apply Nat.eqb_eq in E. lia. }
  by rewrite Ei, Ej.
Qed.

(** The vertex branch: the result is the vertex array plus the column. *)
Lemma plus_poly_point_vertices (P : Polytope) (V Sx : mat Q) :
  P_isHRep P = false -> P_isVRep P = true -> P_V P = Some V ->
  dim P = nrows V -> nrows Sx = nrows V -> ncols Sx = 1 ->
  _aux_plus_poly_point dim priv_plus_minus_vector constraints P Sx
  = Ok (Polytope_V
          (Mat (nrows V) (ncols V)
             (map (fun i => map (fun j => (bget V i j + bget Sx i j)%Q)
                                (seq 0 (ncols V))) (seq 0 (nrows V))))).
Proof.
  intros HH HV HPV Hdim Hr Hc. unfold _aux_plus_poly_point.
  rewrite Hc, Hr, Hdim, Nat.eqb_refl, HH, HV, HPV. cbn [Nat.ltb Nat.leb negb array_of].
  step. by rewrite (madd_column V Sx Hr Hc).
Qed.

Lemma bget_column_entry (M : mat Q) i j :
  ncols M = 1 -> bget M i j = get M (if Nat.eqb (nrows M) 1 then 0 else i) 0.
Proof. intros Hc. unfold bget. by rewrite Hc. Qed.

Lemma tabulate_Qeq (r c : nat) (f g : nat -> nat -> Q) :
  (forall i j, i < r -> j < c -> (f i j == g i j)%Q) ->
  Forall2 (Forall2 Qeq) (map (fun i => map (fun j => f i j) (seq 0 c)) (seq 0 r))
                        (map (fun i => map (fun j => g i j) (seq 0 c)) (seq 0 r)).
Proof.
  intros H. apply Forall2_fmap, Forall2_same_length_lookup. split; [done|].
  intros k i i' Hi Hi'. rewrite Hi in Hi'. injection Hi' as <-.
  apply lookup_seq in Hi as [-> Hk].
  apply Forall2_fmap, Forall2_same_length_lookup. split; [done|].
  intros l j j' Hj Hj'. rewrite Hj in Hj'. injection Hj' as <-.
  apply lookup_seq in Hj as [-> Hl]. by apply H.
Qed.

(** X14.  For a polytope in vertex representation with vertex array [V]
    of [n] rows and a column [S] of [n] entries, [_aux_plus_poly_point]
    returns the vertex representation whose array has the shape of [V] and
    the entries [V[i, j] + S[i]]: every vertex is moved by [S], none is
    added or dropped. *)
Theorem plus_poly_point_translates (P : Polytope) (V Sx : mat Q) :
  P_isHRep P = false -> P_isVRep P = true -> P_V P = Some V ->
  dim P = nrows V -> nrows Sx = nrows V -> ncols Sx = 1 ->
  exists V_new,
    _aux_plus_poly_point dim priv_plus_minus_vector constraints P Sx
      = Ok (Polytope_V V_new) /\
    nrows V_new = nrows V /\ ncols V_new = ncols V /\ wf_mat V_new /\
    forall i j, i < nrows V -> j < ncols V ->
      get V_new i j = (get V i j + get Sx i 0)%Q.
Proof.
  intros HH HV HPV Hdim Hr Hc.
  rewrite (plus_poly_point_vertices P V Sx HH HV HPV Hdim Hr Hc).
  eexists. split; [done|]. cbn [nrows ncols]. split; [done|]. split; [done|]. split.
  - split; cbn [rows nrows ncols].
    + by rewrite length_map, length_seq.
    + apply Forall_forall. intros r Hin. apply list_elem_of_fmap in Hin as (i & -> & _).
      by rewrite length_map, length_seq.
  - intros i j Hi Hj.
    rewrite (get_tabulate _ _ (fun i j => (bget V i j + bget Sx i j)%Q)) by done.
    rewrite (bget_inner V) by done. f_equal.
    rewrite bget_column_entry by done.
    destruct (Nat.eqb (nrows Sx) 1) eqn:E; [|done]. apply Nat.eqb_eq in E.
    by replace i with 0 by lia.
Qed.

(** X15.  Adding the column [s] and then the column [t] to a polytope in
    vertex representation gives the vertices of adding [s + t] at once
    (entry by entry, as rational numbers). *)
Theorem plus_poly_point_composes (P : Polytope) (V s t : mat Q) :
  (forall W, dim (Polytope_V W) = nrows W) ->
  P_isHRep P = false -> P_isVRep P = true -> P_V P = Some V ->
  dim P = nrows V ->
  nrows s = nrows V -> ncols s = 1 -> nrows t = nrows V -> ncols t = 1 ->
  exists V2 V12,
    (P1 ← _aux_plus_poly_point dim priv_plus_minus_vector constraints P s;
     _aux_plus_poly_point dim priv_plus_minus_vector constraints P1 t)
      = Ok (Polytope_V V2) /\
    (st ← madd s t;
     _aux_plus_poly_point dim priv_plus_minus_vector constraints P st)
      = Ok (Polytope_V V12) /\
    mat_Qeq V2 V12.
Proof.
  intros Hd HH HV HPV Hdim Hsr Hsc Htr Htc.
  rewrite (plus_poly_point_vertices P V s HH HV HPV Hdim Hsr Hsc). step.
  set (V1 := Mat (nrows V) (ncols V) _).
  rewrite (plus_poly_point_vertices (Polytope_V V1) V1 t eq_refl eq_refl eq_refl
             (Hd V1) Htr Htc).
  rewrite (madd_column s t) by congruence. step.
  set (st := Mat (nrows s) (ncols s) _).
  rewrite (plus_poly_point_vertices P V st HH HV HPV Hdim Hsr Hsc).
  eexists _, _. split; [done|]. split; [done|].
  split; [done|]. split; [done|]. cbn [rows nrows ncols].
  apply tabulate_Qeq. intros i j Hi Hj.
  rewrite (bget_inner V1) by done. unfold V1.
  rewrite (get_tabulate _ _ (fun i j => (bget V i j + bget s i j)%Q)) by done.
  rewrite (bget_column_entry s), (bget_column_entry t), (bget_column_entry st) by done.
  unfold st. cbn [nrows]. rewrite Hsc, Htr. rewrite !Hsr.
  set (i' := if Nat.eqb (nrows V) 1 then 0 else i).
  assert (Hi' : i' < nrows V).
  { unfold i'. destruct (Nat.eqb (nrows V) 1); lia. }
  rewrite (get_tabulate _ _ (fun i j => (bget s i j + bget t i j)%Q)) by (done || lia).
  rewrite (bget_column_entry s), (bget_column_entry t) by done. rewrite Hsr, Htr.
  assert (E : (if Nat.eqb (nrows V) 1 then 0 else i') = i').
  { unfold i'. by destruct (Nat.eqb (nrows V) 1). }
  rewrite E. ring.
Qed.
End PlusPointProps.

Lemma plus_poly_point_translates_witness :
  exists V_new,
    _aux_plus_poly_point dim_of plus_minus_vector_unused constraints_unused
      (Polytope_V two_vertices) (Mat 2 1 [[1%Q]; [1%Q]]) = Ok (Polytope_V V_new) /\
    nrows V_new = nrows two_vertices /\ ncols V_new = ncols two_vertices /\
    wf_mat V_new /\
    forall i j, i < nrows two_vertices -> j < ncols two_vertices ->
      get V_new i j = (get two_vertices i j + get (Mat 2 1 [[1%Q]; [1%Q]]) i 0)%Q.
Proof.
  apply (plus_poly_point_translates dim_of plus_minus_vector_unused constraints_unused
           (Polytope_V two_vertices) two_vertices (Mat 2 1 [[1%Q]; [1%Q]]));
    reflexivity.
Defined.

Lemma plus_poly_point_composes_witness :
  exists V2 V12,
    (P1 ← _aux_plus_poly_point dim_of plus_minus_vector_unused constraints_unused
            (Polytope_V two_vertices) (Mat 2 1 [[1%Q]; [1%Q]]);
     _aux_plus_poly_point dim_of plus_minus_vector_unused constraints_unused
       P1 (Mat 2 1 [[(1 # 2)%Q]; [(-3)%Q]]))
      = Ok (Polytope_V V2) /\
    (st ← madd (Mat 2 1 [[1%Q]; [1%Q]]) (Mat 2 1 [[(1 # 2)%Q]; [(-3)%Q]]);
     _aux_plus_poly_point dim_of plus_minus_vector_unused constraints_unused
       (Polytope_V two_vertices) st)
      = Ok (Polytope_V V12) /\
    mat_Qeq V2 V12.
Proof.
  apply (plus_poly_point_composes dim_of plus_minus_vector_unused constraints_unused
           (Polytope_V two_vertices) two_vertices
           (Mat 2 1 [[1%Q]; [1%Q]]) (Mat 2 1 [[(1 # 2)%Q]; [(-3)%Q]]));
    reflexivity.
Defined.

(** ** The rows of the lifted system *)

Lemma dot_neg (r y : list Q) : (dot (map Qopp r) y == - dot r y)%Q.
Proof.
  revert y. induction r as [|a r IH]; intros [|b y]; cbn [map].
  - rewrite !dot_nil_l. ring.
  - rewrite !dot_nil_l. ring.
  - rewrite !dot_nil_r. ring.
  - rewrite !dot_cons, IH. ring.
Qed.

Lemma dot_zeros (n : nat) (y : list Q) : (dot (replicate n 0%Q) y == 0)%Q.
Proof.
  revert y. induction n as [|n IH]; intros [|b y]; cbn [replicate]; try done.
  rewrite dot_cons, IH. ring.
Qed.

Lemma dot_vsub (r x y : list Q) :
  length x = length y -> (dot r (vsub x y) == dot r x - dot r y)%Q.
Proof.
  revert x y. induction r as [|a r IH]; intros x y Hl.
  - rewrite !dot_nil_l. ring.
  - destruct x as [|b x], y as [|c y]; try done. unfold vsub. cbn [zip_with].
    rewrite !dot_cons. fold (vsub x y). rewrite IH by (simpl in Hl; lia). ring.
Qed.

Lemma nth_row_lookup {T} (l : list (list T)) k r : l !! k = Some r -> nth k l [] = r.
Proof. intros H. by rewrite nth_lookup, H. Qed.

Lemma row_length (M : mat Q) k r : wf_mat M -> rows M !! k = Some r -> length r = ncols M.
Proof.
  intros [_ H] Hr. eapply (proj1 (Forall_forall _ _) H). by eapply list_elem_of_lookup_2.
Qed.

(** Row [k] of the upper block [[M2, -M2]] against [(x, y)]. *)
Lemma upper_block_row (M2 : mat Q) (lower : list (list Q)) (c2 c1 : list (list Q))
    (x y : list Q) k :
  wf_mat M2 -> length c2 = nrows M2 -> length x = ncols M2 -> length y = ncols M2 ->
  k < nrows M2 ->
  (dot (nth k (zip_with app (rows M2) (rows (mneg M2)) ++ lower) []) (x ++ y)
   - nth 0 (nth k (c2 ++ c1) []) 0
   == dot (nth k (rows M2) []) (vsub x y) - nth 0 (nth k c2 []) 0)%Q.
Proof.
  intros Hwf Hc Hx Hy Hk. pose proof Hwf as [Hl _]. cbn [rows mneg].
  destruct (lookup_lt_is_Some_2 (rows M2) k) as [r Hr]; [lia|].
  destruct (lookup_lt_is_Some_2 c2 k) as [br Hbr]; [lia|].
  rewrite (nth_row_lookup _ k (r ++ map Qopp r)).
  2: { rewrite lookup_app_l by (rewrite length_zip_with, length_map; lia).
       rewrite lookup_zip_with, Hr. simpl. by rewrite list_lookup_fmap, Hr. }
  rewrite (nth_row_lookup _ k br) by (rewrite lookup_app_l by lia; done).
  rewrite (nth_row_lookup _ k r Hr), (nth_row_lookup _ k br Hbr).
  pose proof (row_length M2 k r Hwf Hr) as Hlr.
  rewrite dot_app by lia. rewrite dot_neg, dot_vsub by lia. ring.
Qed.

(** Row [k] of the lower block [[0, M1]] against [(x, y)]. *)
Lemma lower_block_row (M1 : mat Q) (upper : list (list Q)) (c2 c1 : list (list Q))
    (m2 n : nat) (x y : list Q) k :
  wf_mat M1 -> length upper = m2 -> length c2 = m2 -> length c1 = nrows M1 ->
  length x = n -> k < nrows M1 ->
  (dot (nth (m2 + k) (upper ++ zip_with app (rows (zeros (nrows M1) n)) (rows M1)) [])
       (x ++ y)
   - nth 0 (nth (m2 + k) (c2 ++ c1) []) 0
   == dot (nth k (rows M1) []) y - nth 0 (nth k c1 []) 0)%Q.
Proof.
  intros Hwf Hu Hc2 Hc1 Hx Hk. pose proof Hwf as [Hl _]. cbn [rows zeros].
  destruct (lookup_lt_is_Some_2 (rows M1) k) as [r Hr]; [lia|].
  destruct (lookup_lt_is_Some_2 c1 k) as [br Hbr]; [lia|].
  rewrite (nth_row_lookup _ (m2 + k) (replicate n 0%Q ++ r)).
  2: { rewrite lookup_app_r by lia. replace (m2 + k - _) with k by lia.
       rewrite lookup_zip_with, lookup_replicate_2 by lia. simpl. by rewrite Hr. }
  rewrite (nth_row_lookup _ (m2 + k) br).
  2: { rewrite lookup_app_r by lia. by replace (m2 + k - _) with k by lia. }
  rewrite (nth_row_lookup _ k r Hr), (nth_row_lookup _ k br Hbr).
  rewrite dot_app by (rewrite length_replicate; lia). rewrite dot_zeros. ring.
Qed.

(** X16.  The inequality block [[A2, -A2], [0, A1]], [b2; b1] of the
    lifted system says what the Minkowski sum asks for: a pair [(x, y)]
    satisfies its rows if and only if [x - y] satisfies the inequality
    rows of the second operand and [y] those of the first.  The block has
    as many rows as both operands together and [2n] columns. *)
Theorem lifted_Hpoly_rows_decompose
    (P1 P2 P : Polytope) (n : nat) (A1 A2 b1 b2 : mat Q) (x y : list Q) (tol : Q) :
  P_A P1 = Some A1 -> P_A P2 = Some A2 -> P_b P1 = Some b1 -> P_b P2 = Some b2 ->
  wf_mat A1 -> wf_mat A2 -> ncols A1 = n -> ncols A2 = n ->
  length (rows b1) = nrows A1 -> length (rows b2) = nrows A2 ->
  length x = n -> length y = n ->
  lifted_Hpoly P1 P2 n = Ok P ->
  exists A b,
    P_A P = Some A /\ P_b P = Some b /\
    nrows A = nrows A2 + nrows A1 /\ ncols A = 2 * n /\
    (satisfies_rows A b (x ++ y) tol <->
     satisfies_rows A2 b2 (vsub x y) tol /\ satisfies_rows A1 b1 y tol).
Proof.
  intros HA1 HA2 Hb1 Hb2 Hw1 Hw2 Hc1 Hc2 Hlb1 Hlb2 Hx Hy Hlift.
  destruct (lifted_Hpoly_inequalities P1 P2 P n A1 A2 b1 b2 HA1 HA2 Hb1 Hb2 Hlift)
    as (HA & Hb & _).
  eexists _, _. split; [exact HA|]. split; [exact Hb|].
  cbn [nrows ncols]. split; [done|]. split; [lia|].
  pose proof Hw2 as [Hl2 _].
  unfold satisfies_rows, get. cbn [nrows rows]. split.
  - intros H. split; intros k Hk.
    + specialize (H k ltac:(lia)).
      by rewrite upper_block_row in H by (done || lia).
    + specialize (H (nrows A2 + k) ltac:(lia)).
      rewrite (lower_block_row A1 _ (rows b2) (rows b1) (nrows A2) (ncols A2) x y) in H;
        [done | done | | done | done | lia | done].
      rewrite length_zip_with. cbn [rows mneg]. rewrite length_map. lia.
  - intros [H2 H1] k Hk. destruct (Nat.lt_ge_cases k (nrows A2)) as [Hlt|Hge].
    + rewrite upper_block_row by (done || lia). by apply H2.
    + replace k with (nrows A2 + (k - nrows A2)) by lia.
      rewrite (lower_block_row A1 _ (rows b2) (rows b1) (nrows A2) (ncols A2) x y).
      * apply H1. lia.
      * done.
      * rewrite length_zip_with. cbn [rows mneg]. rewrite length_map. lia.
      * done.
      * done.
      * lia.
      * lia.
Qed.

(** Row [k] of the block [[M, 0]] against [(x, y)]. *)
Lemma left_block_row (M : mat Q) (n : nat) (x y : list Q) k :
  wf_mat M -> length x = ncols M -> k < nrows M ->
  (dot (nth k (zip_with app (rows M) (rows (zeros (nrows M) n))) []) (x ++ y)
   == dot (nth k (rows M) []) x)%Q.
Proof.
  intros Hwf Hx Hk. pose proof Hwf as [Hl _]. cbn [rows zeros].
  destruct (lookup_lt_is_Some_2 (rows M) k) as [r Hr]; [lia|].
  rewrite (nth_row_lookup _ k (r ++ replicate n 0%Q)).
  2: { rewrite lookup_zip_with, Hr. simpl. by rewrite lookup_replicate_2 by lia. }
  rewrite (nth_row_lookup _ k r Hr).
  pose proof (row_length M k r Hwf Hr) as Hlr.
  rewrite dot_app by lia. rewrite dot_zeros. ring.
Qed.

(** The offsets of the lifted equality system when both operands carry
    equality constraints. *)
Lemma lifted_Hpoly_equality_offsets (P1 P2 P : Polytope) (n : nat) Ae1 Ae2 be1 be2 :
  P_Ae P1 = Some Ae1 -> P_Ae P2 = Some Ae2 -> P_be P1 = Some be1 -> P_be P2 = Some be2 ->
  lifted_Hpoly P1 P2 n = Ok P ->
  P_be P = Some (Mat (nrows be2 + nrows be1) (ncols be2) (rows be2 ++ rows be1)).
Proof.
  intros HAe1 HAe2 Hbe1 Hbe2 H. unfold lifted_Hpoly in H.
  inv_bind H as A1 HA1. inv_bind H as A2 HA2. step_in H.
  inv_bind H as A HA. inv_bind H as b2 Hb2. inv_bind H as b1 Hb1. inv_bind H as b Hb.
  rewrite HAe1, HAe2, Hbe1, Hbe2 in H.
  inv_bind H as Ae HAe. cbn [array_of] in H. step_in H. inv_bind H as be Hbe.
  injection H as <-. cbn [P_be Polytope_H]. unfold vstack in Hbe.
  destruct (Nat.eqb _ _); [|done]. by injection Hbe as <-.
Qed.

(** X17.  The equality block of the lifted system, case by case.  When
    both operands carry equality constraints, [(x, y)] satisfies it if and
    only if [x - y] satisfies the equality rows of the second operand and
    [y] those of the first; when only the first does, if and only if [y]
    satisfies them; when only the second does, if and only if [x] itself
    (not [x - y]) satisfies the equality rows of the second operand. *)
Theorem lifted_Hpoly_equality_rows
    (P1 P2 P : Polytope) (n : nat) (x y : list Q) (tol : Q) :
  length x = n -> length y = n ->
  lifted_Hpoly P1 P2 n = Ok P ->
  (forall Ae1 be1 Ae2 be2,
     P_Ae P1 = Some Ae1 -> P_be P1 = Some be1 ->
     P_Ae P2 = Some Ae2 -> P_be P2 = Some be2 ->
     wf_mat Ae1 -> wf_mat Ae2 -> ncols Ae2 = n ->
     length (rows be1) = nrows Ae1 -> length (rows be2) = nrows Ae2 ->
     exists Ae be, P_Ae P = Some Ae /\ P_be P = Some be /\
       (satisfies_eq_rows Ae be (x ++ y) tol <->
        satisfies_eq_rows Ae2 be2 (vsub x y) tol /\ satisfies_eq_rows Ae1 be1 y tol)) /\
  (forall Ae1 be1,
     P_Ae P1 = Some Ae1 -> P_be P1 = Some be1 -> P_Ae P2 = None ->
     wf_mat Ae1 -> length (rows be1) = nrows Ae1 ->
     exists Ae, P_Ae P = Some Ae /\ P_be P = Some be1 /\
       (satisfies_eq_rows Ae be1 (x ++ y) tol <-> satisfies_eq_rows Ae1 be1 y tol)) /\
  (forall Ae2 be2,
     P_Ae P1 = None -> P_Ae P2 = Some Ae2 -> P_be P2 = Some be2 ->
     wf_mat Ae2 -> ncols Ae2 = n ->
     exists Ae, P_Ae P = Some Ae /\ P_be P = Some be2 /\
       (satisfies_eq_rows Ae be2 (x ++ y) tol <-> satisfies_eq_rows Ae2 be2 x tol)).
Proof.
  intros Hx Hy Hlift. pose proof (lifted_Hpoly_equalities P1 P2 P n Hlift) as Heq.
  split; [|split].
  - intros Ae1 be1 Ae2 be2 HAe1 Hbe1 HAe2 Hbe2 Hw1 Hw2 Hc2 Hl1 Hl2.
    rewrite HAe1, HAe2 in Heq.
    pose proof (lifted_Hpoly_equality_offsets P1 P2 P n _ _ _ _ HAe1 HAe2 Hbe1 Hbe2 Hlift)
      as Hbe.
    eexists _, _. split; [exact Heq|]. split; [exact Hbe|].
    pose proof Hw2 as [Hlen2 _].
    unfold satisfies_eq_rows, get. cbn [nrows rows]. split.
    + intros H. split; intros k Hk.
      * specialize (H k ltac:(lia)).
        by rewrite upper_block_row in H by (done || lia).
      * specialize (H (nrows Ae2 + k) ltac:(lia)).
        rewrite (lower_block_row Ae1 _ (rows be2) (rows be1) (nrows Ae2) (ncols Ae2) x y)
          in H; [done | done | | done | done | lia | done].
        rewrite length_zip_with. cbn [rows mneg]. rewrite length_map. lia.
    + intros [H2 H1] k Hk. destruct (Nat.lt_ge_cases k (nrows Ae2)) as [Hlt|Hge].
      * rewrite upper_block_row by (done || lia). by apply H2.
      * replace k with (nrows Ae2 + (k - nrows Ae2)) by lia.
        rewrite (lower_block_row Ae1 _ (rows be2) (rows be1) (nrows Ae2) (ncols Ae2) x y).
        -- apply H1. lia.
        -- done.
        -- rewrite length_zip_with. cbn [rows mneg]. rewrite length_map. lia.
        -- done.
        -- done.
        -- lia.
        -- lia.
  - intros Ae1 be1 HAe1 Hbe1 HAe2 Hw1 Hl1. rewrite HAe1, HAe2 in Heq.
    destruct Heq as [HAe Hbe]. rewrite Hbe1 in Hbe.
    eexists. split; [exact HAe|]. split; [exact Hbe|].
    unfold satisfies_eq_rows, get. cbn [nrows rows].
    split; intros H k Hk; specialize (H k Hk).
    + pose proof (lower_block_row Ae1 [] [] (rows be1) 0 n x y k Hw1 eq_refl eq_refl
                    Hl1 Hx Hk) as E.
      cbn [app Nat.add] in E. by rewrite E in H.
    + pose proof (lower_block_row Ae1 [] [] (rows be1) 0 n x y k Hw1 eq_refl eq_refl
                    Hl1 Hx Hk) as E.
      cbn [app Nat.add] in E. by rewrite E.
  - intros Ae2 be2 HAe1 HAe2 Hbe2 Hw2 Hc2. rewrite HAe1, HAe2 in Heq.
    destruct Heq as [HAe Hbe]. rewrite Hbe2 in Hbe.
    eexists. split; [exact HAe|]. split; [exact Hbe|].
    unfold satisfies_eq_rows, get. cbn [nrows rows].
    split; intros H k Hk; specialize (H k Hk).
    + by rewrite left_block_row in H by (done || lia).
    + by rewrite left_block_row by (done || lia).
Qed.

Lemma lifted_Hpoly_rows_decompose_witness :
  exists P, lifted_Hpoly interval_1_2 point_5 1 = Ok P /\
  exists A b,
    P_A P = Some A /\ P_b P = Some b /\
    nrows A = nrows (Mat 1 1 [[1%Q]]) + nrows (Mat 2 1 [[1%Q]; [(-1)%Q]]) /\
    ncols A = 2 * 1 /\
    (satisfies_rows A b ([6%Q] ++ [1%Q]) 0 <->
     satisfies_rows (Mat 1 1 [[1%Q]]) (Mat 1 1 [[10%Q]]) (vsub [6%Q] [1%Q]) 0 /\
     satisfies_rows (Mat 2 1 [[1%Q]; [(-1)%Q]]) (Mat 2 1 [[2%Q]; [(-1)%Q]]) [1%Q] 0).
Proof.
  eexists. split; [reflexivity|].
  apply (lifted_Hpoly_rows_decompose interval_1_2 point_5 _ 1
           (Mat 2 1 [[1%Q]; [(-1)%Q]]) (Mat 1 1 [[1%Q]])
           (Mat 2 1 [[2%Q]; [(-1)%Q]]) (Mat 1 1 [[10%Q]]) [6%Q] [1%Q] 0);
    try reflexivity.
  - split; [reflexivity | repeat constructor].
  - split; [reflexivity | repeat constructor].
Defined.

Lemma lifted_Hpoly_equality_rows_witness :
  exists P, lifted_Hpoly point_5 point_5 1 = Ok P /\
  (forall Ae1 be1 Ae2 be2,
     P_Ae point_5 = Some Ae1 -> P_be point_5 = Some be1 ->
     P_Ae point_5 = Some Ae2 -> P_be point_5 = Some be2 ->
     wf_mat Ae1 -> wf_mat Ae2 -> ncols Ae2 = 1 ->
     length (rows be1) = nrows Ae1 -> length (rows be2) = nrows Ae2 ->
     exists Ae be, P_Ae P = Some Ae /\ P_be P = Some be /\
       (satisfies_eq_rows Ae be ([10%Q] ++ [5%Q]) 0 <->
        satisfies_eq_rows Ae2 be2 (vsub [10%Q] [5%Q]) 0 /\
        satisfies_eq_rows Ae1 be1 [5%Q] 0)) /\
  (forall Ae1 be1,
     P_Ae point_5 = Some Ae1 -> P_be point_5 = Some be1 -> P_Ae point_5 = None ->
     wf_mat Ae1 -> length (rows be1) = nrows Ae1 ->
     exists Ae, P_Ae P = Some Ae /\ P_be P = Some be1 /\
       (satisfies_eq_rows Ae be1 ([10%Q] ++ [5%Q]) 0 <->
        satisfies_eq_rows Ae1 be1 [5%Q] 0)) /\
  (forall Ae2 be2,
     P_Ae point_5 = None -> P_Ae point_5 = Some Ae2 -> P_be point_5 = Some be2 ->
     wf_mat Ae2 -> ncols Ae2 = 1 ->
     exists Ae, P_Ae P = Some Ae /\ P_be P = Some be2 /\
       (satisfies_eq_rows Ae be2 ([10%Q] ++ [5%Q]) 0 <->
        satisfies_eq_rows Ae2 be2 [10%Q] 0)).
Proof.
  eexists. split; [reflexivity|].
  apply (lifted_Hpoly_equality_rows point_5 point_5 _ 1 [10%Q] [5%Q] 0); reflexivity.
Defined.

(** ** The order of the operands of a vertex sum *)

Lemma Qplus_comm_eq (x y : Q) : (x + y)%Q = (y + x)%Q.
Proof.
  unfold Qplus. f_equal; [apply Z.add_comm | apply Pos.mul_comm].
Qed.

Lemma vertex_sum_comm (V1 V2 : mat Q) i j : vertex_sum V1 V2 i j = vertex_sum V2 V1 j i.
Proof.
  unfold vertex_sum. generalize (col V1 j) (col V2 i). intros u.
  induction u as [|a u IH]; intros [|b v]; cbn [zip_with]; try done.
  by rewrite Qplus_comm_eq, IH.
Qed.

Section PlusComm.
Variable dim : Polytope -> nat.
Variable representsa : Polytope -> set_kind -> Q -> bool.
Variable project : Polytope -> list nat -> res Polytope.
Variable constraints : Polytope -> res Polytope.

Lemma plus_Vpoly_Vpoly_run (p1 p2 : Polytope) (V1 V2 V : mat Q) :
  dim p1 = dim p2 ->
  P_isVRep p1 = true -> P_isVRep p2 = true ->
  P_V p1 = Some V1 -> P_V p2 = Some V2 ->
  (forall kind, representsa p1 kind 1e-10 = false) ->
  (forall kind, representsa p2 kind 1e-10 = false) ->
  sum_vertices V1 V2 (zeros (dim p1) (ncols V1 * ncols V2), 0)
    = Ok (V, ncols V2 * ncols V1) ->
  plus dim representsa project constraints p1 p2 = Ok (Polytope_V V).
Proof.
  intros Hd Hv1 Hv2 HV1 HV2 Hr1 Hr2 Hrun.
  unfold plus, equal_dim_check. rewrite Hd, Nat.eqb_refl. simpl.
  rewrite !Hr1, !Hr2, Hv1, Hv2. simpl.
  unfold _aux_plus_Vpoly_Vpoly. rewrite HV1, HV2. simpl.
  rewrite <- Hd, Hrun. done.
Qed.

(** X18.  The sum of two polytopes in vertex representation does not
    depend on the order of the operands, up to the order of the vertices:
    the vertex that [plus(p1, p2)] stores in column [i·|V1| + j] is the
    vertex that [plus(p2, p1)] stores in column [j·|V2| + i]. *)
Theorem plus_Vpoly_Vpoly_commutes (p1 p2 : Polytope) (V1 V2 : mat Q) :
  dim p1 = dim p2 ->
  P_isVRep p1 = true -> P_isVRep p2 = true ->
  P_V p1 = Some V1 -> P_V p2 = Some V2 ->
  wf_mat V1 -> wf_mat V2 -> nrows V1 = dim p1 -> nrows V2 = dim p1 ->
  (forall kind, representsa p1 kind 1e-10 = false) ->
  (forall kind, representsa p2 kind 1e-10 = false) ->
  exists V V',
    plus dim representsa project constraints p1 p2 = Ok (Polytope_V V) /\
    plus dim representsa project constraints p2 p1 = Ok (Polytope_V V') /\
    nrows V = nrows V' /\ ncols V = ncols V' /\
    forall i j, i < ncols V2 -> j < ncols V1 ->
      col V (i * ncols V1 + j) = col V' (j * ncols V2 + i).
Proof.
  intros Hd Hv1 Hv2 HV1 HV2 Hw1 Hw2 Hn1 Hn2 Hr1 Hr2.
  destruct (sum_vertices_spec V1 V2 (dim p1) Hw1 Hw2 Hn1 Hn2)
    as (V & Hrun & _ & Hr & Hc & Hcol & _).
  destruct (sum_vertices_spec V2 V1 (dim p2) Hw2 Hw1) as (V' & Hrun' & _ & Hr' & Hc' & Hcol' & _);
    [congruence | congruence |].
  exists V, V'.
  split; [by apply (plus_Vpoly_Vpoly_run p1 p2 V1 V2 V)|].
  split; [by apply (plus_Vpoly_Vpoly_run p2 p1 V2 V1 V')|].
  split; [congruence|]. split; [lia|].
  intros i j Hi Hj. rewrite (Hcol i j Hi Hj), (Hcol' j i Hj Hi). apply vertex_sum_comm.
Qed.
End PlusComm.

Lemma plus_Vpoly_Vpoly_commutes_witness :
  exists V V',
    plus dim_of representsa_canonical project_unused constraints_unused
      (Polytope_V two_vertices) (Polytope_V three_vertices) = Ok (Polytope_V V) /\
    plus dim_of representsa_canonical project_unused constraints_unused
      (Polytope_V three_vertices) (Polytope_V two_vertices) = Ok (Polytope_V V') /\
    nrows V = nrows V' /\ ncols V = ncols V' /\
    forall i j, i < ncols three_vertices -> j < ncols two_vertices ->
      col V (i * ncols two_vertices + j) = col V' (j * ncols three_vertices + i).
Proof.
  apply (plus_Vpoly_Vpoly_commutes dim_of representsa_canonical project_unused
           constraints_unused (Polytope_V two_vertices) (Polytope_V three_vertices)
           two_vertices three_vertices); try reflexivity.
  - split; [reflexivity | repeat constructor].
  - split; [reflexivity | repeat constructor].
  - intros []; reflexivity.
  - intros []; reflexivity.
Defined.

(** ** Absolute values of a zonotope *)

Lemma Qabs_idem (x : Q) : Qabs (Qabs x) = Qabs x.
Proof. destruct x as [n d]. unfold Qabs. by rewrite Z.abs_idemp. Qed.

Lemma map_Qabs_idem (v : list Q) : map Qabs (map Qabs v) = map Qabs v.
Proof. rewrite map_map. apply map_ext. intros x. apply Qabs_idem. Qed.

Lemma np_abs_idem (M : mat Q) : np_abs (np_abs M) = np_abs M.
Proof.
  unfold np_abs. cbn [nrows ncols rows]. f_equal. rewrite map_map.
  apply map_ext. intros r. apply map_Qabs_idem.
Qed.

Lemma nd_abs_idem (a : ndarray) : nd_abs (nd_abs a) = nd_abs a.
Proof. destruct a as [v|M]; simpl; f_equal; [apply map_Qabs_idem | apply np_abs_idem]. Qed.

Lemma np_abs_nonneg (M : mat Q) : Forall (fun x => (0 <= x)%Q) (concat (rows (np_abs M))).
Proof.
  apply Forall_concat, Forall_forall. intros r Hr. cbn [np_abs rows] in Hr.
  apply list_elem_of_fmap in Hr as (r0 & -> & _).
  apply Forall_fmap, Forall_forall. intros x _. apply Qabs_nonneg.
Qed.

Lemma nd_abs_nonneg (a : ndarray) : Forall (fun x => (0 <= x)%Q) (entries (nd_abs a)).
Proof.
  destruct a as [v|M]; [|apply np_abs_nonneg].
  apply Forall_fmap, Forall_forall. intros x _. apply Qabs_nonneg.
Qed.

Lemma nd_abs_shape (a : ndarray) : shape (nd_abs a) = shape a.
Proof. destruct a as [v|M]; simpl; [by rewrite length_map | done]. Qed.

Lemma map_Qabs_zeros c : map Qabs (replicate c 0%Q) = replicate c 0%Q.
Proof. induction c as [|c IH]; [done|]. cbn [replicate map]. by rewrite IH. Qed.

Lemma np_abs_zeros r c : np_abs (zeros r c) = zeros r c.
Proof.
  unfold np_abs, zeros. cbn [nrows ncols rows]. f_equal.
  induction r as [|r IH]; [done|]. cbn [replicate map]. by rewrite IH, map_Qabs_zeros.
Qed.

Section AbsOpProps.
Variable is_empty : Zonotope -> bool.

(** X19.  [abs_op] is idempotent and keeps the dimension: it returns a
    zonotope (it never raises), applying it to that zonotope returns the
    same zonotope again, and no entry of the returned center and
    generators is negative.  The premise says that taking absolute values
    does not turn a non-empty zonotope into an empty one. *)
Theorem abs_op_idempotent (Zo : Zonotope) :
  (is_empty Zo = false ->
   is_empty (Zonotope_cG (nd_abs (Z_c Zo)) (np_abs (Z_G Zo))) = false) ->
  exists Za,
    abs_op is_empty Zo = Ok Za /\
    abs_op is_empty Za = Ok Za /\
    Z_dim Za = Z_dim Zo /\
    Forall (fun x => (0 <= x)%Q) (entries (Z_c Za)) /\
    Forall (fun x => (0 <= x)%Q) (entries (Arr2 (Z_G Za))).
Proof.
  intros Hshape.
  assert (Hempty : forall n,
            empty (PyInt (Z.of_nat n)) = Ok (mkZonotope 110 (Arr2 (zeros n 0)) (zeros n 0))).
  { intros n. unfold empty. cbn [as_int].
    assert ((Z.of_nat n <? 0)%Z = false) as -> by (apply Z.ltb_ge; lia).
    by rewrite Nat2Z.id. }
  unfold abs_op at 1. destruct (is_empty Zo) eqn:E.
  - rewrite Hempty. set (Ze := mkZonotope 110 _ _).
    exists Ze. split; [done|]. split; [|split; [done|split]].
    + unfold abs_op. destruct (is_empty Ze).
      * apply Hempty.
      * unfold Ze. cbn [Z_c Z_G nd_abs]. by rewrite !np_abs_zeros.
    + apply Forall_concat, Forall_replicate. constructor.
    + apply Forall_concat, Forall_replicate. constructor.
  - eexists. split; [done|]. split; [|split; [|split]].
    + unfold abs_op. rewrite (Hshape eq_refl). cbn [Z_c Z_G Zonotope_cG].
      by rewrite nd_abs_idem, np_abs_idem.
    + unfold Z_dim. cbn [Z_c Zonotope_cG]. by rewrite nd_abs_shape.
    + apply nd_abs_nonneg.
    + apply np_abs_nonneg.
Qed.
End AbsOpProps.

Lemma abs_op_idempotent_witness :
  exists Za,
    abs_op is_empty_by_shape zono_column = Ok Za /\
    abs_op is_empty_by_shape Za = Ok Za /\
    Z_dim Za = Z_dim zono_column /\
    Forall (fun x => (0 <= x)%Q) (entries (Z_c Za)) /\
    Forall (fun x => (0 <= x)%Q) (entries (Arr2 (Z_G Za))).
Proof.
  apply (abs_op_idempotent is_empty_by_shape zono_column).
  intros _. reflexivity.
Defined.

(** ** The empty constrained zonotope *)

Lemma conZonotope_empty_arrays (n : Z) :
  conZonotope.empty n
  = mkConZonotope (zeros (Z.to_nat n) 1) (zeros (Z.to_nat n) 0) (zeros 0 0) (zeros 0 1).
Proof.
  unfold conZonotope.empty. destruct (0 <? n)%Z eqn:E; [done|].
  apply Z.ltb_ge in E. by replace (Z.to_nat n) with 0 by lia.
Qed.

Lemma origin_description (m : nat) :
  Forall2 Qeq (zip_with Qplus (col (zeros m 1) 0)
                 (map (fun r => dot r []) (rows (zeros m 0))))
              (replicate m 0%Q).
Proof.
  unfold col, zeros. cbn [rows]. induction m as [|m IH]; [constructor|].
  cbn [replicate map zip_with]. constructor; [reflexivity | exact IH].
Qed.

(** X20.  For every integer [n] that numpy accepts as a dimension
    ([n < 2^60]: eight bytes for each of [n] numbers fit a signed 64-bit
    integer), [conZonotope.empty(n)] and [conZonotope.dim] fit together:
    the dimension of the result is [n] ([0] for a negative [n], which is
    not rejected), the center has shape [(n, 1)], the generator matrix
    [(n, 0)], the constraints [(0, 0)] and [(0, 1)].  Read as
    [{c + G·β : A·β = b, β ∈ [-1,1]^g}] these arrays describe exactly the
    origin: the center column is kept, where the empty zonotope has a
    center without columns. *)
Theorem conZonotope_empty_description (n : Z) :
  (n < 2 ^ 60)%Z ->
  let cZ := conZonotope.empty n in
  conZonotope.dim cZ = Z.to_nat n /\
  (nrows (cZ_c cZ) = Z.to_nat n /\ ncols (cZ_c cZ) = 1) /\
  (nrows (cZ_G cZ) = Z.to_nat n /\ ncols (cZ_G cZ) = 0) /\
  (nrows (cZ_A cZ) = 0 /\ ncols (cZ_A cZ) = 0) /\
  (nrows (cZ_b cZ) = 0 /\ ncols (cZ_b cZ) = 1) /\
  (forall x, in_conZonotope cZ x <-> Forall2 Qeq x (replicate (Z.to_nat n) 0%Q)).
Proof.
  intros _ cZ. unfold cZ. rewrite conZonotope_empty_arrays.
  unfold conZonotope.dim. cbn [cZ_c cZ_G cZ_A cZ_b nrows ncols zeros].
  repeat (split; [done|]). intros x. unfold in_conZonotope.
  cbn [cZ_c cZ_G cZ_A cZ_b ncols]. fold (zeros (Z.to_nat n) 1) (zeros (Z.to_nat n) 0).
  pose proof (origin_description (Z.to_nat n)) as Ho. split.
  - intros (beta & Hl & _ & _ & Hx). destruct beta; [|done].
    by apply (Forall2_Qeq_trans _ _ _ Hx).
  - intros Hx. exists []. split; [done|]. split; [constructor|]. split; [constructor|].
    apply (Forall2_Qeq_trans _ _ _ Hx). by apply Forall2_Qeq_sym.
Qed.

Lemma conZonotope_empty_description_witness :
  let cZ := conZonotope.empty 2 in
  conZonotope.dim cZ = Z.to_nat 2 /\
  (nrows (cZ_c cZ) = Z.to_nat 2 /\ ncols (cZ_c cZ) = 1) /\
  (nrows (cZ_G cZ) = Z.to_nat 2 /\ ncols (cZ_G cZ) = 0) /\
  (nrows (cZ_A cZ) = 0 /\ ncols (cZ_A cZ) = 0) /\
  (nrows (cZ_b cZ) = 0 /\ ncols (cZ_b cZ) = 1) /\
  (forall x, in_conZonotope cZ x <-> Forall2 Qeq x (replicate (Z.to_nat 2) 0%Q)).
Proof. apply (conZonotope_empty_description 2). lia. Defined.

(** ** Convex hull of a zonotope and another operand *)

Section ConvHullProps.

Variable representsa_ : Zonotope -> set_kind -> Q -> bool.
Variable enclose : Zonotope -> Zonotope -> res Zonotope.
Variable convHull : Zonotope -> Zonotope -> string -> res Zonotope.
Variable Zonotope_of : ndarray -> res Zonotope.

(** X21.  The convex hull with the empty set is the other operand: for
    two zonotopes of equal dimension and precedence, [convHull_(Z1, Z2)]
    is [Z1] when [Z2] represents the empty set, and [Z2] when only [Z1]
    does.  For a zonotope and a numeric array the order of the operands
    plays no role, and the hull of an empty zonotope and an array [p] is
    the point [p] without generators, whatever the length of [p]: the
    dimensions are compared between two sets only. *)
Theorem convHull_empty_and_order (Z1 Z2 : Zonotope) (p : ndarray) (method : string) :
  Z_dim Z1 = Z_dim Z2 -> Z_precedence Z1 = Z_precedence Z2 ->
  (representsa_ Z2 emptySet 1e-15 = true ->
   convHull_ representsa_ enclose convHull Zonotope_of (HZono Z1) (Some (HZono Z2)) method
   = Ok (HZono Z1)) /\
  (representsa_ Z1 emptySet 1e-15 = true -> representsa_ Z2 emptySet 1e-15 = false ->
   convHull_ representsa_ enclose convHull Zonotope_of (HZono Z1) (Some (HZono Z2)) method
   = Ok (HZono Z2)) /\
  convHull_ representsa_ enclose convHull Zonotope_of (HNumeric p) (Some (HZono Z1)) method
  = convHull_ representsa_ enclose convHull Zonotope_of (HZono Z1) (Some (HNumeric p)) method /\
  (representsa_ Z1 emptySet 1e-15 = true ->
   exists Zp,
     convHull_ representsa_ enclose convHull Zonotope_of (HZono Z1) (Some (HNumeric p)) method
     = Ok (HZono Zp) /\
     Z_c Zp = p /\ nrows (Z_G Zp) = len p /\ ncols (Z_G Zp) = 0).
Proof.
  intros Hd Hp.
  assert (Hprec : (Z_precedence Z2 <? Z_precedence Z1)%Z = false).
  { apply Z.ltb_ge. lia. }
  split; [|split; [|split]].
  - intros He. unfold convHull_. cbn [_reorder_numeric].
    rewrite Hd, Nat.eqb_refl. cbn [negb]. step. by rewrite Hprec, He.
  - intros He1 He2. unfold convHull_. cbn [_reorder_numeric].
    rewrite Hd, Nat.eqb_refl. cbn [negb]. step. by rewrite Hprec, He2, He1.
  - reflexivity.
  - intros He. unfold convHull_. cbn [_reorder_numeric]. step. rewrite He.
    eexists. split; [done|]. done.
Qed.

End ConvHullProps.

Lemma convHull_empty_and_order_witness :
  (representsa_by_shape zono_empty_plane emptySet 1e-15 = true ->
   convHull_ representsa_by_shape enclose_unused convHull_unused Zonotope_of_point
     (HZono zono_column) (Some (HZono zono_empty_plane)) "exact"
   = Ok (HZono zono_column)) /\
  (representsa_by_shape zono_column emptySet 1e-15 = true ->
   representsa_by_shape zono_empty_plane emptySet 1e-15 = false ->
   convHull_ representsa_by_shape enclose_unused convHull_unused Zonotope_of_point
     (HZono zono_column) (Some (HZono zono_empty_plane)) "exact"
   = Ok (HZono zono_empty_plane)) /\
  convHull_ representsa_by_shape enclose_unused convHull_unused Zonotope_of_point
    (HNumeric (Arr1 [0%Q; 0%Q])) (Some (HZono zono_column)) "exact"
  = convHull_ representsa_by_shape enclose_unused convHull_unused Zonotope_of_point
      (HZono zono_column) (Some (HNumeric (Arr1 [0%Q; 0%Q]))) "exact" /\
  (representsa_by_shape zono_column emptySet 1e-15 = true ->
   exists Zp,
     convHull_ representsa_by_shape enclose_unused convHull_unused Zonotope_of_point
       (HZono zono_column) (Some (HNumeric (Arr1 [0%Q; 0%Q]))) "exact"
     = Ok (HZono Zp) /\
     Z_c Zp = Arr1 [0%Q; 0%Q] /\ nrows (Z_G Zp) = len (Arr1 [0%Q; 0%Q]) /\
     ncols (Z_G Zp) = 0).
Proof.
  apply (convHull_empty_and_order representsa_by_shape enclose_unused convHull_unused
           Zonotope_of_point zono_column zono_empty_plane (Arr1 [0%Q; 0%Q]) "exact");
    reflexivity.
Defined.

(** ** Updating the times of reachable sets *)

Section UpdateTimeProps.
Context {set_obj : Type}.
Variable Interval : Q -> Q -> time_val.

Lemma update_point_fits (time : list Q) (R_obj : ReachSet set_obj) :
  fits_times time R_obj = true -> exists R1, update_point time R_obj = Ok R1.
Proof.
  unfold fits_times, raw_times, update_point.
  destruct (timePoint R_obj) as [d|]; [|eauto].
  destruct (d_time d) as [old|]; [|eauto]. intros ->. eauto.
Qed.


Lemma update_interval_point (time : list Q) (R_obj : ReachSet set_obj) :
  timePoint (update_interval Interval time R_obj) = timePoint R_obj /\
  R_parent (update_interval Interval time R_obj) = R_parent R_obj /\
  R_loc (update_interval Interval time R_obj) = R_loc R_obj.
Proof.
  unfold update_interval. destruct (timeInterval R_obj) as [d|]; [|done].
  destruct (d_time d) as [[|first others]|]; try done.
  by destruct (Nat.leb _ _).
Qed.

Lemma refreshed_spec (time : list Q) (R_obj : ReachSet set_obj) :
  fits_times time R_obj = true ->
  raw_times (refreshed Interval time R_obj) = new_point_times time R_obj /\
  R_parent (refreshed Interval time R_obj) = R_parent R_obj /\
  R_loc (refreshed Interval time R_obj) = R_loc R_obj.
Proof.
  intros Hfit. unfold refreshed.
  set (R1 := match update_point time R_obj with Ok R1 => R1 | Raise _ => R_obj end).
  destruct (update_interval_point time R1) as (Hp & Hpa & Hl).
  assert (H1 : raw_times R1 = new_point_times time R_obj /\
               R_parent R1 = R_parent R_obj /\ R_loc R1 = R_loc R_obj).
  { unfold R1, new_point_times, update_point. unfold fits_times in Hfit.
    unfold raw_times in *.
    destruct (timePoint R_obj) as [d|] eqn:E; [|by rewrite E].
    destruct (d_time d) as [old|] eqn:Ed; [|by rewrite E, Ed].
    by rewrite Hfit. }
  destruct H1 as (H1 & H2 & H3). rewrite Hpa, Hl. split; [|done].
  rewrite <- H1. unfold raw_times. by rewrite Hp.
Qed.

Lemma update_loop_fits (time : list Q) (todo updated : list (ReachSet set_obj)) :
  forallb (fits_times time) todo = true ->
  update_loop Interval time updated todo
  = (updated ++ map (refreshed Interval time) todo, Ok tt).
Proof.
  revert updated. induction todo as [|R_obj todo IH]; intros updated Hall.
  - simpl. by rewrite app_nil_r.
  - cbn [forallb] in Hall. apply andb_true_iff in Hall as [Hfit Hall].
    cbn [update_loop map]. destruct (update_point_fits time R_obj Hfit) as [R1 E].
    rewrite E, (IH _ Hall), <- app_assoc. cbn [app]. unfold refreshed at 2. by rewrite E.
Qed.


(** X22.  When every object that has time points has as many as the new
    time vector has entries, [updateTime] returns, and afterwards every
    such object has the new times as its time points; objects without
    time points still have none, and parent and location stay. *)
Theorem updateTime_time_points (R_list : list (ReachSet set_obj)) (time : list Q) :
  forallb (fits_times time) R_list = true ->
  exists R_list',
    updateTime Interval R_list (TimeList time) = (R_list', Ok tt) /\
    length R_list' = length R_list /\
    forall i R_obj R_new, R_list !! i = Some R_obj -> R_list' !! i = Some R_new ->
      raw_times R_new = new_point_times time R_obj /\
      R_parent R_new = R_parent R_obj /\ R_loc R_new = R_loc R_obj.
Proof.
  intros Hall. unfold updateTime. rewrite (update_loop_fits time R_list [] Hall).
  cbn [app]. eexists. split; [done|]. split; [by rewrite length_map|].
  intros i R_obj R_new Hi Hn. rewrite list_lookup_fmap, Hi in Hn. injection Hn as <-.
  apply refreshed_spec.
  apply (proj1 (forallb_forall _ _) Hall). apply list_elem_of_In.
  by eapply list_elem_of_lookup_2.
Qed.

End UpdateTimeProps.

Section UpdateIntervalProps.
Context {set_obj : Type}.
Variable Interval : Q -> Q -> time_val.

Lemma update_entry_new (time : list Q) (l : list time_val) j tv :
  l !! j = Some tv -> update_entry Interval time l j = <[j := new_entry Interval time j tv]> l.
Proof. intros H. unfold update_entry, new_entry. rewrite H. by destruct tv. Qed.

(** The loop over the entries, after the first [k] iterations. *)
Lemma update_entries_prefix (time : list Q) (old : list time_val) (k : nat) :
  k <= length old ->
  foldl (update_entry Interval time) old (seq 0 k)
  = imap (new_entry Interval time) (take k old) ++ drop k old.
Proof.
  induction k as [|k IH]; intros Hk.
  - by rewrite take_0, drop_0.
  - rewrite seq_S, foldl_app, IH by lia. cbn [foldl Nat.add].
    destruct (lookup_lt_is_Some_2 old k) as [tv Htv]; [lia|].
    assert (Hlen : length (imap (new_entry Interval time) (take k old)) = k).
    { rewrite length_imap, length_take. lia. }
    rewrite (update_entry_new time _ k tv).
    2: { rewrite lookup_app_r by lia. rewrite Hlen, Nat.sub_diag.
         by rewrite lookup_drop, Nat.add_0_r. }
    rewrite insert_app_r_alt by lia. rewrite Hlen, Nat.sub_diag.
    rewrite (drop_S old tv k Htv). cbn [insert list_insert].
    rewrite (take_S_r old k tv Htv), imap_app. cbn [imap].
    rewrite length_take, Nat.min_l by lia. rewrite Nat.add_0_r.
    by rewrite <- app_assoc.
Qed.

Lemma update_interval_times (time : list Q) (R_obj : ReachSet set_obj) :
  raw_interval_times (update_interval Interval time R_obj)
  = match raw_interval_times R_obj with
    | Some old =>
        if Nat.leb (length old) (length time)
        then Some (imap (new_entry Interval time) old)
        else Some old
    | None => None
    end.
Proof.
  unfold update_interval, raw_interval_times.
  destruct (timeInterval R_obj) as [d|] eqn:E; [|by rewrite E].
  destruct (d_time d) as [[|first others]|] eqn:Ed; [by rewrite E, Ed | | by rewrite E, Ed].
  destruct (Nat.leb _ _) eqn:El; [|by rewrite E, Ed].
  cbn [timeInterval d_time]. f_equal.
  rewrite update_entries_prefix by done. by rewrite take_ge, drop_ge, app_nil_r by lia.
Qed.

Lemma update_point_interval (time : list Q) (R_obj R1 : ReachSet set_obj) :
  update_point time R_obj = Ok R1 -> timeInterval R1 = timeInterval R_obj.
Proof.
  unfold update_point. destruct (timePoint R_obj) as [d|]; [|by intros [= <-]].
  destruct (d_time d) as [old|]; [|by intros [= <-]].
  destruct (Nat.eqb _ _); [by intros [= <-] | done].
Qed.

(** X24.  The time intervals after an update that returns.  When the
    new time vector has at least as many entries as an object has time
    intervals, entry [j] with an attribute [infimum] becomes the interval
    from [time[j]] to [time[j] + (supremum - infimum)], so its width stays,
    and every other entry becomes the number [time[j]]; when the time
    vector is shorter, the time intervals stay as they are, and no error is
    raised. *)
Theorem updateTime_time_intervals (R_list : list (ReachSet set_obj)) (time : list Q) :
  forallb (fits_times time) R_list = true ->
  exists R_list',
    updateTime Interval R_list (TimeList time) = (R_list', Ok tt) /\
    forall i R_obj R_new old,
      R_list !! i = Some R_obj -> R_list' !! i = Some R_new ->
      raw_interval_times R_obj = Some old ->
      (length old <= length time ->
       raw_interval_times R_new = Some (imap (new_entry Interval time) old)) /\
      (length time < length old -> raw_interval_times R_new = Some old).
Proof.
  intros Hall. unfold updateTime. rewrite (update_loop_fits Interval time R_list [] Hall).
  cbn [app]. eexists. split; [done|].
  intros i R_obj R_new old Hi Hn Hold. rewrite list_lookup_fmap, Hi in Hn.
  injection Hn as <-. unfold refreshed.
  assert (Hfit : fits_times time R_obj = true).
  { apply (proj1 (forallb_forall _ _) Hall). apply list_elem_of_In.
    by eapply list_elem_of_lookup_2. }
  destruct (update_point_fits time R_obj Hfit) as [R1 E]. rewrite E.
  rewrite update_interval_times. unfold raw_interval_times in *.
  rewrite (update_point_interval time R_obj R1 E), Hold. split; intros Hl.
  - by rewrite (proj2 (Nat.leb_le _ _) Hl).
  - by rewrite (proj2 (Nat.leb_gt _ _) Hl).
Qed.
End UpdateIntervalProps.

Lemma updateTime_time_points_witness :
  exists R_list',
    updateTime Interval_of_bounds [reach_with_intervals; reach_at [TOpaque; TNumber 3]]
               (TimeList [5%Q; 6%Q]) = (R_list', Ok tt) /\
    length R_list' = length [reach_with_intervals; reach_at [TOpaque; TNumber 3]] /\
    forall i R_obj R_new,
      [reach_with_intervals; reach_at [TOpaque; TNumber 3]] !! i = Some R_obj ->
      R_list' !! i = Some R_new ->
      raw_times R_new = new_point_times [5%Q; 6%Q] R_obj /\
      R_parent R_new = R_parent R_obj /\ R_loc R_new = R_loc R_obj.
Proof.
  apply (updateTime_time_points Interval_of_bounds
           [reach_with_intervals; reach_at [TOpaque; TNumber 3]] [5%Q; 6%Q]).
  reflexivity.
Defined.


Lemma updateTime_time_intervals_witness :
  exists R_list',
    updateTime Interval_of_bounds [reach_with_intervals] (TimeList [5%Q; 6%Q])
      = (R_list', Ok tt) /\
    forall i R_obj R_new old,
      [reach_with_intervals] !! i = Some R_obj -> R_list' !! i = Some R_new ->
      raw_interval_times R_obj = Some old ->
      (length old <= length [5%Q; 6%Q] ->
       raw_interval_times R_new
       = Some (imap (new_entry Interval_of_bounds [5%Q; 6%Q]) old)) /\
      (length [5%Q; 6%Q] < length old -> raw_interval_times R_new = Some old).
Proof.
  apply (updateTime_time_intervals Interval_of_bounds [reach_with_intervals] [5%Q; 6%Q]).
  reflexivity.
Defined.

(** ** The box that the enclosure describes *)

Lemma dot_indicator_miss (i a n : nat) (x : list Q) :
  i < a ->
  (dot (map (fun j => if Nat.eqb i j then 1 else 0)%Q (seq a n)) x == 0)%Q.
Proof.
  revert a x. induction n as [|n IH]; intros a x Hi; [by rewrite dot_nil_l|].
  destruct x as [|y x]; [by rewrite dot_nil_r|]. cbn [seq map].
  rewrite dot_cons, IH by lia.
  destruct (Nat.eqb i a) eqn:E; [apply Nat.eqb_eq in E; lia|]. ring.
Qed.

Lemma dot_eye_row (i a n : nat) (x : list Q) :
  length x = n -> a <= i < a + n ->
  (dot (map (fun j => if Nat.eqb i j then 1 else 0)%Q (seq a n)) x == nth (i - a) x 0)%Q.
Proof.
  revert a x. induction n as [|n IH]; intros a x Hl Hi; [lia|].
  destruct x as [|y x]; [done|]. cbn [seq map]. rewrite dot_cons.
  destruct (Nat.eqb i a) eqn:E.
  - apply Nat.eqb_eq in E. subst a. rewrite Nat.sub_diag. cbn [nth].
    rewrite dot_indicator_miss by lia. ring.
  - apply Nat.eqb_neq in E. rewrite IH by (simpl in Hl; lia).
    replace (i - a) with (S (i - S a)) by lia. cbn [nth]. ring.
Qed.

Section BoxMore.

Variable support_vector : Type.
Variable priv_supportFunc :
  mat Q -> mat Q -> mat Q -> mat Q -> mat Q -> support_type -> xfloat * support_vector.
Variables A b Ae be : mat Q.
Variable n : nat.

Let up := support_along support_vector priv_supportFunc A b Ae be n upper.
Let lo := support_along support_vector priv_supportFunc A b Ae be n lower.

(** X25.  When all upper and lower support values are finite, the system
    [priv_box_H] returns is the box they span: a point [x] satisfies the
    rows of [A = [I; -I]], [b = [ub; -lb]] within [tol] if and only if
    [lb[i] - tol <= x[i] <= ub[i] + tol] for every coordinate [i]. *)
Theorem priv_box_H_describes_box (u l : nat -> Q) (x : list Q) (tol : Q) :
  (forall i, i < n -> up i = Fin (u i) /\ lo i = Fin (l i)) ->
  length x = n ->
  let bq := Mat (n + n) 1 (map (fun i => [u i]) (seq 0 n)
                           ++ map (fun i => [(- l i)%Q]) (seq 0 n)) in
  exists A_out b_out,
    priv_box_H support_vector priv_supportFunc A b Ae be n = Ok (A_out, b_out, false) /\
    nrows A_out = n + n /\ ncols A_out = n /\
    rows b_out = map (map Fin) (rows bq) /\
    (satisfies_rows A_out bq x tol <->
     forall i, i < n -> (l i - tol <= nth i x 0)%Q /\ (nth i x 0 <= u i + tol)%Q).
Proof.
  intros Hfin Hx bq.
  pose proof (box_loop_spec support_vector priv_supportFunc A b Ae be n n 0 eq_refl) as Hloop.
  fold up lo in Hloop.
  assert (Hno : existsb (fun i => is_ninf (up i)) (seq 0 n) = false).
  { apply not_true_is_false. intros Hex. apply existsb_exists in Hex as (i & Hi & Hu).
    apply in_seq in Hi. destruct (Hfin i) as [E _]; [lia|]. by rewrite E in Hu. }
  rewrite Hno in Hloop.
  unfold priv_box_H.
  rewrite (full_col_bounds n PInf up), (full_col_bounds n NInf lo), Hloop.
  unfold vstack, bounds_upto. cbn [nrows ncols rows eye mneg xmneg].
  rewrite !Nat.eqb_refl. step. rewrite Nat.sub_diag. cbn [replicate].
  eexists _, _. split; [done|]. cbn [nrows ncols rows].
  split; [done|]. split; [done|]. split.
  - unfold bq. cbn [rows]. rewrite !app_nil_r, !map_app, !map_map. f_equal.
    + apply map_ext_in. intros i Hi. apply in_seq in Hi.
      destruct (Hfin i) as [E _]; [lia|]. cbn [map]. by rewrite E.
    + apply map_ext_in. intros i Hi. apply in_seq in Hi.
      destruct (Hfin i) as [_ E]; [lia|]. cbn [map]. by rewrite E.
  - unfold satisfies_rows, get, bq. cbn [nrows rows].
    assert (Htop : forall i, i < n ->
      (dot (nth i (map (fun i => map (fun j => if Nat.eqb i j then 1 else 0)%Q (seq 0 n))
                       (seq 0 n)
                   ++ map (map Qopp)
                        (map (fun i => map (fun j => if Nat.eqb i j then 1 else 0)%Q (seq 0 n))
                             (seq 0 n))) []) x
       - nth 0 (nth i (map (fun i => [u i]) (seq 0 n)
                       ++ map (fun i => [(- l i)%Q]) (seq 0 n)) []) 0
       == nth i x 0 - u i)%Q).
    { intros i Hi.
      rewrite (nth_row_lookup _ i (map (fun j => if Nat.eqb i j then 1 else 0)%Q (seq 0 n))).
      2: { rewrite lookup_app_l by (rewrite length_map, length_seq; lia).
           rewrite list_lookup_fmap, lookup_seq_lt by done. done. }
      rewrite (nth_row_lookup _ i [u i]).
      2: { rewrite lookup_app_l by (rewrite length_map, length_seq; lia).
           rewrite list_lookup_fmap, lookup_seq_lt by done. done. }
      rewrite dot_eye_row by (done || lia). rewrite Nat.sub_0_r. cbn [nth]. ring. }
    assert (Hbot : forall i, i < n ->
      (dot (nth (n + i)
                (map (fun i => map (fun j => if Nat.eqb i j then 1 else 0)%Q (seq 0 n))
                       (seq 0 n)
                   ++ map (map Qopp)
                        (map (fun i => map (fun j => if Nat.eqb i j then 1 else 0)%Q (seq 0 n))
                             (seq 0 n))) []) x
       - nth 0 (nth (n + i) (map (fun i => [u i]) (seq 0 n)
                             ++ map (fun i => [(- l i)%Q]) (seq 0 n)) []) 0
       == l i - nth i x 0)%Q).
    { intros i Hi.
      rewrite (nth_row_lookup _ (n + i)
                 (map Qopp (map (fun j => if Nat.eqb i j then 1 else 0)%Q (seq 0 n)))).
      2: { rewrite lookup_app_r by (rewrite length_map, length_seq; lia).
           rewrite length_map, length_seq. replace (n + i - n) with i by lia.
           rewrite !list_lookup_fmap, lookup_seq_lt by done. done. }
      rewrite (nth_row_lookup _ (n + i) [(- l i)%Q]).
      2: { rewrite lookup_app_r by (rewrite length_map, length_seq; lia).
           rewrite length_map, length_seq. replace (n + i - n) with i by lia.
           rewrite list_lookup_fmap, lookup_seq_lt by done. done. }
      rewrite dot_neg, dot_eye_row by (done || lia). rewrite Nat.sub_0_r. cbn [nth]. ring. }
    split.
    + intros H i Hi. split.
      * pose proof (H (n + i) ltac:(lia)) as Hb. rewrite Hbot in Hb by done. lra.
      * pose proof (H i ltac:(lia)) as Ht. rewrite Htop in Ht by done. lra.
    + intros H k Hk. destruct (Nat.lt_ge_cases k n) as [Hlt|Hge].
      * rewrite Htop by done. destruct (H k Hlt) as [_ Hu]. lra.
      * replace k with (n + (k - n)) by lia. rewrite Hbot by lia.
        destruct (H (k - n) ltac:(lia)) as [Hl _]. lra.
Qed.
End BoxMore.

Lemma priv_box_H_describes_box_witness :
  let bq := Mat (2 + 2) 1 (map (fun i => [(fun _ : nat => 1%Q) i]) (seq 0 2)
                           ++ map (fun i => [(- (fun _ : nat => (-1)%Q) i)%Q]) (seq 0 2)) in
  exists A_out b_out,
    priv_box_H unit support_unit_box (zeros 0 2) (zeros 0 1) (zeros 0 2) (zeros 0 1) 2
      = Ok (A_out, b_out, false) /\
    nrows A_out = 2 + 2 /\ ncols A_out = 2 /\
    rows b_out = map (map Fin) (rows bq) /\
    (satisfies_rows A_out bq [0%Q; (1 # 2)%Q] 0 <->
     forall i, i < 2 ->
       ((fun _ : nat => (-1)%Q) i - 0 <= nth i [0%Q; (1 # 2)%Q] 0)%Q /\
       (nth i [0%Q; (1 # 2)%Q] 0 <= (fun _ : nat => 1%Q) i + 0)%Q).
Proof.
  apply (priv_box_H_describes_box unit support_unit_box
           (zeros 0 2) (zeros 0 1) (zeros 0 2) (zeros 0 1) 2
           (fun _ => 1%Q) (fun _ => (-1)%Q) [0%Q; (1 # 2)%Q] 0).
  - intros i Hi. split; reflexivity.
  - reflexivity.
Defined.

(** ** Containment of a set given by its vertices *)

Section ContainsSets.
Variable linalg_norm : mat Q -> Q.

End ContainsSets.


(** ** A point as a polytope and as a column *)

Lemma col_tabulate (r c : nat) (f : nat -> nat -> Q) j :
  j < c ->
  col (Mat r c (map (fun i => map (fun j => f i j) (seq 0 c)) (seq 0 r))) j
  = map (fun i => f i j) (seq 0 r).
Proof.
  intros Hj. unfold col. cbn [rows]. rewrite map_map. apply map_ext. intros i.
  rewrite (nth_indep _ 0%Q (f i 0)) by (by rewrite length_map, length_seq).
  rewrite (map_nth (fun j => f i j) (seq 0 c) 0 j). by rewrite seq_nth.
Qed.

Lemma col_as_entries (M : mat Q) j :
  length (rows M) = nrows M -> col M j = map (fun i => get M i j) (seq 0 (nrows M)).
Proof.
  intros Hl. unfold col, get. rewrite <- Hl. clear Hl.
  induction (rows M) as [|r rs IH]; [done|].
  cbn [length seq map nth]. f_equal. rewrite IH, <- seq_shift, map_map. done.
Qed.

Section PlusVertex.
Variable dim : Polytope -> nat.
Variable representsa : Polytope -> set_kind -> Q -> bool.
Variable project : Polytope -> list nat -> res Polytope.
Variable constraints : Polytope -> res Polytope.
Variable priv_plus_minus_vector :
  option (mat Q) -> option (mat Q) -> option (mat Q) -> option (mat Q) -> mat Q ->
  res (mat Q * mat Q * option (mat Q) * option (mat Q)).

(** X27.  Two ways of adding a point agree.  For a polytope in vertex
    representation, [plus] with the polytope of the single vertex [v] (the
    pairwise vertex sums) and [_aux_plus_poly_point] with the column [v]
    (the translation) return vertex arrays of the same shape with the
    same columns. *)
Theorem plus_single_vertex_translates (p1 : Polytope) (V1 v : mat Q) :
  dim p1 = dim (Polytope_V v) ->
  P_isHRep p1 = false -> P_isVRep p1 = true -> P_V p1 = Some V1 ->
  wf_mat V1 -> wf_mat v -> nrows V1 = dim p1 -> nrows v = dim p1 -> ncols v = 1 ->
  (forall kind, representsa p1 kind 1e-10 = false) ->
  (forall kind, representsa (Polytope_V v) kind 1e-10 = false) ->
  exists Vs Vt,
    plus dim representsa project constraints p1 (Polytope_V v) = Ok (Polytope_V Vs) /\
    _aux_plus_poly_point dim priv_plus_minus_vector constraints p1 v = Ok (Polytope_V Vt) /\
    nrows Vs = nrows Vt /\ ncols Vs = ncols Vt /\
    forall j, j < ncols V1 -> col Vs j = col Vt j.
Proof.
  intros Hd HH HV HPV Hw1 Hwv Hn1 Hnv Hcv Hr1 Hr2.
  destruct (sum_vertices_spec V1 v (dim p1) Hw1 Hwv Hn1 Hnv)
    as (Vs & Hrun & _ & Hr & Hc & Hcol & _).
  exists Vs. eexists. split; [|split].
  - by apply (plus_Vpoly_Vpoly_run dim representsa project constraints p1 (Polytope_V v) V1 v Vs).
  - apply (plus_poly_point_vertices dim priv_plus_minus_vector constraints p1 V1 v);
      [done | done | done | congruence | congruence | done].
  - cbn [nrows ncols]. split; [congruence|]. split; [lia|].
    intros j Hj. rewrite Hcv in Hcol.
    replace j with (0 * ncols V1 + j) at 1 by lia. rewrite Hcol by lia.
    rewrite (col_tabulate _ _ (fun i j => (bget V1 i j + bget v i j)%Q)) by done.
    unfold vertex_sum. destruct Hw1 as [Hl1 _], Hwv as [Hlv _].
    rewrite (col_as_entries V1 j Hl1), (col_as_entries v 0 Hlv), Hnv, <- Hn1.
    rewrite zip_with_fmap_l, zip_with_fmap_r, zip_with_diag.
    apply map_ext_in. intros i Hi. apply in_seq in Hi.
    rewrite (bget_inner V1) by lia. f_equal.
    rewrite bget_column_entry by done.
    destruct (Nat.eqb (nrows v) 1) eqn:E; [|done]. apply Nat.eqb_eq in E.
    by replace i with 0 by lia.
Qed.
End PlusVertex.

Lemma plus_single_vertex_translates_witness :
  exists Vs Vt,
    plus dim_of representsa_canonical project_unused constraints_unused
      (Polytope_V two_vertices) (Polytope_V (Mat 2 1 [[1%Q]; [1%Q]])) = Ok (Polytope_V Vs) /\
    _aux_plus_poly_point dim_of plus_minus_vector_unused constraints_unused
      (Polytope_V two_vertices) (Mat 2 1 [[1%Q]; [1%Q]]) = Ok (Polytope_V Vt) /\
    nrows Vs = nrows Vt /\ ncols Vs = ncols Vt /\
    forall j, j < ncols two_vertices -> col Vs j = col Vt j.
Proof.
  apply (plus_single_vertex_translates dim_of representsa_canonical project_unused
           constraints_unused plus_minus_vector_unused
           (Polytope_V two_vertices) two_vertices (Mat 2 1 [[1%Q]; [1%Q]]));
    try reflexivity.
  - split; [reflexivity | repeat constructor].
  - split; [reflexivity | repeat constructor].
  - intros []; reflexivity.
  - intros []; reflexivity.
Defined.

(** ** Projection of reachable sets *)

Lemma validate_dims_ok (ds : list Z) :
  Forall (fun d => (0 <= d)%Z) ds -> validate_dims (DimsList (map DimInt ds)) = Ok ds.
Proof.
  intros H. unfold validate_dims.
  rewrite (mapM_ok check_dim (fun e => match e with DimInt d => d | DimOther => 0%Z end)).
  - rewrite map_map. f_equal. by rewrite map_id.
  - apply Forall_fmap. eapply Forall_impl; [exact H|]. intros d Hd. simpl.
    by rewrite (proj2 (Z.ltb_ge d 0) Hd).
Qed.

Lemma select_rows_ok (M : mat Q) (ds : list Z) :
  in_range (length (rows M)) ds ->
  select (rows M) ds = Ok (map (fun d => nth (Z.to_nat d) (rows M) []) ds).
Proof.
  intros H. unfold select. apply mapM_ok. eapply Forall_impl; [exact H|].
  intros d Hd. cbn beta in *. apply index_ok.
  destruct (lookup_lt_is_Some_2 (rows M) (Z.to_nat d)) as [r Hr]; [lia|].
  by rewrite Hr, (nth_row_lookup _ _ _ Hr).
Qed.

Section ProjectProps.
Variable set_project : unit -> list Z -> res unit.

Lemma project_arrays_ok (n : nat) (ds : list Z) (Ms : list (mat Q)) :
  in_range n ds -> Forall (fun M => length (rows M) = n) Ms ->
  mapM (reachSet.project_set set_project ds) (map array_set Ms)
  = Ok (map array_set (map (selected_rows ds) Ms)).
Proof.
  intros Hr HM. rewrite map_map.
  rewrite (mapM_ok _ (fun s => match s with
                               | SetArray (Arr2 M) => array_set (selected_rows ds M)
                               | _ => s
                               end)).
  - by rewrite map_map.
  - apply Forall_fmap. eapply Forall_impl; [exact HM|]. intros M HMn. simpl.
    rewrite select_rows_ok by (by rewrite HMn). done.
Qed.

(** The call on an object whose sets are two-dimensional arrays. *)
Lemma project_arrays_run (n : nat) (ds : list Z) (Ms1 Ms2 : list (mat Q))
    (t1 t2 : option (list time_val)) (e1 e2 a1 a2 : option (list Q)) (parent loc : Z) :
  in_range n ds ->
  Forall (fun M => length (rows M) = n) Ms1 ->
  Forall (fun M => length (rows M) = n) Ms2 ->
  reachSet.project set_project
    (mkReachSet (Some (mkTimeDict (Some (map array_set Ms1)) t1 e1 a1))
                (Some (mkTimeDict (Some (map array_set Ms2)) t2 e2 a2)) parent loc)
    (DimsList (map DimInt ds))
  = Ok (mkReachSet
          (Some (mkTimeDict (Some (map array_set (map (selected_rows ds) Ms1))) t1 e1 None))
          (Some (mkTimeDict (Some (map array_set (map (selected_rows ds) Ms2))) t2 e2 a2))
          parent loc).
Proof.
  intros Hr H1 H2.
  assert (Hpos : Forall (fun d => (0 <= d)%Z) ds).
  { eapply Forall_impl; [exact Hr|]. intros d Hd. simpl in Hd. lia. }
  pose proof (project_arrays_ok n ds Ms1 Hr H1) as E1.
  pose proof (project_arrays_ok n ds Ms2 Hr H2) as E2.
  unfold reachSet.project. rewrite (validate_dims_ok ds Hpos).
  cbn [timePoint timeInterval R_parent R_loc]. step.
  unfold reachSet.project_dict. cbn [d_set d_time d_error d_algebraic].
  rewrite E1. step. rewrite E2. step. reflexivity.
Qed.

Lemma compose_dims_in_range (n : nat) (ds ds2 : list Z) :
  in_range n ds -> in_range (length ds) ds2 -> in_range n (compose_dims ds ds2).
Proof.
  intros Hr Hr2. unfold compose_dims. apply Forall_fmap.
  eapply Forall_impl; [exact Hr2|]. intros d Hd. unfold compose. cbn beta in *.
  destruct (lookup_lt_is_Some_2 ds (Z.to_nat d)) as [d' Hd']; [lia|].
  rewrite (nth_lookup_Some _ _ 0%Z _ Hd').
  apply (proj1 (Forall_forall _ _) Hr). by eapply list_elem_of_lookup_2.
Qed.

Lemma selected_rows_compose (ds ds2 : list Z) (M : mat Q) :
  in_range (length ds) ds2 ->
  selected_rows ds2 (selected_rows ds M) = selected_rows (compose_dims ds ds2) M.
Proof.
  intros Hr2. unfold selected_rows, compose_dims. cbn [rows ncols].
  rewrite length_map, map_map. f_equal.
  apply map_ext_in. intros d Hd. apply list_elem_of_In in Hd.
  pose proof (proj1 (Forall_forall _ _) Hr2 d Hd) as Hrange. cbn beta in Hrange.
  destruct (lookup_lt_is_Some_2 ds (Z.to_nat d)) as [d' Hd']; [lia|].
  rewrite (nth_lookup_Some _ _ 0%Z _ Hd').
  apply nth_row_lookup. by rewrite list_lookup_fmap, Hd'.
Qed.

(** X28.  [project] on a reachable set whose stored sets are
    two-dimensional arrays of [n] rows, with indices [dims] in range:
    every set becomes the array of its rows [dims], in the order of
    [dims]; the times and errors are copied, the parent and the location
    kept, and the key [algebraic] is copied for the time intervals only.
    Without the key [set] among the time points the projected time-point
    dictionary is empty: the times are dropped with it.  Projecting twice
    is projecting once with the composed indices. *)
Theorem project_selects_rows (n : nat) (ds ds2 : list Z) (Ms1 Ms2 : list (mat Q))
    (t1 t2 : option (list time_val)) (e1 e2 a1 a2 : option (list Q)) (parent loc : Z) :
  in_range n ds ->
  Forall (fun M => length (rows M) = n) Ms1 ->
  Forall (fun M => length (rows M) = n) Ms2 ->
  let R := mkReachSet (Some (mkTimeDict (Some (map array_set Ms1)) t1 e1 a1))
                      (Some (mkTimeDict (Some (map array_set Ms2)) t2 e2 a2)) parent loc in
  reachSet.project set_project R (DimsList (map DimInt ds))
  = Ok (mkReachSet
          (Some (mkTimeDict (Some (map array_set (map (selected_rows ds) Ms1))) t1 e1 None))
          (Some (mkTimeDict (Some (map array_set (map (selected_rows ds) Ms2))) t2 e2 a2))
          parent loc) /\
  reachSet.project set_project
    (mkReachSet (Some (mkTimeDict None t1 e1 a1)) (timeInterval R) parent loc)
    (DimsList (map DimInt ds))
  = Ok (mkReachSet
          (Some (mkTimeDict None None None None))
          (Some (mkTimeDict (Some (map array_set (map (selected_rows ds) Ms2))) t2 e2 a2))
          parent loc) /\
  (in_range (length ds) ds2 ->
   (R1 ← reachSet.project set_project R (DimsList (map DimInt ds));
    reachSet.project set_project R1 (DimsList (map DimInt ds2)))
   = reachSet.project set_project R (DimsList (map DimInt (compose_dims ds ds2)))).
Proof.
  intros Hr H1 H2 R. split; [|split].
  - by apply (project_arrays_run n).
  - assert (Hpos : Forall (fun d => (0 <= d)%Z) ds).
    { eapply Forall_impl; [exact Hr|]. intros d Hd. simpl in Hd. lia. }
    pose proof (project_arrays_ok n ds Ms2 Hr H2) as E2.
    unfold reachSet.project. rewrite (validate_dims_ok ds Hpos).
    cbn [R timePoint timeInterval R_parent R_loc]. step.
    unfold reachSet.project_dict. cbn [d_set d_time d_error d_algebraic].
    step. rewrite E2. step. reflexivity.
  - intros Hr2. unfold R.
    rewrite (project_arrays_run n ds Ms1 Ms2 t1 t2 e1 e2 a1 a2 parent loc Hr H1 H2). step.
    assert (Hsel : forall Ms : list (mat Q),
              Forall (fun M => length (rows M) = length ds) (map (selected_rows ds) Ms)).
    { intros Ms. apply Forall_fmap, Forall_forall. intros M _. simpl. by rewrite length_map. }
    rewrite (project_arrays_run (length ds) ds2 _ _ t1 t2 e1 e2 None a2 parent loc
               Hr2 (Hsel Ms1) (Hsel Ms2)).
    rewrite (project_arrays_run n (compose_dims ds ds2) Ms1 Ms2 t1 t2 e1 e2 a1 a2 parent loc
               (compose_dims_in_range n ds ds2 Hr Hr2) H1 H2).
    assert (Hcomp : forall Ms : list (mat Q),
              map (selected_rows ds2) (map (selected_rows ds) Ms)
              = map (selected_rows (compose_dims ds ds2)) Ms).
    { intros Ms. rewrite map_map. apply map_ext. intros M.
      by apply selected_rows_compose. }
    by rewrite !Hcomp.
Qed.
End ProjectProps.

Lemma project_selects_rows_witness :
  let R := mkReachSet
             (Some (mkTimeDict (Some (map array_set [two_vertices]))
                               (Some [TNumber 0]) None (Some [1%Q])))
             (Some (mkTimeDict (Some (map array_set [three_vertices]))
                               (Some [TInfimum 0 1]) None (Some [2%Q]))) 0 1 in
  reachSet.project set_project_unused R (DimsList (map DimInt [1; 0]%Z))
  = Ok (mkReachSet
          (Some (mkTimeDict
                   (Some (map array_set (map (selected_rows [1; 0]%Z) [two_vertices])))
                   (Some [TNumber 0]) None None))
          (Some (mkTimeDict
                   (Some (map array_set (map (selected_rows [1; 0]%Z) [three_vertices])))
                   (Some [TInfimum 0 1]) None (Some [2%Q])))
          0 1) /\
  reachSet.project set_project_unused
    (mkReachSet (Some (mkTimeDict None (Some [TNumber 0]) None (Some [1%Q])))
                (timeInterval R) 0 1)
    (DimsList (map DimInt [1; 0]%Z))
  = Ok (mkReachSet
          (Some (mkTimeDict None None None None))
          (Some (mkTimeDict
                   (Some (map array_set (map (selected_rows [1; 0]%Z) [three_vertices])))
                   (Some [TInfimum 0 1]) None (Some [2%Q])))
          0 1) /\
  (in_range (length [1; 0]%Z) [0%Z] ->
   (R1 ← reachSet.project set_project_unused R (DimsList (map DimInt [1; 0]%Z));
    reachSet.project set_project_unused R1 (DimsList (map DimInt [0%Z])))
   = reachSet.project set_project_unused R
       (DimsList (map DimInt (compose_dims [1; 0]%Z [0%Z])))).
Proof.
  apply (project_selects_rows set_project_unused 2 [1; 0]%Z [0%Z]
           [two_vertices] [three_vertices] (Some [TNumber 0]) (Some [TInfimum 0 1])
           None None (Some [1%Q]) (Some [2%Q]) 0%Z 1%Z).
  - apply Forall_cons. split; [simpl; lia|].
    apply Forall_cons. split; [simpl; lia|]. apply Forall_nil. exact I.
  - repeat constructor.
  - repeat constructor.
Defined.

(** ** Comparisons of binary64 numbers *)

(** The order of the binary64 numbers, from the specification of the
    primitive comparisons: NaN compares false with everything, and the
    other values, the infinities included, are totally ordered by [<=],
    the two zeros being equal. *)
Section Float64Order.
Import PrimFloat SpecFloat FloatOps FloatAxioms.

Lemma SFcompare_antisym (a b : spec_float) :
  SFcompare b a = option_map CompOpp (SFcompare a b).
Proof.
  destruct a as [sa|sa| |sa ma ea], b as [sb|sb| |sb mb eb]; simpl;
    try destruct sa; try destruct sb; simpl; try reflexivity.
  all: rewrite (Z.compare_antisym ea eb); destruct (ea ?= eb)%Z; simpl; try reflexivity.
  all: fold (Pos.compare ma mb) (Pos.compare mb ma); rewrite (Pos.compare_antisym ma mb);
    destruct (ma ?= mb)%positive; reflexivity.
Qed.

Lemma SFcompare_refl (a : spec_float) : a <> S754_nan -> SFcompare a a = Some Eq.
Proof.
  destruct a as [s|s| |s m e]; simpl; intros H; try done.
  - by destruct s.
  - fold (Pos.compare m m). rewrite Z.compare_refl, Pos.compare_refl. by destruct s.
Qed.


Lemma is_nan_spec (x : float) : is_nan x = true <-> Prim2SF x = S754_nan.
Proof.
  unfold is_nan. rewrite FloatAxioms.eqb_spec. unfold SFeqb. split.
  - intros H. destruct (Prim2SF x) eqn:E; try done; rewrite SFcompare_refl in H; done.
  - by intros ->.
Qed.

Lemma not_nan_spec (x : float) : is_nan x = false <-> Prim2SF x <> S754_nan.
Proof. rewrite <- is_nan_spec. by destruct (is_nan x). Qed.

(** A comparison that holds has no NaN operand. *)
Lemma float_leb_numbers (x y : float) :
  (x <=? y)%float = true -> is_nan x = false /\ is_nan y = false.
Proof.
  rewrite leb_spec, !not_nan_spec. unfold SFleb.
  destruct (Prim2SF x), (Prim2SF y); simpl; try done.
Qed.




(** On numbers, [x <= y] holds exactly when [y < x] does not. *)
Lemma float_leb_not_ltb (x y : float) :
  is_nan x = false -> is_nan y = false -> (x <=? y)%float = negb (y <? x)%float.
Proof.
  rewrite !not_nan_spec, leb_spec, ltb_spec. intros Hx Hy.
  unfold SFleb, SFltb. rewrite (SFcompare_antisym (Prim2SF x) (Prim2SF y)).
  destruct (SFcompare (Prim2SF x) (Prim2SF y)) as [[| |]|] eqn:E; simpl; try done.
  destruct (Prim2SF x), (Prim2SF y); simpl in E; done.
Qed.



End Float64Order.

(** ** The point check on binary64 numbers *)

Section Float64Maximum.
Import PrimFloat Float64.







End Float64Maximum.

Section Float64Contains.
Import PrimFloat Float64.

Variable product : mat float -> mat float -> nat -> nat -> float.
Variable linalg_norm : mat float -> float.

(** *** The column of residuals *)











End Float64Contains.

Section Float64Run.
Import PrimFloat Float64.

Variable product : mat float -> mat float -> nat -> nat -> float.
Variable linalg_norm : mat float -> float.




(** *** The outcome of one point *)


End Float64Run.

Section Float64Claims.
Import PrimFloat Float64.

Variable product : mat float -> mat float -> nat -> nat -> float.
Variable linalg_norm : mat float -> float.








End Float64Claims.

(** *** Worked queries *)

Section Float64Queries.
Import PrimFloat Float64.



(** The point [(0.1, 0.2, -0.3)] is reported as outside the halfspace
    [x + y + z <= 4e-17]: the computed sum is [2^-54]. *)
Example thin_halfspace_run :
  _contains_pointcloud product_lr norm_lr thin_halfspace thin_point "exact" 0%float true false
  = Ok (BScalar false, true, FScalar infinity).
Proof. vm_compute. reflexivity. Qed.

(** A point with a NaN coordinate is reported as contained: no comparison
    with NaN finds a violation. *)
Example nan_point_run :
  _contains_pointcloud product_lr norm_lr segment (Arr1 [nan]) "exact" 1e-12%float true false
  = Ok (BScalar true, true, FScalar infinity).
Proof. vm_compute. reflexivity. Qed.

(** The point [1.000000000002] violates [x <= 1] by more than the
    tolerance [1e-12] and is reported as not contained, with the scaling
    factor 1: the quotient of the violation and [‖b‖], about [2e-18], is
    lost in the sum. *)
Example long_segment_run :
  _contains_pointcloud product_lr norm_lr long_segment near_point "exact" 1e-12%float true true
  = Ok (BScalar false, true, FScalar 1%float).
Proof. vm_compute. reflexivity. Qed.




(** C7.  Where the code departs from the scaling factor of the claim: the
    point [1/2] satisfies the inequality [x <= 1] and violates the equality
    [x = 0].  It is reported as not contained, with the scaling factor 1,
    the value of a contained point; the claim gives a point that is not
    contained [1 + maxViolation/‖b‖], which is [1/2] here.  With the same
    equality and no inequality row the factor of that point stays
    [+inf]. *)
Theorem contains_pointcloud_scaling_of_excluded_point :
  _contains_pointcloud product_lr norm_lr
    pinned half_point "exact" 1e-12%float true true
  = Ok (BScalar false, true, FScalar 1%float) /\
  max_violation_of product_lr (Mat 1 1 [[1%float]]) (Some (Mat 1 1 [[1%float]]))
    (as_points half_point) = Ok (-0.5)%float /\
  norm_lr (Mat 1 1 [[1%float]]) = 1%float /\
  (1 + (-0.5) / 1 = 0.5)%float /\
  _contains_pointcloud product_lr norm_lr
    pinned_by_equality half_point "exact" 1e-12%float true true
  = Ok (BScalar false, true, FScalar infinity).
Proof. vm_compute. repeat split; reflexivity. Qed.

End Float64Queries.

(** ** Monitoring a simulation result *)


(** The time test [t[-1] <= t[0]] fails exactly when the trajectory ends
    after it starts or one of the two times is NaN. *)
Lemma time_test_fails (first last : PrimFloat.float) :
  PrimFloat.leb last first = false <->
  PrimFloat.ltb first last = true \/
  PrimFloat.is_nan first = true \/ PrimFloat.is_nan last = true.
Proof.
  destruct (PrimFloat.is_nan first) eqn:Ef.
  { split; [by intros _; right; left|]. intros _.
    destruct (PrimFloat.leb last first) eqn:E; [|done].
    apply float_leb_numbers in E as [_ E]. congruence. }
  destruct (PrimFloat.is_nan last) eqn:El.
  { split; [by intros _; right; right|]. intros _.
    destruct (PrimFloat.leb last first) eqn:E; [|done].
    apply float_leb_numbers in E as [E _]. congruence. }
  rewrite (float_leb_not_ltb last first El Ef).
  destruct (PrimFloat.ltb first last); simpl; intuition congruence.
Qed.

Lemma check_trajectory_true (s : SimResult) (j : nat) :
  check_trajectory s j = Ok true <-> valid_trajectory s j.
Proof.
  unfold check_trajectory, valid_trajectory, index. cbv zeta. split.
  - intros H. destruct (sr_t s !! j) as [t_j|]; [|done]. step_in H.
    destruct (Nat.eqb (length t_j) 0) eqn:Et; [done|]. apply Nat.eqb_neq in Et.
    destruct (sr_x s !! j) as [x_j|]; [|done]. step_in H.
    destruct (Nat.eqb (nrows x_j) 0) eqn:Ex; [done|]. apply Nat.eqb_neq in Ex.
    destruct (PrimFloat.leb _ _) eqn:Eq; [done|].
    exists t_j, x_j. split; [done|]. split; [done|]. split; [by destruct t_j|].
    split; [lia|]. by apply time_test_fails.
  - intros (t_j & x_j & -> & -> & Ht & Hx & Hlt). step.
    destruct (Nat.eqb (length t_j) 0) eqn:Et.
    { apply Nat.eqb_eq in Et. by destruct t_j. }
    destruct (Nat.eqb (nrows x_j) 0) eqn:Ex; [apply Nat.eqb_eq in Ex; lia|].
    apply time_test_fails in Hlt. by rewrite Hlt.
Qed.

Lemma check_trajectories_true (s : SimResult) (js : list nat) :
  check_trajectories s js = Ok true <-> Forall (valid_trajectory s) js.
Proof.
  induction js as [|j js IH]; [by split; [constructor|]|].
  cbn [check_trajectories]. rewrite Forall_cons, <- IH, <- check_trajectory_true.
  destruct (check_trajectory s j) as [[|]|e]; simpl; split; try done; try tauto.
Qed.

Section MonitorProps.
Variable formula : Type.
Variable isemptyobject : SimResult -> bool.

(** X30.  What [monitorSTL] decides.  For a single simulation result it
    always returns, and it returns [True] exactly when the object is not
    empty, has states and times, and every trajectory has states and a
    time vector that is not empty and whose last time is not at most the
    first: the trajectory ends later than it starts, or its first or last
    time is NaN, for which the test [t[-1] <= t[0]] is false.  A trajectory
    of a single time point that is a number is rejected.  The formula
    plays no role in the answer.  For a Python list of simulation results
    the call raises [AttributeError], the list having no method
    [isemptyobject]. *)
Theorem monitorSTL_accepts (s : SimResult) (l : list SimResult) (eq : formula) :
  (exists answer, monitorSTL formula isemptyobject (SimOne s) eq = Ok answer) /\
  (monitorSTL formula isemptyobject (SimOne s) eq = Ok true <->
   isemptyobject s = false /\ sr_x s <> [] /\ sr_t s <> [] /\
   forall j, j < length (sr_t s) -> valid_trajectory s j) /\
  monitorSTL formula isemptyobject (SimList l) eq = Raise AttributeError.
Proof.
  split; [|split; [|done]].
  - unfold monitorSTL. destruct (isemptyobject s); [eauto|].
    destruct (check_results [s]); eauto.
  - unfold monitorSTL. destruct (isemptyobject s).
    { split; [done | by intros [? _]]. }
    cbn [check_results].
    assert (Hall : Forall (valid_trajectory s) (seq 0 (length (sr_t s)))
                   <-> forall j, j < length (sr_t s) -> valid_trajectory s j).
    { rewrite Forall_forall. split.
      - intros H j Hj. apply H. apply elem_of_seq. lia.
      - intros H j Hj. apply elem_of_seq in Hj. apply H. lia. }
    rewrite <- Hall, <- check_trajectories_true.
    destruct (sr_x s) as [|x xs]; [split; [done | by intros (_ & ? & _)]|].
    destruct (sr_t s) as [|t ts]; [split; [done | by intros (_ & _ & ? & _)]|].
    destruct (check_trajectories s _) as [[|]|e]; simpl; split; try done.
    + by intros (_ & _ & _ & ?).
    + by intros (_ & _ & _ & ?).
Qed.
End MonitorProps.

(** A trajectory whose last time is NaN is accepted, one that ends when it
    starts is not. *)
Example monitorSTL_nan_time :
  monitorSTL unit (fun _ => false) (SimOne sim_nan_time) tt = Ok true /\
  monitorSTL unit (fun _ => false) (SimOne sim_standstill) tt = Ok false.
Proof. split; vm_compute; reflexivity. Qed.
